(** * The graph dataframe: masks, edge encapsulation, filtering, aggregation

    A shallow embedding of the dataframe module (the file that ends in
    [module.exports = Dataframe]) and proofs about it.  Typed arrays are
    lists with stdpp's lookup [!!] and insert [<[i:=x]>]: like a typed
    array, an insert outside the array changes nothing.  Loop counters and
    lengths are [nat]; array entries that can hold [-1] or a wrapped value
    are [Z], with the conversion done by the store written out.  An edge
    array holds the two endpoints of edge [e] at [2e] and [2e+1].  Numbers
    are IEEE doubles, Rocq's primitive floats. *)

From Stdlib Require Import ZArith Floats Lia.
From stdpp Require Import gmap strings list sorting pretty.

(** ** Typed-array stores *)

Module TypedArray.

Local Open Scope Z_scope.

(** The conversion a store into an [Int32Array] applies. *)
Definition ToInt32 (z : Z) : Z :=
  let m := z mod 2 ^ 32 in if m <? 2 ^ 31 then m else m - 2 ^ 32.

(** The conversion a store into a [Uint32Array] applies. *)
Definition ToUint32 (z : Z) : Z := z mod 2 ^ 32.

(** The conversion a store into a [Uint8Array] applies. *)
Definition ToUint8 (z : Z) : Z := z mod 2 ^ 8.

(** [a[i]] for a number [i] read from another array: [undefined] when [i]
    is negative or past the end. *)
Definition ta_get (a : list Z) (i : Z) : option Z :=
  if i <? 0 then None else a !! Z.to_nat i.

(** [a[i] = v] where the index was itself read from an array: an
    [undefined] or out-of-range index leaves the elements alone. *)
Definition ta_set (a : list Z) (i : option Z) (v : Z) : list Z :=
  match i with
  | Some i => if i <? 0 then a else <[Z.to_nat i := v]> a
  | None => a
  end.

(** A value read from an array and stored again: [undefined] is stored
    as [0]. *)
Definition num (v : option Z) : Z := default 0 v.

End TypedArray.

(** ** Edge canonicalizer: [computeEdgeList], [computeWorkItemsTyped],
    [computeEdgeStartEndIdxs], [encapsulateEdges] *)

Module Edges.

Import TypedArray.

Record EdgeList := {
  edgeListTyped : list nat;
  originals : list nat
}.

Record Encapsulation := {
  degreesTyped : list Z;
  edgesTyped : list nat;
  edgePermutation : list nat;
  edgePermutationInverseTyped : list nat;
  numWorkItems : nat;
  workItemsTyped : list Z;
  srcToWorkItem : list Z;
  edgeStartEndIdxsTyped : list Z
}.

(** [x - y] on two array reads; [None] is [NaN] (a read past the end). *)
Definition js_sub (x y : option nat) : option Z :=
  match x, y with
  | Some x, Some y => Some (Z.of_nat x - Z.of_nat y)%Z
  | _, _ => None
  end.

(** The comparator handed to [sort]:
    [edges[a*2] - edges[b*2] || (edges[a*2 + 1] - edges[b*2 + 1])].
    A [NaN] or [0] left operand gives the right operand; [sort] reads a
    [NaN] result as [0]. *)
Definition edge_compare (edges : list nat) (a b : nat) : Z :=
  let d := js_sub (edges !! (a * 2 + 1)) (edges !! (b * 2 + 1)) in
  let r := match js_sub (edges !! (a * 2)) (edges !! (b * 2)) with
           | Some v => if (v =? 0)%Z then d else Some v
           | None => d
           end in
  default 0%Z r.

(** [while (edgeListLastPos < numEdges && edgesTyped[edgeListLastPos*2] === i)]
    of [computeWorkItemsTyped]; returns [(count, edgeListLastPos)]. *)
Fixpoint count_run (fuel : nat) (edgesTyped : list nat) (numEdges i : nat)
    (count pos : nat) : nat * nat :=
  match fuel with
  | O => (count, pos)
  | S fuel =>
      if (pos <? numEdges) && bool_decide (edgesTyped !! (pos * 2) = Some i)
      then count_run fuel edgesTyped numEdges i (S count) (S pos)
      else (count, pos)
  end.

Record WorkState := {
  ws_items : list Z;
  ws_lastPos : nat;
  ws_lastSrc : option Z
}.

(** One turn of the [for] loop of [computeWorkItemsTyped]. *)
Definition workItem_step (edgesTyped : list nat) (numEdges : nat)
    (st : WorkState) (i : nat) : WorkState :=
  if bool_decide (ws_lastSrc st = Some (Z.of_nat i)) then
    let startingIdx := ws_lastPos st in
    let '(count, pos) :=
      count_run numEdges edgesTyped numEdges i 0 startingIdx in
    {| ws_items :=
         <[i * 4 + 2 := ToInt32 (Z.of_nat i)]>
           (<[i * 4 + 1 := ToInt32 (Z.of_nat count)]>
              (<[i * 4 := ToInt32 (Z.of_nat startingIdx)]> (ws_items st)));
       ws_lastPos := pos;
       ws_lastSrc := if pos <? numEdges
                     then Z.of_nat <$> edgesTyped !! (pos * 2)
                     else Some (-1)%Z |}
  else
    {| ws_items :=
         <[i * 4 + 2 := ToInt32 (Z.of_nat i)]>
           (<[i * 4 + 1 := 0%Z]> (<[i * 4 := (-1)%Z]> (ws_items st)));
       ws_lastPos := ws_lastPos st;
       ws_lastSrc := ws_lastSrc st |}.

Definition workItems_loop (edgesTyped : list nat) (numPoints : nat) : WorkState :=
  foldl (workItem_step edgesTyped (length edgesTyped / 2))
        {| ws_items := replicate (numPoints * 4) 0%Z;
           ws_lastPos := 0;
           ws_lastSrc := Z.of_nat <$> edgesTyped !! 0 |}
        (seq 0 numPoints).

Definition computeWorkItemsTyped (edgesTyped originals : list nat)
    (numPoints : nat) : list Z :=
  ws_items (workItems_loop edgesTyped numPoints).

(** The inner [while (end < 0 && ((j + 1) < (workItemsTyped.length/4)))] of
    [computeEdgeStartEndIdxs]; a read past the end is [undefined], which is
    not [< 0]. *)
Fixpoint scan_end (fuel : nat) (workItemsTyped : list Z) (endv : option Z)
    (j : nat) : option Z :=
  match fuel with
  | O => endv
  | S fuel =>
      if from_option (λ e, e <? 0)%Z false endv
         && (j + 1 <? length workItemsTyped / 4)
      then scan_end fuel workItemsTyped (workItemsTyped !! ((j + 1) * 4)) (j + 1)
      else endv
  end.

Definition startEnd_step (workItemsTyped : list Z) (numEdges : nat)
    (out : list Z) (i : nat) : list Z :=
  match workItemsTyped !! (i * 4) with
  | Some start =>
      if (start =? -1)%Z then
        <[i * 2 + 1 := ToUint32 (-1)]> (<[i * 2 := ToUint32 (-1)]> out)
      else
        let endv := scan_end (length workItemsTyped) workItemsTyped
                      (workItemsTyped !! ((i + 1) * 4)) (i + 1) in
        let endv := if bool_decide (endv = Some (-1)%Z)
                    then Z.of_nat numEdges else num endv in
        <[i * 2 + 1 := ToUint32 endv]> (<[i * 2 := ToUint32 start]> out)
  | None => out
  end.

Definition computeEdgeStartEndIdxs (workItemsTyped : list Z)
    (edgesTyped originals : list nat) (numPoints : nat) : list Z :=
  let numEdges := length edgesTyped / 2 in
  let out := foldl (startEnd_step workItemsTyped numEdges)
                   (replicate (numPoints * 2) 0%Z)
                   (seq 0 (length workItemsTyped / 4 - 1)) in
  let wlen := Z.of_nat (length workItemsTyped) in
  let olen := Z.of_nat (length out) in
  if bool_decide (ta_get workItemsTyped (wlen - 4) ≠ Some (-1)%Z) then
    ta_set (ta_set out (Some (olen - 2)%Z)
                   (ToUint32 (num (ta_get workItemsTyped (wlen - 4)))))
           (Some (olen - 1)%Z) (ToUint32 (Z.of_nat numEdges))
  else
    ta_set (ta_set out (Some (olen - 2)%Z) (ToUint32 (-1)))
           (Some (olen - 1)%Z) (ToUint32 (-1)).

(** [maskedEdgeList[i] = maskedEdges[mapped[i]]] through the [Float64Array]
    views: the edge [mapped[i]] is copied as one 8-byte unit, both of its
    32-bit halves.  (A pair of point indices below 2^30 never has the bit
    pattern of a NaN, so the copy through a double keeps the bits.) *)
Definition copy_edge (edges mapped out : list nat) (i : nat) : list nat :=
  match mapped !! i with
  | Some idx =>
      match edges !! (idx * 2), edges !! (idx * 2 + 1) with
      | Some s, Some d => <[i * 2 + 1 := d]> (<[i * 2 := s]> out)
      | _, _ => out
      end
  | None => out
  end.

Section Canonicalizer.

(** [Array.prototype.sort] is the platform's: any function that returns a
    permutation of its input, ordered by the comparator when that one is a
    consistent ordering of the elements it is given. *)
Variable sort : (nat → nat → Z) → list nat → list nat.

Definition consistent_on (cmp : nat → nat → Z) (l : list nat) : Prop :=
  (∀ a b, a ∈ l → b ∈ l → (0 < cmp a b)%Z → (cmp b a <= 0)%Z) ∧
  (∀ a b c, a ∈ l → b ∈ l → c ∈ l →
     (cmp a b <= 0)%Z → (cmp b c <= 0)%Z → (cmp a c <= 0)%Z).

Definition sort_contract : Prop :=
  ∀ cmp l,
    sort cmp l ≡ₚ l ∧
    (consistent_on cmp l → StronglySorted (λ a b, (cmp a b <= 0)%Z) (sort cmp l)).

(** [computeEdgeList]: its first branch is guarded by [false && ...], so
    every call takes the "first time through" branch; [oldEncapsulated],
    [masks] and [pointOriginalLookup] are never read. *)
Definition computeEdgeList (edges : list nat) : EdgeList :=
  let numEdges := length edges / 2 in
  let mapped := sort (edge_compare edges) (seq 0 numEdges) in
  {| edgeListTyped :=
       foldl (copy_edge edges mapped) (replicate (length edges) 0) (seq 0 numEdges);
     originals := mapped |}.

(** [_.each(edgePermutationInverseTyped, function (val, i)
    { edgePermutationTyped[val] = i; })]. *)
Definition invert (inverse : list nat) (size : nat) : list nat :=
  foldl (λ perm '(i, val), <[val := i]> perm)
        (replicate size 0) (zip (seq 0 (length inverse)) inverse).

(** The loop that fills [srcToWorkItem] and [degreesTyped]. *)
Definition degrees_step (workItemsTyped : list Z) (acc : list Z * list Z)
    (i : nat) : list Z * list Z :=
  let '(srcToWorkItem, degreesTyped) := acc in
  let src := workItemsTyped !! (i * 4 + 2) in
  (ta_set srcToWorkItem src (ToInt32 (Z.of_nat i)),
   ta_set degreesTyped src (ToUint32 (num (workItemsTyped !! (i * 4 + 1))))).

Definition encapsulateEdges (edges : list nat) (numPoints : nat) : Encapsulation :=
  let edgeListObj := computeEdgeList edges in
  let edgesTyped := edgeListTyped edgeListObj in
  let originals := originals edgeListObj in
  let edgePermutationInverseTyped := originals in
  let edgePermutationTyped := invert edgePermutationInverseTyped (length edgesTyped / 2) in
  let workItemsTyped := computeWorkItemsTyped edgesTyped originals numPoints in
  let '(srcToWorkItem, degreesTyped) :=
    foldl (degrees_step workItemsTyped)
          (replicate numPoints 0%Z, replicate numPoints 0%Z)
          (seq 0 numPoints) in
  let edgeStartEndIdxsTyped :=
    computeEdgeStartEndIdxs workItemsTyped edgesTyped originals numPoints in
  {| degreesTyped := degreesTyped;
     edgesTyped := edgesTyped;
     edgePermutation := edgePermutationTyped;
     edgePermutationInverseTyped := edgePermutationInverseTyped;
     numWorkItems := length workItemsTyped;
     workItemsTyped := workItemsTyped;
     srcToWorkItem := srcToWorkItem;
     edgeStartEndIdxsTyped := edgeStartEndIdxsTyped |}.

End Canonicalizer.

(** [sum(degreesTyped)]. *)
Definition sumZ (l : list Z) : Z := foldr Z.add 0%Z l.

(** The sorted edge array is ordered by source. *)
Definition src_sorted (E : list nat) : Prop :=
  ∀ p q sp sq, p ≤ q → E !! (p * 2) = Some sp → E !! (q * 2) = Some sq → sp ≤ sq.

(** What holds of the state of [computeWorkItemsTyped] after the points
    below [k]: [cs] lists the counts written so far. *)
Definition work_inv (E : list nat) (n numPoints k : nat) (st : WorkState)
    (cs : list nat) : Prop :=
  ws_lastPos st ≤ n ∧
  (∀ p s, p < ws_lastPos st → E !! (p * 2) = Some s → s < k) ∧
  (∀ p s, ws_lastPos st ≤ p → E !! (p * 2) = Some s → k ≤ s) ∧
  (if decide (ws_lastPos st < n)
   then ws_lastSrc st = Z.of_nat <$> E !! (ws_lastPos st * 2)
   else ∀ i, ws_lastSrc st ≠ Some (Z.of_nat i)) ∧
  length (ws_items st) = numPoints * 4 ∧
  length cs = k ∧ sum_list cs = ws_lastPos st ∧
  (∀ j c, cs !! j = Some c →
     ws_items st !! (j * 4 + 1) = Some (Z.of_nat c) ∧
     ws_items st !! (j * 4 + 2) = Some (Z.of_nat j)).

(** A concrete [sort] to run the definitions with: insertion sort. *)
Fixpoint insert_sorted (cmp : nat → nat → Z) (x : nat) (l : list nat) : list nat :=
  match l with
  | [] => [x]
  | y :: l' => if (cmp x y <=? 0)%Z then x :: l else y :: insert_sorted cmp x l'
  end.

Definition insertion_sort (cmp : nat → nat → Z) (l : list nat) : list nat :=
  foldr (insert_sorted cmp) [] l.

End Edges.

(** ** Masks *)

Module Mask.

(** Modelled from the spec: [DataframeMask.js] is not among the sources.
    A mask holds, per component type, an ordered sequence of global
    indices, or [undefined] for "all of them" ([None] here); the owning
    dataframe is passed to the operations as the element count they read
    from it.  The traversals visit the present indices in order, calling
    the callback with the global index and its position; a traversal is
    the list of the indices it visits. *)
Record DataframeMask := {
  point : option (list nat);
  edge : option (list nat)
}.

Definition mapPointIndexes (numPoints : nat) (m : DataframeMask) : list nat :=
  match point m with
  | Some idxs => idxs
  | None => seq 0 numPoints
  end.

Definition mapEdgeIndexes (numEdges : nat) (m : DataframeMask) : list nat :=
  match edge m with
  | Some idxs => idxs
  | None => seq 0 numEdges
  end.

Definition numPoints (numPoints : nat) (m : DataframeMask) : nat :=
  length (mapPointIndexes numPoints m).

Definition numEdges (numEdges : nat) (m : DataframeMask) : nat :=
  length (mapEdgeIndexes numEdges m).

Inductive ComponentType := Point | Edge.

#[global] Instance ComponentType_eq_dec : EqDecision ComponentType.
Proof. solve_decision. Defined.

(** [getIndexByType(type, localIndex)]: the global index at a local
    position, the position itself when the mask is full; an [undefined]
    position ([None]) reads [undefined]. *)
Definition getIndexByType (m : DataframeMask) (type : ComponentType)
    (index : option nat) : option nat :=
  match (match type with Point => point m | Edge => edge m end) with
  | Some idxs => index ≫= (idxs !!.)
  | None => index
  end.

(** [fullDataframeMask()]. *)
Definition fullDataframeMask : DataframeMask := {| point := None; edge := None |}.

End Mask.

(** ** Mask composer: [composeMasks] *)

Module Compose.

Import TypedArray Mask.

(** A result-size limit: a count or [Infinity]. *)
Inductive limit := Finite (n : nat) | Infinity.

(** The [limits] object; a missing property is [None]. *)
Record Limits := {
  lim_point : option limit;
  lim_edge : option limit
}.

(** The objects a call can reach: arrays of masks, masks, [limits]
    objects.  A reference is a position in the heap. *)
Inductive object :=
  | ObjMasks (masks : list nat)
  | ObjMask (m : DataframeMask)
  | ObjLimits (l : Limits).

(** [numMasksSatisfiedByID[idx]++] on a [Uint8Array]. *)
Definition bump (counters : list Z) (idx : nat) : list Z :=
  alter (λ c, ToUint8 (c + 1)) idx counters.

(** [numMasksSatisfiedByID[idx] = 0]. *)
Definition zero (counters : list Z) (idx : nat) : list Z :=
  <[idx := 0%Z]> counters.

(** One selection mask: its edges, then its points. *)
Definition select_step (numPoints numEdges : nat) (acc : list Z * list Z)
    (mask : DataframeMask) : list Z * list Z :=
  let '(byPoint, byEdge) := acc in
  let byEdge := foldl bump byEdge (mapEdgeIndexes numEdges mask) in
  let byPoint := foldl bump byPoint (mapPointIndexes numPoints mask) in
  (byPoint, byEdge).

(** One exclusion mask: its points, then its edges. *)
Definition exclude_step (numPoints numEdges : nat) (acc : list Z * list Z)
    (mask : DataframeMask) : list Z * list Z :=
  let '(byPoint, byEdge) := acc in
  let byPoint := foldl zero byPoint (mapPointIndexes numPoints mask) in
  let byEdge := foldl zero byEdge (mapEdgeIndexes numEdges mask) in
  (byPoint, byEdge).

Definition reached (lim : limit) (len : nat) : bool :=
  match lim with
  | Finite n => n <=? len
  | Infinity => false
  end.

(** The [for] loop that fills one result array, from index [i] on: push
    [i] when its counter equals [numMasks], then stop if the limit is
    reached. *)
Fixpoint collect (lim : limit) (numMasks : nat) (counters : list Z) (i : nat)
    (targetMask : list nat) : list nat :=
  match counters with
  | [] => targetMask
  | c :: counters =>
      let targetMask :=
        if (c =? Z.of_nat numMasks)%Z then targetMask ++ [i] else targetMask in
      if reached lim (length targetMask) then targetMask
      else collect lim numMasks counters (S i) targetMask
  end.

(** The part of [composeMasks] after its arguments are read: the counters,
    and the result mask. *)
Definition compose (numPoints numEdges numMasks : nat)
    (selectionMasks exclusionMasks : list DataframeMask)
    (limPoint limEdge : limit) : DataframeMask :=
  let counters :=
    foldl (select_step numPoints numEdges)
          (replicate numPoints 0%Z, replicate numEdges 0%Z) selectionMasks in
  let '(byPoint, byEdge) :=
    foldl (exclude_step numPoints numEdges) counters exclusionMasks in
  {| point := Some (collect limPoint numMasks byPoint 0 []);
     edge := Some (collect limEdge numMasks byEdge 0 []) |}.

(** The masks an array of references holds. *)
Definition deref (h : list object) (refs : list nat) : option (list DataframeMask) :=
  mapM (λ r, match h !! r with Some (ObjMask m) => Some m | _ => None end) refs.

(** [if (limits[type] === undefined) { limits[type] = Infinity; }] for
    both types. *)
Definition fill_limits (l : Limits) : Limits :=
  {| lim_point := Some (default Infinity (lim_point l));
     lim_edge := Some (default Infinity (lim_edge l)) |}.

(** The masks of the array [exclusionMasks]; [_.each] over a missing array
    ([null] or [undefined]) visits nothing. *)
Definition excluded (h : list object) (exclusionMasks : option nat)
    : option (list DataframeMask) :=
  match exclusionMasks with
  | None => Some []
  | Some e =>
      match h !! e with
      | Some (ObjMasks refs) => deref h refs
      | _ => None
      end
  end.

(** The head of [composeMasks]: a missing [limits] becomes a new object
    with both limits [Infinity]; a given one has its missing limits filled
    in. *)
Definition resolve_limits (h : list object) (limits : option nat)
    : option (list object * Limits) :=
  match limits with
  | None => Some (h, {| lim_point := Some Infinity; lim_edge := Some Infinity |})
  | Some l =>
      match h !! l with
      | Some (ObjLimits lims) =>
          Some (<[l := ObjLimits (fill_limits lims)]> h, fill_limits lims)
      | _ => None
      end
  end.

(** [composeMasks(selectionMasks, exclusionMasks, limits)] on a heap: the
    arguments are references ([exclusionMasks] and [limits] may be
    absent), the result is the heap after the call and the reference of
    the new mask.  [None] when an argument is not an object of the
    expected kind.  The universal mask and the default limits made inside
    the call are not reachable after it and are not allocated. *)
Definition composeMasks (numPoints numEdges : nat) (h : list object)
    (selectionMasks : nat) (exclusionMasks limits : option nat)
    : option (list object * nat) :=
  '(h, lims) ← resolve_limits h limits;
  selRefs ← match h !! selectionMasks with
            | Some (ObjMasks refs) => Some refs
            | _ => None
            end;
  let universal := bool_decide (length selRefs = 0) in
  let numMasks := if universal then 1 else length selRefs in
  let h := if 255 <? numMasks
           then <[selectionMasks := ObjMasks (take 255 selRefs)]> h else h in
  selMasks ← (if universal then Some [fullDataframeMask]
              else match h !! selectionMasks with
                   | Some (ObjMasks refs) => deref h refs
                   | _ => None
                   end);
  excMasks ← excluded h exclusionMasks;
  let result :=
    compose numPoints numEdges numMasks selMasks excMasks
            (default Infinity (lim_point lims)) (default Infinity (lim_edge lims)) in
  Some (h ++ [ObjMask result], length h).

(** How many of the masks [S] hold the index [i], [idxs] being one of the
    two traversals. *)
Definition hits (idxs : DataframeMask → list nat) (i : nat)
    (S : list DataframeMask) : nat :=
  length (filter (λ m, i ∈ idxs m) S).

(** The indices, counted from [i], at which [counters] holds [k]. *)
Fixpoint positions (k : Z) (counters : list Z) (i : nat) : list nat :=
  match counters with
  | [] => []
  | c :: counters =>
      if (c =? k)%Z then i :: positions k counters (S i)
      else positions k counters (S i)
  end.

(** No finite limit: each of [limits.point], [limits.edge] is missing or
    [Infinity]. *)
Definition unlimited (h : list object) (limits : option nat) : Prop :=
  match limits with
  | None => True
  | Some l =>
      ∃ lims, h !! l = Some (ObjLimits lims) ∧
              default Infinity (lim_point lims) = Infinity ∧
              default Infinity (lim_edge lims) = Infinity
  end.

End Compose.

(** ** [pruneMaskEdges] *)

Module Prune.

Import Mask.

(** JavaScript truthiness of a looked-up number. *)
Definition truthy (v : option Z) : bool :=
  match v with
  | Some z => negb (z =? 0)%Z
  | None => false
  end.

(** [edges] is [rawdata.hostBuffers.forwardsEdges.edgesTyped]. *)
Definition pruneMaskEdges (numPoints numEdges : nat) (edges : list nat)
    (oldMask : DataframeMask) : DataframeMask :=
  let pointMaskOriginalLookup : gmap nat Z :=
    foldl (λ lookup idx, <[idx := 1%Z]> lookup) ∅
          (mapPointIndexes numPoints oldMask) in
  let edgeMask :=
    foldl (λ edgeMask edgeIdx,
             let src := edges !! (2 * edgeIdx) in
             let dst := edges !! (2 * edgeIdx + 1) in
             let newSrc := src ≫= (pointMaskOriginalLookup !!.) in
             let newDst := dst ≫= (pointMaskOriginalLookup !!.) in
             if truthy newSrc && truthy newDst
             then edgeMask ++ [edgeIdx] else edgeMask)
          [] (mapEdgeIndexes numEdges oldMask) in
  {| point := point oldMask; edge := Some edgeMask |}.

End Prune.

(** ** Filter engine: [applyDataframeMaskToFilterInPlace] *)

Module Filter.

Import Mask Edges.

(** The part of a [DataframeData] the pass below reads or rebuilds: the
    element counts, the host buffers of the edges, and the names under
    which [buffers.simulator] holds a buffer. *)
Record DataframeData := {
  numElements_point : nat;
  numElements_edge : nat;
  unsortedEdges : list nat;
  forwardsEdges : option Encapsulation;
  backwardsEdges : option Encapsulation;
  simulatorBuffers : gset string
}.

(** The dataframe: its mask objects by reference, the reference held in
    [this.lastMasks], and the two views. *)
Record Dataframe := {
  maskObjects : list DataframeMask;
  lastMasks : nat;
  rawdata : DataframeData;
  data : DataframeData
}.

(** [simulator.versions]. *)
Record Versions := {
  buffers : gmap string Z;
  tick : Z
}.

(** How the returned promise settles: with [false], with [undefined] at
    the end of a pass, or not at all (a failed read or write of a buffer,
    or an exception). *)
Inductive Outcome := ResolvedFalse | ResolvedUndefined | Failed.

Definition someBufferPropertyNames : list string :=
  ["curPoints"; "prevForces"; "degrees"; "forwardsEdges"; "forwardsDegrees";
   "forwardsWorkItems"; "forwardsEdgeStartEndIdxs"; "backwardsEdges";
   "backwardsDegrees"; "backwardsWorkItems"; "backwardsEdgeStartEndIdxs";
   "springsPos"; "forwardsEdgeWeights"; "backwardsEdgeWeights"].

(** [_.each(_.keys(simulator.versions.buffers), ...)] and [tick++]. *)
Definition bump_versions (v : Versions) : Versions :=
  {| buffers := (λ n, n + 1)%Z <$> buffers v; tick := (tick v + 1)%Z |}.

Section Pass.

Variable sort : (nat → nat → Z) → list nat → list nat.

(** [pointOriginalLookup]: global point index to local position. *)
Definition pointOriginalLookup (points : list nat) : gmap nat nat :=
  foldl (λ lookup '(i, pointIndex), <[pointIndex := i]> lookup) ∅
        (zip (seq 0 (length points)) points).

(** An entry stored into a [Uint32Array]: [undefined] is stored as [0]. *)
Definition stored (v : option nat) : nat := default 0 v.

(** The rebuilt view; [masks] is the mask object, [fe] the raw forward
    encapsulation.  Labels, colours, sizes and the simulator's buffer
    contents are gathered copies that nothing below reads; they are left
    out. *)
Definition newData (raw : DataframeData) (fe : Encapsulation)
    (masks : DataframeMask) : DataframeData * list nat :=
  let points := mapPointIndexes (numElements_point raw) masks in
  let numPoints := length points in
  let map := edgePermutationInverseTyped fe in
  let unsortedEdgeMask :=
    sort (λ a b, Z.of_nat a - Z.of_nat b)%Z
         ((λ edgeIndex, stored (map !! edgeIndex))
            <$> mapEdgeIndexes (numElements_edge raw) masks) in
  let lookup := pointOriginalLookup points in
  let originalEdges := unsortedEdges raw in
  let filteredEdges :=
    unsortedEdgeMask ≫= λ oldIdx,
      [stored (originalEdges !! (oldIdx * 2) ≫= (lookup !!.));
       stored (originalEdges !! (oldIdx * 2 + 1) ≫= (lookup !!.))] in
  let edgesFlipped :=
    unsortedEdgeMask ≫= λ oldIdx,
      [stored (originalEdges !! (oldIdx * 2 + 1) ≫= (lookup !!.));
       stored (originalEdges !! (oldIdx * 2) ≫= (lookup !!.))] in
  ({| numElements_point := numPoints;
      numElements_edge := length (mapEdgeIndexes (numElements_edge raw) masks);
      unsortedEdges := filteredEdges;
      forwardsEdges := Some (encapsulateEdges sort filteredEdges numPoints);
      backwardsEdges := Some (encapsulateEdges sort edgesFlipped numPoints);
      simulatorBuffers :=
        list_to_set someBufferPropertyNames ∪ simulatorBuffers raw |},
   unsortedEdgeMask).

(** [applyDataframeMaskToFilterInPlace(masks, simulator)]; [masks] is a
    reference to a mask object, [io_ok] says whether every buffer read,
    write and creation of the pass succeeds.  The state changes that matter
    here all sit in the last steps of the promise chain, after the buffer
    traffic: a failure leaves [data], [lastMasks] and the versions alone. *)
Definition applyDataframeMaskToFilterInPlace (io_ok : bool) (df : Dataframe)
    (simulator : Versions) (masks : nat) : Dataframe * Versions * Outcome :=
  if bool_decide (masks = lastMasks df) then (df, simulator, ResolvedFalse)
  else if bool_decide ("forwardsEdgeWeights" ∉ simulatorBuffers (rawdata df) ∨
                       "backwardsEdgeWeights" ∉ simulatorBuffers (rawdata df))
  then (df, simulator, ResolvedFalse)
  else
    match maskObjects df !! masks, forwardsEdges (rawdata df) with
    | Some m, Some fe =>
        if io_ok then
          let '(new, unsortedEdgeMask) := newData (rawdata df) fe m in
          ({| maskObjects :=
                <[lastMasks df := {| point := point m;
                                     edge := Some unsortedEdgeMask |}]>
                  (maskObjects df);
              lastMasks := lastMasks df;
              rawdata := rawdata df;
              data := new |},
           bump_versions simulator, ResolvedUndefined)
        else (df, simulator, Failed)
    | _, _ => (df, simulator, Failed)
    end.

End Pass.

(** A loaded dataframe to run the pass on: the path 0-1-2-3, its buffers
    in place, [lastMasks] the full mask made by the constructor (object 0),
    and a caller's mask of the points 0,1,2 (object 1). *)
Definition path_raw : DataframeData :=
  {| numElements_point := 4;
     numElements_edge := 3;
     unsortedEdges := [0; 1; 1; 2; 2; 3];
     forwardsEdges := Some (encapsulateEdges insertion_sort [0; 1; 1; 2; 2; 3] 4);
     backwardsEdges := Some (encapsulateEdges insertion_sort [1; 0; 2; 1; 3; 2] 4);
     simulatorBuffers := list_to_set someBufferPropertyNames |}.

Definition path_dataframe : Dataframe :=
  {| maskObjects := [fullDataframeMask;
                     {| point := Some [0; 1; 2]; edge := Some [0; 1] |}];
     lastMasks := 0;
     rawdata := path_raw;
     data := path_raw |}.

Definition path_versions : Versions :=
  {| buffers := {[ "curPoints" := 0%Z; "springsPos" := 0%Z ]}; tick := 0%Z |}.

End Filter.

(** ** Row access: [getRowAt] *)

Module Rows.

Import Mask Edges.

Section Rows.

(** The values columns hold are not looked into here. *)
Context {V : Type}.

Record Column := { values : list V }.

(** What the row object maps a key to: a column's value at the row
    ([undefined] when the column has none there), or [_index]. *)
Inductive cell :=
  | Value (v : option V)
  | Index (origIndex : nat).

Record Dataframe := {
  forwardsEdges : option Encapsulation;
  lastMasks : DataframeMask;
  attributes_point : gmap string Column;
  attributes_edge : gmap string Column
}.

(** [getHostBuffer('forwardsEdges')] of the filtered view: an error when
    there is none. *)
Definition getHostBuffer_forwardsEdges (df : Dataframe) : string + Encapsulation :=
  match forwardsEdges df with
  | Some res => inr res
  | None => inl "Invalid Host Buffer: forwardsEdges"
  end.

(** The row read at the global index [index]. *)
Definition row_at (attributes : gmap string Column) (index : option nat)
    (origIndex : nat) : gmap string cell :=
  <["_index" := Index origIndex]>
    ((λ column, Value (index ≫= (values column !!.))) <$> attributes).

Definition getRowAt (df : Dataframe) (index : nat) (type : ComponentType)
    (attributes : option (gmap string Column)) : string + gmap string cell :=
  let origIndex := index in
  let translated : string + option nat :=
    if negb (index =? 0) && bool_decide (type = Edge) then
      match getHostBuffer_forwardsEdges df with
      | inr forwardsEdges => inr (edgePermutationInverseTyped forwardsEdges !! index)
      | inl e => inl e
      end
    else inr (Some index) in
  match translated with
  | inl e => inl e
  | inr index =>
      let index := getIndexByType (lastMasks df) type index in
      let attributes :=
        default (match type with
                 | Point => attributes_point df
                 | Edge => attributes_edge df
                 end) attributes in
      inr (row_at attributes index origIndex)
  end.

End Rows.

End Rows.

(** ** Numbers

    A JavaScript number is an IEEE 754 double: [float], with the kernel's
    arithmetic and comparisons. *)

Module Number.

(** The double of an integer below 2^63 in size (exact below 2^53). *)
Definition of_Z (z : Z) : float :=
  if (z <? 0)%Z then (- PrimFloat.of_uint63 (Uint63.of_Z (- z)))%float
  else PrimFloat.of_uint63 (Uint63.of_Z z).

Definition of_nat (n : nat) : float := of_Z (Z.of_nat n).

(** A finite number cut to its integer part (towards zero). *)
Definition truncate (x : float) : option Z :=
  match Prim2SF x with
  | S754_zero _ => Some 0%Z
  | S754_finite s m e =>
      let v := if (0 <=? e)%Z then (Z.pos m * 2 ^ e)%Z
               else (Z.pos m / 2 ^ (- e))%Z in
      Some (if s then (- v)%Z else v)
  | _ => None
  end.

(** [x | 0]: [NaN] and the infinities give [0], other numbers their
    integer part wrapped to 32 bits. *)
Definition or_zero (x : float) : Z :=
  match truncate x with
  | Some z => TypedArray.ToInt32 z
  | None => 0%Z
  end.

(** The integer a number is, when it is one. *)
Definition integer_value (x : float) : option Z :=
  match Prim2SF x with
  | S754_zero _ => Some 0%Z
  | S754_finite s m e =>
      if (0 <=? e)%Z then Some (if s then (- (Z.pos m * 2 ^ e))%Z else (Z.pos m * 2 ^ e)%Z)
      else if (Z.pos m mod 2 ^ (- e) =? 0)%Z
           then Some (if s then (- (Z.pos m / 2 ^ (- e)))%Z else (Z.pos m / 2 ^ (- e))%Z)
           else None
  | _ => None
  end.

(** [Math.floor]. *)
Definition floor (x : float) : float :=
  match Prim2SF x with
  | S754_finite s m e =>
      if (0 <=? e)%Z then x
      else
        let q := (Z.pos m / 2 ^ (- e))%Z in
        let exact := (Z.pos m mod 2 ^ (- e) =? 0)%Z in
        if s then of_Z (- (if exact then q else q + 1))%Z else of_Z q
  | _ => x
  end.

(** [Math.ceil]. *)
Definition ceil (x : float) : float := (- floor (- x))%float.

(** [Math.min] and [Math.max] of two numbers. *)
Definition min (x y : float) : float :=
  if PrimFloat.is_nan x || PrimFloat.is_nan y then nan
  else if (y <? x)%float then y else x.

Definition max (x y : float) : float :=
  if PrimFloat.is_nan x || PrimFloat.is_nan y then nan
  else if (x <? y)%float then y else x.

(** [parseFloat(x)] for a number [x]: its digits parse back to it, except
    that [-0] prints as [0]. *)
Definition parseFloat (x : float) : float :=
  if PrimFloat.is_zero x then 0%float else x.

(** A rendering of numbers to property keys to run the definitions with:
    the decimal digits the platform prints for an integer, and for the
    other numbers a text that, like the platform's, differs between
    different numbers. *)
Definition NumberToString_integral (x : float) : string :=
  match Prim2SF x with
  | S754_nan => "NaN"
  | S754_infinity false => "Infinity"
  | S754_infinity true => "-Infinity"
  | S754_zero _ => "0"
  | S754_finite s m e =>
      match integer_value x with
      | Some z => pretty z
      | None => (if s then "-" else "") +:+ pretty (Z.pos m) +:+ "*2^" +:+ pretty e
      end
  end.

End Number.

(** ** Aggregation engine: [ColumnAggregation] over a column of numbers *)

Module Agg.

Import Number.

Definition numberSignifiesUndefined (value : float) : bool :=
  PrimFloat.is_nan value || (value =? 0x7FFFFFFF)%float.

(** [valueSignifiedUndefined] on what a read of a numeric column gives: a
    number, or [undefined] past the end. *)
Definition valueSignifiedUndefined (value : option float) : bool :=
  match value with
  | None => true
  | Some value => numberSignifiesUndefined value
  end.

Inductive DataType := DTinteger | DTnumber | DTstring.

(** A cached statistic that can be [null]. *)
Inductive nullable := Null | Num (x : float).

(** [null] and [undefined] in arithmetic. *)
Definition ToNumber (v : option nullable) : float :=
  match v with
  | Some (Num x) => x
  | Some Null => 0%float
  | None => nan
  end.

(** [this.aggregations]; [None] is [undefined], not yet computed. *)
Record Aggregations := {
  agg_count : option nat;
  agg_countDistinct : option nat;
  agg_distinctValues : option (gmap string nat);
  agg_maxValue : option nullable;
  agg_minValue : option nullable;
  agg_sum : option nullable;
  agg_averageValue : option nullable;
  agg_jsType : option string;
  agg_dataType : option DataType;
  agg_isNumeric : option bool;
  agg_isIntegral : option bool;
  agg_isContinuous : option bool;
  agg_isQuantitative : option bool;
  agg_isOrdered : option bool;
  agg_isCategorical : option bool
}.

Record ColumnAggregation := {
  values : list float;
  aggregations : Aggregations
}.

(** [new ColumnAggregation(dataframe, column)]. *)
Definition new (column_values : list float) : ColumnAggregation :=
  {| values := column_values;
     aggregations :=
       {| agg_count := None; agg_countDistinct := None; agg_distinctValues := None;
          agg_maxValue := None; agg_minValue := None; agg_sum := None;
          agg_averageValue := None; agg_jsType := None; agg_dataType := None;
          agg_isNumeric := None; agg_isIntegral := None; agg_isContinuous := None;
          agg_isQuantitative := None; agg_isOrdered := None;
          agg_isCategorical := None |} |}.

Definition updateAggregations (f : Aggregations → Aggregations)
    (ca : ColumnAggregation) : ColumnAggregation :=
  {| values := values ca; aggregations := f (aggregations ca) |}.

(** [getAggregationByType(aggType)]: run the aggregation when the entry is
    [undefined], then read the entry. *)
Definition getAggregationByType {A} (aggType : Aggregations → option A)
    (runAggregationForAggType : ColumnAggregation → ColumnAggregation)
    (ca : ColumnAggregation) : ColumnAggregation * option A :=
  match aggType (aggregations ca) with
  | Some v => (ca, Some v)
  | None =>
      let ca := runAggregationForAggType ca in
      (ca, aggType (aggregations ca))
  end.

(** [case 'count': this.aggregations.count = this.column.values.length]. *)
Definition run_count (ca : ColumnAggregation) : ColumnAggregation :=
  updateAggregations
    (λ a, {| agg_count := Some (length (values ca));
             agg_countDistinct := agg_countDistinct a;
             agg_distinctValues := agg_distinctValues a;
             agg_maxValue := agg_maxValue a; agg_minValue := agg_minValue a;
             agg_sum := agg_sum a; agg_averageValue := agg_averageValue a;
             agg_jsType := agg_jsType a; agg_dataType := agg_dataType a;
             agg_isNumeric := agg_isNumeric a; agg_isIntegral := agg_isIntegral a;
             agg_isContinuous := agg_isContinuous a;
             agg_isQuantitative := agg_isQuantitative a;
             agg_isOrdered := agg_isOrdered a;
             agg_isCategorical := agg_isCategorical a |}) ca.

(** The values a loop [for (i = 0; i < numValues; i++)] reads:
    [values[i]], [undefined] past the end; no turn when [numValues] is
    [undefined]. *)
Definition scanned (ca : ColumnAggregation) (numValues : option nat)
    : list (option float) :=
  (λ i, values ca !! i) <$> seq 0 (default 0 numValues).

(** [parseInt(value) == value] on a number: the digits of an integer below
    10^21 parse back to it; a fraction loses its fractional digits, and a
    number printed with an exponent parses as its leading digits. *)
Definition isIntegral (value : float) : bool :=
  match integer_value value with
  | Some z => (Z.abs z <? 10 ^ 21)%Z
  | None => false
  end.

Record TypeScan := {
  ts_jsType : option string;
  ts_isNumeric : bool;
  ts_isIntegral : bool
}.

Definition inferDataType_step (st : TypeScan) (value : option float) : TypeScan :=
  if valueSignifiedUndefined value then st
  else
    let value := default nan value in
    if ts_isNumeric st then
      let isNumeric := ts_isNumeric st && negb (PrimFloat.is_nan value) in
      {| ts_jsType := Some "number";
         ts_isNumeric := isNumeric;
         ts_isIntegral := isNumeric && isIntegral value |}
    else
      {| ts_jsType := Some "number";
         ts_isNumeric := ts_isNumeric st;
         ts_isIntegral := ts_isIntegral st |}.

Definition inferDataType (ca : ColumnAggregation) : ColumnAggregation :=
  let '(ca, numValues) := getAggregationByType agg_count run_count ca in
  let st := foldl inferDataType_step
                  {| ts_jsType := None; ts_isNumeric := true; ts_isIntegral := true |}
                  (scanned ca numValues) in
  let isNumeric := ts_isNumeric st in
  let isIntegral := ts_isIntegral st in
  let isContinuous := isNumeric && negb isIntegral in
  let dataType := if isIntegral then DTinteger
                  else if isNumeric then DTnumber else DTstring in
  updateAggregations
    (λ a, {| agg_count := agg_count a;
             agg_countDistinct := agg_countDistinct a;
             agg_distinctValues := agg_distinctValues a;
             agg_maxValue := agg_maxValue a; agg_minValue := agg_minValue a;
             agg_sum := agg_sum a; agg_averageValue := agg_averageValue a;
             agg_jsType := ts_jsType st;
             agg_dataType := Some dataType;
             agg_isNumeric := Some isNumeric; agg_isIntegral := Some isIntegral;
             agg_isContinuous := Some isContinuous;
             agg_isQuantitative := Some isContinuous;
             agg_isOrdered := Some true;
             agg_isCategorical := agg_isCategorical a |}) ca.

Record NumericScan := {
  ns_minValue : float;
  ns_maxValue : float;
  ns_sum : float
}.

(** One turn of the loop of [fixedAllocationNumericAggregations]. *)
Definition numeric_step (st : NumericScan) (value : option float) : NumericScan :=
  match value with
  | None => st
  | Some value =>
      if numberSignifiesUndefined value then st
      else
        let '(minValue, maxValue) :=
          if (value <? ns_minValue st)%float then (value, ns_maxValue st)
          else if (ns_maxValue st <? value)%float then (ns_minValue st, value)
          else (ns_minValue st, ns_maxValue st) in
        {| ns_minValue := minValue;
           ns_maxValue := maxValue;
           ns_sum := (ns_sum st + parseFloat value)%float |}
  end.

Definition set_numeric (minValue maxValue sum averageValue : nullable)
    (ca : ColumnAggregation) : ColumnAggregation :=
  updateAggregations
    (λ a, {| agg_count := agg_count a;
             agg_countDistinct := agg_countDistinct a;
             agg_distinctValues := agg_distinctValues a;
             agg_maxValue := Some maxValue; agg_minValue := Some minValue;
             agg_sum := Some sum; agg_averageValue := Some averageValue;
             agg_jsType := agg_jsType a; agg_dataType := agg_dataType a;
             agg_isNumeric := agg_isNumeric a; agg_isIntegral := agg_isIntegral a;
             agg_isContinuous := agg_isContinuous a;
             agg_isQuantitative := agg_isQuantitative a;
             agg_isOrdered := agg_isOrdered a;
             agg_isCategorical := agg_isCategorical a |}) ca.

(** [sum / numValues]; an [undefined] count divides to [NaN]. *)
Definition divide_by_count (sum : float) (numValues : option nat) : float :=
  match numValues with
  | Some n => (sum / of_nat n)%float
  | None => nan
  end.

Definition fixedAllocationNumericAggregations (ca : ColumnAggregation)
    : ColumnAggregation :=
  let '(ca, numValues) := getAggregationByType agg_count run_count ca in
  let st := foldl numeric_step
                  {| ns_minValue := infinity; ns_maxValue := neg_infinity;
                     ns_sum := 0%float |}
                  (scanned ca numValues) in
  set_numeric (Num (ns_minValue st)) (Num (ns_maxValue st)) (Num (ns_sum st))
              (Num (divide_by_count (ns_sum st) numValues)) ca.

(** One turn of the loop of [minMaxGenericAggregations], with the
    comparison [a < b] of the default case.  [inferDataType] finds every
    column of numbers numeric, so this path is taken by other columns
    only. *)
Definition generic_step (st : option float * option float) (value : option float)
    : option float * option float :=
  if valueSignifiedUndefined value then st
  else
    let value := default nan value in
    let '(minValue, maxValue) := st in
    (match minValue with
     | None => Some value
     | Some m => if (value <? m)%float then Some value else minValue
     end,
     match maxValue with
     | None => Some value
     | Some m => if (m <? value)%float then Some value else maxValue
     end).

Definition from_null (v : option float) : nullable :=
  match v with
  | Some x => Num x
  | None => Null
  end.

(** [case 'minValue': case 'maxValue': case 'sum': case 'averageValue']. *)
Definition run_numeric (ca : ColumnAggregation) : ColumnAggregation :=
  let '(ca, isNumeric) := getAggregationByType agg_isNumeric inferDataType ca in
  if default false isNumeric then fixedAllocationNumericAggregations ca
  else
    let '(ca, numValues) := getAggregationByType agg_count run_count ca in
    let '(ca, _) := getAggregationByType agg_dataType inferDataType ca in
    let '(minValue, maxValue) :=
      foldl generic_step (None, None) (scanned ca numValues) in
    set_numeric (from_null minValue) (from_null maxValue) Null Null ca.

(** The values of a column that count as defined, and the sum the numeric
    scan accumulates over a list of values. *)
Definition defined_values (values : list float) : list float :=
  filter (λ v, numberSignifiesUndefined v = false) values.

Definition sum_of (values : list float) : float :=
  foldl (λ s v, (s + parseFloat v)%float) 0%float values.

Record DistinctScan := {
  ds_distinctCounts : gmap string nat;
  ds_numDistinct : nat;
  ds_minValue : float;
  ds_maxValue : float
}.

Section Distinct.

(** The text under which a number is a property key of [distinctCounts]:
    the platform's conversion of numbers to strings. *)
Variable NumberToString : float → string.

(** One turn of the loop of [countDistinct]. *)
Definition distinct_step (limit : nat) (st : DistinctScan) (value : option float)
    : DistinctScan :=
  if valueSignifiedUndefined value then st
  else
    let value := default nan value in
    let '(minValue, maxValue) :=
      if (value <? ds_minValue st)%float then (value, ds_maxValue st)
      else if (ds_maxValue st <? value)%float then (ds_minValue st, value)
      else (ds_minValue st, ds_maxValue st) in
    if limit <? ds_numDistinct st then
      {| ds_distinctCounts := ds_distinctCounts st;
         ds_numDistinct := ds_numDistinct st;
         ds_minValue := minValue; ds_maxValue := maxValue |}
    else
      match ds_distinctCounts st !! NumberToString value with
      | None =>
          {| ds_distinctCounts := <[NumberToString value := 1]> (ds_distinctCounts st);
             ds_numDistinct := S (ds_numDistinct st);
             ds_minValue := minValue; ds_maxValue := maxValue |}
      | Some n =>
          {| ds_distinctCounts := <[NumberToString value := S n]> (ds_distinctCounts st);
             ds_numDistinct := ds_numDistinct st;
             ds_minValue := minValue; ds_maxValue := maxValue |}
      end.

Definition MaxDistinctValues : nat := 400.

(** [countDistinct(limit)]; a missing [limit] is [MaxDistinctValues]. *)
Definition countDistinct (limit : option nat) (ca : ColumnAggregation)
    : ColumnAggregation :=
  let '(ca, numValues) := getAggregationByType agg_count run_count ca in
  let limit := default MaxDistinctValues limit in
  let st := foldl (distinct_step limit)
                  {| ds_distinctCounts := ∅; ds_numDistinct := 0;
                     ds_minValue := infinity; ds_maxValue := neg_infinity |}
                  (scanned ca numValues) in
  let numDistinct := ds_numDistinct st in
  let ca :=
    updateAggregations
      (λ a, {| agg_count := agg_count a;
               agg_countDistinct := Some numDistinct;
               agg_distinctValues := Some (ds_distinctCounts st);
               agg_maxValue := agg_maxValue a; agg_minValue := agg_minValue a;
               agg_sum := agg_sum a; agg_averageValue := agg_averageValue a;
               agg_jsType := agg_jsType a; agg_dataType := agg_dataType a;
               agg_isNumeric := agg_isNumeric a; agg_isIntegral := agg_isIntegral a;
               agg_isContinuous := agg_isContinuous a;
               agg_isQuantitative := agg_isQuantitative a;
               agg_isOrdered := agg_isOrdered a;
               agg_isCategorical := agg_isCategorical a |}) ca in
  let '(ca, dataType) := getAggregationByType agg_dataType inferDataType ca in
  let isCategorical :=
    match dataType with
    | Some DTstring => numDistinct <=? limit
    | Some DTinteger =>
        (numDistinct <=? limit)
        && ((ds_minValue st =? 0)%float || (ds_minValue st =? 1)%float)
        && (ds_maxValue st - ds_minValue st =? of_nat numDistinct - 1)%float
    | _ => false
    end in
  updateAggregations
    (λ a, {| agg_count := agg_count a;
             agg_countDistinct := agg_countDistinct a;
             agg_distinctValues := agg_distinctValues a;
             agg_maxValue := agg_maxValue a; agg_minValue := agg_minValue a;
             agg_sum := agg_sum a; agg_averageValue := agg_averageValue a;
             agg_jsType := agg_jsType a; agg_dataType := agg_dataType a;
             agg_isNumeric := agg_isNumeric a; agg_isIntegral := agg_isIntegral a;
             agg_isContinuous := agg_isContinuous a;
             agg_isQuantitative := agg_isQuantitative a;
             agg_isOrdered := agg_isOrdered a;
             agg_isCategorical := Some isCategorical |}) ca.

(** [case 'countDistinct': case 'distinctValues': case 'isCategorical']. *)
Definition run_distinct (ca : ColumnAggregation) : ColumnAggregation :=
  countDistinct (Some 500) ca.

End Distinct.

End Agg.

(** ** Binning and histograms: [calculateBinning], [histogram] *)

Module Histogram.

Import Number Agg.

Record Binning := {
  numBins : float;
  binWidth : float;
  isCountBy : option bool;
  minValue : float;
  maxValue : float
}.

Definition round_down (num multiple : float) : float :=
  if (multiple =? 0)%float then num else (multiple * floor (num / multiple))%float.

Definition round_up (num multiple : float) : float :=
  if (multiple =? 0)%float then num else (multiple * ceil (num / multiple))%float.

(** The double the literal [0.1] denotes. *)
Definition tenth : float := 0x1.999999999999ap-4%float.

(** [while (numBins < 2 || numBins >= 100)]; returns [binWidth], [None]
    when the turns run out. *)
Fixpoint rough_width (fuel : nat) (range binWidth : float) : option float :=
  let numBins := (range / binWidth)%float in
  if (numBins <? 2)%float || (100 <=? numBins)%float then
    match fuel with
    | O => None
    | S fuel =>
        rough_width fuel range
          (if (numBins <? 2)%float then binWidth * tenth else binWidth * 10)%float
    end
  else Some binWidth.

(** [while (numBins < minBins || numBins > goalBins)]. *)
Fixpoint refine_width (fuel : nat) (range minBins goalBins binWidth : float)
    : option float :=
  let numBins := (range / binWidth)%float in
  if (numBins <? minBins)%float || (goalBins <? numBins)%float then
    match fuel with
    | O => None
    | S fuel =>
        refine_width fuel range minBins goalBins
          (if (numBins <? minBins)%float then binWidth / 2 else binWidth * 2)%float
    end
  else Some binWidth.

(** A number in a condition: [0] and [NaN] are false. *)
Definition truthy (x : float) : bool :=
  negb (PrimFloat.is_zero x || PrimFloat.is_nan x).

(** What an entry of [bins] holds: a count, or the [NaN] that [++] makes
    of a missing entry. *)
Inductive count := Count (n : nat) | NotANumber.

Inductive HistogramType := countBy | histogramType.

Record HistogramResult := {
  h_type : HistogramType;
  h_numBins : float;
  h_binWidth : float;
  h_numValues : option nat;
  h_maxValue : float;
  h_minValue : float;
  h_bins : gmap Z count;
  h_binValues : option (gmap Z nullable)
}.

(** The settled value of [histogram], or the exception of an array
    constructor given a length that is not one, or of a loop that ran out
    of turns. *)
Inductive Outcome :=
  | NoData
  | Result (r : HistogramResult)
  | Threw.

(** [new Array(numBins)]: the length, when [numBins] is one. *)
Definition array_length (numBins : float) : option nat :=
  match integer_value numBins with
  | Some z => if (0 <=? z)%Z && (z <? 2 ^ 32)%Z then Some (Z.to_nat z) else None
  | None => None
  end.

(** [((value - bottomVal) / binWidth) | 0]. *)
Definition binId (bottomVal binWidth value : float) : Z :=
  or_zero ((value - bottomVal) / binWidth)%float.

(** One turn of the counting loop of [histogram]. *)
Definition histogram_step (values : list float) (bottomVal binWidth : float)
    (acc : gmap Z count * gmap Z nullable) (index : nat)
    : gmap Z count * gmap Z nullable :=
  match values !! index with
  | None => acc
  | Some value =>
      if numberSignifiesUndefined value then acc
      else
        let '(bins, binValues) := acc in
        let binId := binId bottomVal binWidth value in
        let bins :=
          match bins !! binId with
          | Some (Count n) => <[binId := Count (S n)]> bins
          | _ => <[binId := NotANumber]> bins
          end in
        let binValues :=
          match binValues !! binId with
          | None => <[binId := Num value]> binValues
          | Some (Num v) =>
              if (v =? value)%float then binValues else <[binId := Null]> binValues
          | Some Null => binValues
          end in
        (bins, binValues)
  end.

Section Binning.

(** [Math.log] is the platform's. *)
Variable Math_log : float → float.
Variable NumberToString : float → string.

(** [calculateBinning(aggregations, numValues, goalNumberOfBins)];
    [None] when a loop runs out of turns. *)
Definition calculateBinning (aggregations : ColumnAggregation) (numValues : float)
    (goalNumberOfBins : option float) : ColumnAggregation * option Binning :=
  let maxBinCount := 30%float in
  let goalBins :=
    if (maxBinCount <? numValues)%float
    then (ceil (Math_log numValues / Math_log 2) + 1)%float
    else ceil (PrimFloat.sqrt numValues) in
  let goalBins := Number.min goalBins maxBinCount in
  let goalBins := Number.max goalBins 8 in
  let '(aggregations, max) :=
    getAggregationByType agg_maxValue run_numeric aggregations in
  let '(aggregations, min) :=
    getAggregationByType agg_minValue run_numeric aggregations in
  let max := ToNumber max in
  let min := ToNumber min in
  let defaultBinning :=
    {| numBins := 1; binWidth := 1; isCountBy := None;
       minValue := neg_infinity; maxValue := infinity |} in
  let range := (max - min)%float in
  let '(aggregations, countDistinct) :=
    getAggregationByType agg_countDistinct (run_distinct NumberToString) aggregations in
  let few := match countDistinct with
             | Some n => (of_nat n <? maxBinCount)%float
             | None => false
             end in
  let '(aggregations, integral) :=
    if few then getAggregationByType agg_isIntegral inferDataType aggregations
    else (aggregations, None) in
  if few && default false integral then
    (aggregations,
     Some {| numBins := numValues;
             binWidth := (range / (numValues - 1))%float;
             isCountBy := Some (range <=? maxBinCount)%float;
             minValue := min; maxValue := max |})
  else if from_option truthy false goalNumberOfBins then
    let goal := default nan goalNumberOfBins in
    (aggregations,
     Some {| numBins := goal;
             binWidth := (range / (goal - 1))%float;
             isCountBy := None;
             minValue := min; maxValue := max |})
  else
    let binWidth := 10%float in
    let numBins := (range / binWidth)%float in
    if (min =? infinity)%float || (max =? neg_infinity)%float || (numBins <? 0)%float
    then (aggregations, Some defaultBinning)
    else
      let minBins := Number.max 3 (floor (goalBins / 2) - 1)%float in
      (aggregations,
       binWidth ← rough_width 4096 range binWidth;
       binWidth ← refine_width 4096 range minBins goalBins binWidth;
       let bottomVal := round_down min binWidth in
       let topVal := round_up max binWidth in
       Some {| numBins := (floor ((topVal - bottomVal) / binWidth) + 1)%float;
               binWidth := binWidth;
               isCountBy := None;
               minValue := bottomVal; maxValue := topVal |}).

(** [histogram(attribute, binning, goalNumberOfBins, indices, type,
    dataType)] on the column's values and its aggregation object. *)
Definition histogram (aggregations : ColumnAggregation) (binning : option Binning)
    (goalNumberOfBins : option float) (indices : list nat)
    : ColumnAggregation * Outcome :=
  let values := values aggregations in
  let '(aggregations, numValues) :=
    getAggregationByType agg_countDistinct (run_distinct NumberToString) aggregations in
  if bool_decide (numValues = Some 0) then (aggregations, NoData)
  else
    let '(aggregations, binning) :=
      match binning with
      | Some b => (aggregations, Some b)
      | None =>
          calculateBinning aggregations
            (from_option of_nat nan numValues) goalNumberOfBins
      end in
    match binning with
    | None => (aggregations, Threw)
    | Some binning =>
        let min := minValue binning in
        let max := maxValue binning in
        let '(numBins, binWidth, topVal, bottomVal) :=
          if (max =? min)%float then (1%float, 1%float, (min + 1)%float, min)
          else (numBins binning, binWidth binning, max, min) in
        let type := if default false (isCountBy binning)
                    then countBy else histogramType in
        match array_length numBins with
        | None => (aggregations, Threw)
        | Some length =>
            if (numBins =? 1)%float then
              (aggregations,
               Result {| h_type := type; h_numBins := numBins;
                         h_binWidth := binWidth; h_numValues := numValues;
                         h_maxValue := topVal; h_minValue := bottomVal;
                         h_bins := {[ 0%Z := Count (default 0 numValues) ]};
                         h_binValues :=
                           if default false (isCountBy binning)
                           then Some {[ 0%Z := Num min ]} else None |})
            else
              let zeros : gmap Z count :=
                list_to_map ((λ i, (Z.of_nat i, Count 0)) <$> seq 0 length) in
              let '(bins, binValues) :=
                foldl (histogram_step values bottomVal binWidth)
                      (zeros, ∅) indices in
              (aggregations,
               Result {| h_type := type; h_numBins := numBins;
                         h_binWidth := binWidth; h_numValues := numValues;
                         h_maxValue := topVal; h_minValue := bottomVal;
                         h_bins := bins; h_binValues := Some binValues |})
        end
    end.

End Binning.

End Histogram.

(** ** Edge counts per point *)

Module Degree.

(** The sources of the edges of an edge array, edge by edge; the number of
    edges that leave the point [p]; and the number of edges that leave a
    point below [p]. *)
Definition sources (edges : list nat) : list (option nat) :=
  (λ i, edges !! (i * 2)) <$> seq 0 (length edges / 2).

Definition out_degree (edges : list nat) (p : nat) : nat :=
  length (filter (λ s, s = Some p) (sources edges)).

Definition edges_below (edges : list nat) (p : nat) : nat :=
  sum_list (out_degree edges <$> seq 0 p).

End Degree.

(** ** Limits of [composeMasks] *)

Module Limited.

Import Compose.

(** What a limit leaves of an ascending list of indices: the limit is
    tested after each index of the loop, so a limit of [0] still lets the
    index [0] in. *)
Definition limited (lim : limit) (l : list nat) : list nat :=
  match lim with
  | Infinity => l
  | Finite 0 => filter (λ i, i = 0) (take 1 l)
  | Finite n => take n l
  end.

End Limited.

(** ** Property reads on plain objects *)

Module PlainObject.

(** What reading [o[k]] on a plain object finds: the value of its own key
    [k], a member of [Object.prototype] that every plain object answers
    to, or [undefined]. *)
Inductive property (A : Type) :=
  | Own (a : A)
  | Inherited
  | Missing.
Arguments Own {A} a.
Arguments Inherited {A}.
Arguments Missing {A}.

(** [o[k]], with the platform's list of inherited names given by
    [inherited]. *)
Definition get {A : Type} (inherited : string → bool) (o : gmap string A)
    (k : string) : property A :=
  match o !! k with
  | Some a => Own a
  | None => if inherited k then Inherited else Missing
  end.

(** The members of [Object.prototype] in an ES5 engine. *)
Definition es5_inherited (k : string) : bool :=
  bool_decide (k ∈ ["constructor"; "hasOwnProperty"; "isPrototypeOf";
                    "propertyIsEnumerable"; "toLocaleString"; "toString";
                    "valueOf"; "__proto__"; "__defineGetter__";
                    "__defineSetter__"; "__lookupGetter__";
                    "__lookupSetter__"]).

End PlainObject.

(** ** Attribute masks: [getMaskForPredicateOnAttributeValues],
    [getPointAttributeMask], [getEdgeAttributeMask] *)

Module Query.

Import Edges PlainObject.

Section Query.

(** The values of a column; what the filter function returns is read as a
    boolean. [inherited] tells the names every plain object answers to. *)
Context {V : Type}.
Variable inherited : string → bool.

(** [getMaskForPredicateOnAttributeValues(attributeValues, filterFunc)];
    a falsy [filterFunc] is [None]. *)
Definition getMaskForPredicateOnAttributeValues (attributeValues : list V)
    (filterFunc : option (V → bool)) : list nat :=
  match filterFunc with
  | Some filterFunc =>
      foldl (λ mask '(idx, val), if filterFunc val then mask ++ [idx] else mask)
            [] (zip (seq 0 (length attributeValues)) attributeValues)
  | None => []
  end.

(** The part of the dataframe the attribute masks read: the raw columns'
    values by name, and the raw forward encapsulation. *)
Record Dataframe := {
  rawdata_attributes_point : gmap string (list V);
  rawdata_attributes_edge : gmap string (list V);
  rawdata_forwardsEdges : option Encapsulation
}.

(** [attr.values] for [attr = attributes[columnName]], as the list
    [_.each] visits: an inherited member has no [values] and [_.each]
    visits nothing; reading [values] of [undefined] throws. *)
Definition attr_values (attributes : gmap string (list V)) (columnName : string)
    : string + list V :=
  match get inherited attributes columnName with
  | Own values => inr values
  | Inherited => inr []
  | Missing => inl "TypeError"
  end.

(** [getPointAttributeMask(columnName, filterFunc)]. *)
Definition getPointAttributeMask (df : Dataframe) (columnName : string)
    (filterFunc : option (V → bool)) : string + list nat :=
  match attr_values (rawdata_attributes_point df) columnName with
  | inr values => inr (getMaskForPredicateOnAttributeValues values filterFunc)
  | inl e => inl e
  end.

(** [getEdgeAttributeMask(columnName, filterFunc)]: each index of the mask
    is replaced by the entry of [edgePermutation] there, [undefined]
    ([None]) past its end. *)
Definition getEdgeAttributeMask (df : Dataframe) (columnName : string)
    (filterFunc : option (V → bool)) : string + list (option nat) :=
  match attr_values (rawdata_attributes_edge df) columnName with
  | inr values =>
      let edgeMask := getMaskForPredicateOnAttributeValues values filterFunc in
      match rawdata_forwardsEdges df with
      | Some forwardsEdges =>
          let map := edgePermutation forwardsEdges in
          inr ((λ i, map !! i) <$> edgeMask)
      | None => inl "TypeError"
      end
  | inl e => inl e
  end.

End Query.

End Query.

(** ** Loaders: [loadDegrees], [loadLocalBuffer] *)

Module Load.

Import Edges.

Section Degrees.

(** The values of columns, with the numbers among them. *)
Context {V : Type}.
Variable number : Z → V.

Record Column := { values : list V; name : string; type : string }.

(** [loadDegrees(outDegrees, inDegrees)]: [numElements] is
    [rawdata.numElements.point] ([None] when not set), [attributes] is
    [rawdata.attributes.point]; the new point columns are returned.  The
    degrees are entries of [Uint32Array]s, their sums are exact. *)
Definition loadDegrees (numElements : option nat) (attributes : gmap string Column)
    (outDegrees inDegrees : list Z) : gmap string Column :=
  if bool_decide (numElements ≠ Some (length outDegrees) ∨
                  numElements ≠ Some (length inDegrees))
  then attributes
  else
    let indices := seq 0 (default 0 numElements) in
    let degree_in := (λ i, TypedArray.num (inDegrees !! i)) <$> indices in
    let degree_out := (λ i, TypedArray.num (outDegrees !! i)) <$> indices in
    let degree :=
      (λ i, TypedArray.num (inDegrees !! i) + TypedArray.num (outDegrees !! i))%Z
        <$> indices in
    <["degree_out" := {| values := number <$> degree_out;
                         name := "degree_out"; type := "number" |}]>
      (<["degree_in" := {| values := number <$> degree_in;
                           name := "degree_in"; type := "number" |}]>
         (<["degree" := {| values := number <$> degree;
                           name := "degree"; type := "number" |}]> attributes)).

End Degrees.

Section LocalBuffers.

(** The entries of a local buffer, a typed array: [fill] is what a new
    array is filled with, [undef] what a store of [undefined] leaves ([0]
    both in an integer array; [0] and [NaN] in a float array). *)
Context {A : Type}.
Variables (fill undef : A).

(** The loop of [loadLocalBuffer]: for [i < buffer.length / 2],
    [sortedBuffer[i*2] = buffer[permutation[i]*2]] and
    [sortedBuffer[i*2 + 1] = buffer[permutation[i]*2 + 1]]. *)
Definition sort_pairs (permutation : list nat) (buffer : list A) : list A :=
  foldl (λ sortedBuffer i,
           <[i * 2 + 1 :=
               default undef (permutation !! i ≫= λ u, buffer !! (u * 2 + 1))]>
             (<[i * 2 :=
                  default undef (permutation !! i ≫= λ u, buffer !! (u * 2))]>
                sortedBuffer))
        (replicate (length buffer) fill)
        (seq 0 ((length buffer + 1) / 2)).

(** [loadLocalBuffer(name, buffer)]: [forwardsEdges] is
    [rawdata.hostBuffers.forwardsEdges], [localBuffers] is
    [rawdata.localBuffers]; the new local buffers are returned, or the
    error of reading the permutation of a missing encapsulation. *)
Definition loadLocalBuffer (forwardsEdges : option Encapsulation)
    (localBuffers : gmap string (list A)) (name : string) (buffer : list A)
    : string + gmap string (list A) :=
  if bool_decide (name = "edgeColors" ∨ name = "edgeHeights") then
    match forwardsEdges with
    | Some forwardsEdges =>
        let permutation := edgePermutationInverseTyped forwardsEdges in
        inr (<[name := sort_pairs permutation buffer]> localBuffers)
    | None => inl "TypeError"
    end
  else inr (<[name := buffer]> localBuffers).

End LocalBuffers.

End Load.

(** ** Column values and orphans: [getColumnValues], [getHostBuffer],
    [pruneOrphans] *)

Module Columns.

Import Mask Edges PlainObject.

(** Modelled from the spec: [DataframeMask.js] is not among the sources.
    [mapIndexes(componentType, fn)] dispatches to the traversal of the
    component type. *)
Definition mapIndexes (numPoints numEdges : nat) (type : ComponentType)
    (m : DataframeMask) : list nat :=
  match type with
  | Point => mapPointIndexes numPoints m
  | Edge => mapEdgeIndexes numEdges m
  end.

Section Columns.

(** The values columns hold and the targets they name; [undefined] is what
    a read past the end of an array gives, [is_zero v] says that [v] is
    the number [0], [inherited] tells the names every plain object answers
    to. *)
Context {V T : Type}.
Variable undefined : V.
Variable is_zero : V → bool.
Variable inherited : string → bool.

Record Column := {
  values : list V;
  type : string;
  target : T
}.

(** The part of a [DataframeData] read here. *)
Record DataframeData := {
  attributes_point : gmap string Column;
  attributes_edge : gmap string Column;
  forwardsEdges : option Encapsulation;
  backwardsEdges : option Encapsulation
}.

(** The dataframe: the raw element counts, the raw view, the filtered view
    ([None] while [this.data] still is the object [this.rawdata]) and
    [this.lastMasks]. *)
Record Dataframe := {
  numElements_point : nat;
  numElements_edge : nat;
  rawdata : DataframeData;
  data : option DataframeData;
  lastMasks : DataframeMask
}.

Definition attributes (d : DataframeData) (type : ComponentType)
    : gmap string Column :=
  match type with
  | Point => attributes_point d
  | Edge => attributes_edge d
  end.

(** [d.attributes[type][columnName] = column]. *)
Definition set_column (d : DataframeData) (type : ComponentType)
    (columnName : string) (column : Column) : DataframeData :=
  match type with
  | Point =>
      {| attributes_point := <[columnName := column]> (attributes_point d);
         attributes_edge := attributes_edge d;
         forwardsEdges := forwardsEdges d; backwardsEdges := backwardsEdges d |}
  | Edge =>
      {| attributes_point := attributes_point d;
         attributes_edge := <[columnName := column]> (attributes_edge d);
         forwardsEdges := forwardsEdges d; backwardsEdges := backwardsEdges d |}
  end.

(** [getColumnValues(columnName, type)]: the dataframe after the call and
    the values, or the error of reading a column that the raw view does
    not have. Under an inherited name the view answers with a member of
    [Object.prototype], which is truthy and has no [values]: the call
    returns [undefined] ([None]). Past that test the name is not an
    inherited one, and the raw view is read for its own key. *)
Definition getColumnValues (df : Dataframe) (columnName : string)
    (type : ComponentType) : string + Dataframe * option (list V) :=
  let view := default (rawdata df) (data df) in
  match get inherited (attributes view type) columnName with
  | Own column => inr (df, Some (values column))
  | Inherited => inr (df, None)
  | Missing =>
      match attributes (rawdata df) type !! columnName with
      | Some raw =>
          let newValues :=
            (λ idx, default undefined (values raw !! idx))
              <$> mapIndexes (numElements_point df) (numElements_edge df) type
                             (lastMasks df) in
          let column := {| values := newValues; type := Columns.type raw;
                           target := target raw |} in
          inr ({| numElements_point := numElements_point df;
                  numElements_edge := numElements_edge df;
                  rawdata := match data df with
                             | Some _ => rawdata df
                             | None => set_column (rawdata df) type columnName column
                             end;
                  data := (λ d, set_column d type columnName column) <$> data df;
                  lastMasks := lastMasks df |},
               Some newValues)
      | None => inl "TypeError"
      end
  end.

(** [getHostBuffer(name)] for the two encapsulations. *)
Definition getHostBuffer (df : Dataframe) (name : string)
    (buffer : DataframeData → option Encapsulation) : string + Encapsulation :=
  match buffer (default (rawdata df) (data df)) with
  | Some res => inr res
  | None => inl ("Invalid Host Buffer: " +:+ name)
  end.

(** [pruneOrphans(baseMask)]; indexing a degree column that is
    [undefined] throws at the first point visited. *)
Definition pruneOrphans (df : Dataframe) (baseMask : DataframeMask)
    : string + Dataframe * DataframeMask :=
  if numPoints (numElements_point df) baseMask =? numElements_point df then
    match getColumnValues df "degree" Point with
    | inr (df, Some degreeColumn) =>
        let resultPointMask :=
          foldl (λ resultPointMask pointIdx,
                   if match degreeColumn !! pointIdx with
                      | Some v => negb (is_zero v)
                      | None => true
                      end
                   then resultPointMask ++ [pointIdx] else resultPointMask)
                [] (mapPointIndexes (numElements_point df) baseMask) in
        inr (df, {| point := Some resultPointMask; edge := edge baseMask |})
    | inr (df, None) =>
        match mapPointIndexes (numElements_point df) baseMask with
        | [] => inr (df, {| point := Some []; edge := edge baseMask |})
        | _ :: _ => inl "TypeError"
        end
    | inl e => inl e
    end
  else
    match getHostBuffer df "forwardsEdges" forwardsEdges with
    | inr fe =>
        match getHostBuffer df "backwardsEdges" backwardsEdges with
        | inr be =>
            let degreeOutTyped := degreesTyped fe in
            let degreeInTyped := degreesTyped be in
            if negb (length degreeInTyped =? numPoints (numElements_point df) baseMask)
            then inl "Mismatched buffer lengths"
            else
              let points := mapPointIndexes (numElements_point df) baseMask in
              let resultPointMask :=
                foldl (λ resultPointMask '(idx, pointIdx),
                         if negb (bool_decide (degreeInTyped !! idx = Some 0%Z))
                            || negb (bool_decide (degreeOutTyped !! idx = Some 0%Z))
                         then resultPointMask ++ [pointIdx] else resultPointMask)
                      [] (zip (seq 0 (length points)) points) in
              inr (df, {| point := Some resultPointMask; edge := edge baseMask |})
        | inl e => inl e
        end
    | inl e => inl e
    end.

End Columns.

End Columns.

(** ** Column names: [normalizeAttributeName], [getKeyFromName] *)

Module Names.

Import PlainObject.

(** The character [:]. *)
Definition colon : Ascii.ascii := Ascii.ascii_of_nat 58.

(** [s.lastIndexOf(c)]; [None] is [-1]. *)
Fixpoint lastIndexOf (c : Ascii.ascii) (s : string) : option nat :=
  match s with
  | EmptyString => None
  | String a s' =>
      match lastIndexOf c s' with
      | Some i => Some (S i)
      | None => if Ascii.eqb a c then Some 0 else None
      end
  end.

Section Names.

(** [inherited] tells the names every plain object answers to, the
    members of [Object.prototype]; [member_answers t k] tells whether the
    member under the name [t] answers to [k] in turn. *)
Variable inherited : string → bool.
Variable member_answers : string → string → bool.

(** An attribute object as its keys in the order [_.keys] lists them, each
    with the [name] of its column ([None]: the column has no name); a
    dataframe as the attribute objects of its raw and filtered views, by
    component type. *)
Record Dataframe := {
  rawdata_attributes : gmap string (list (string * option string));
  data_attributes : gmap string (list (string * option string))
}.

Record ColumnName := {
  attribute : option string;
  type : string
}.

(** The property key an [undefined] name is read as. *)
Definition property_key (maybeName : option string) : string :=
  default "undefined" maybeName.

(** [getKeyFromName(maybeName, type)] for a given [type]. [_.keys] lists
    nothing for [undefined] and for a member of [Object.prototype]. *)
Definition getKeyFromName_of_type (df : Dataframe) (maybeName : option string)
    (type : string) : string + option ColumnName :=
  let attributes := match get inherited (rawdata_attributes df) type with
                    | Own attributes => attributes
                    | Inherited | Missing => []
                    end in
  let matchKeys := filter (λ kv, kv.2 = maybeName) attributes in
  match matchKeys with
  | (key, _) :: _ => inr (Some {| attribute := Some key; type := type |})
  | [] =>
      match get inherited (data_attributes df) type with
      | Own attributes =>
          if bool_decide (property_key maybeName ∈ attributes.*1)
             || inherited (property_key maybeName)
          then inr (Some {| attribute := maybeName; type := type |})
          else inr None
      | Inherited =>
          if member_answers type (property_key maybeName)
          then inr (Some {| attribute := maybeName; type := type |})
          else inr None
      | Missing => inl "TypeError"
      end
  end.

(** [getKeyFromName(maybeName, type)]; an [undefined] type tries ['point'],
    then ['edge']. *)
Definition getKeyFromName (df : Dataframe) (maybeName : option string)
    (type : option string) : string + option ColumnName :=
  match type with
  | Some type => getKeyFromName_of_type df maybeName type
  | None =>
      match getKeyFromName_of_type df maybeName "point" with
      | inr None => getKeyFromName_of_type df maybeName "edge"
      | found => found
      end
  end.

(** [normalizeAttributeName(columnName, type)]. *)
Definition normalizeAttributeName (df : Dataframe) (columnName : option string)
    (type : option string) : string + option ColumnName :=
  let idx := match columnName with
             | Some s => if bool_decide (s = "") then None else lastIndexOf colon s
             | None => None
             end in
  match idx, columnName with
  | Some idx, Some s =>
      getKeyFromName df
        (Some (String.substring (idx + 1) (String.length s - (idx + 1)) s))
        (Some (String.substring 0 idx s))
  | _, _ => getKeyFromName df columnName type
  end.

End Names.

End Names.

(** ** Unfiltered column values: [sortEdgeColumnValues],
    [mapUnfilteredColumnValues], [getUnfilteredColumnValues] *)

Module Unfiltered.

Import Mask Edges PlainObject Query.

Section Unfiltered.

(** The values of a column; [undefined] is what a read past the end of an
    array gives, [inherited] tells the names every plain object answers
    to. *)
Context {V : Type}.
Variable undefined : V.
Variable inherited : string → bool.

(** The loop of [sortEdgeColumnValues], on the array itself:
    [values[i] = values[map[i]]] for [i < values.length]. *)
Definition sort_in_place (map : list nat) (values : list V) : list V :=
  foldl (λ values i,
           <[i := default undefined (map !! i ≫= λ j, values !! j)]> values)
        values (seq 0 (length values)).

(** [sortEdgeColumnValues(type, values)]: the array after the call. *)
Definition sortEdgeColumnValues (df : Dataframe (V:=V)) (type : ComponentType)
    (values : list V) : string + list V :=
  match type with
  | Edge =>
      match rawdata_forwardsEdges df with
      | Some forwardsEdges => inr (sort_in_place (edgePermutation forwardsEdges) values)
      | None => inl "TypeError"
      end
  | Point => inr values
  end.

Definition attributes (df : Dataframe (V:=V)) (type : ComponentType)
    : gmap string (list V) :=
  match type with
  | Point => rawdata_attributes_point df
  | Edge => rawdata_attributes_edge df
  end.

(** The dataframe after the array of a raw column has been written to. *)
Definition set_values (df : Dataframe (V:=V)) (type : ComponentType)
    (columnName : string) (values : list V) : Dataframe (V:=V) :=
  match type with
  | Point =>
      {| rawdata_attributes_point := <[columnName := values]> (rawdata_attributes_point df);
         rawdata_attributes_edge := rawdata_attributes_edge df;
         rawdata_forwardsEdges := rawdata_forwardsEdges df |}
  | Edge =>
      {| rawdata_attributes_point := rawdata_attributes_point df;
         rawdata_attributes_edge := <[columnName := values]> (rawdata_attributes_edge df);
         rawdata_forwardsEdges := rawdata_forwardsEdges df |}
  end.

(** [mapUnfilteredColumnValues(type, columnName, func)]: the dataframe
    after the call and the result ([None]: [undefined]).  Without [func]
    the result is the array of the raw column itself, and the sorting
    writes to that array; [_.map] makes a new array, calling
    [func(value, index)], and makes the empty array of the missing
    [values] of an inherited member.  Sorting the edge values of an
    [undefined] result throws. *)
Definition mapUnfilteredColumnValues (df : Dataframe (V:=V)) (type : ComponentType)
    (columnName : string) (func : option (V → nat → V))
    : string + Dataframe (V:=V) * option (list V) :=
  match get inherited (attributes df type) columnName with
  | Own values =>
      match func with
      | None =>
          match sortEdgeColumnValues df type values with
          | inr results => inr (set_values df type columnName results, Some results)
          | inl e => inl e
          end
      | Some func =>
          match sortEdgeColumnValues df type (imap (λ i v, func v i) values) with
          | inr results => inr (df, Some results)
          | inl e => inl e
          end
      end
  | Inherited =>
      match func with
      | None =>
          match type with
          | Point => inr (df, None)
          | Edge => inl "TypeError"
          end
      | Some _ =>
          match sortEdgeColumnValues df type [] with
          | inr results => inr (df, Some results)
          | inl e => inl e
          end
      end
  | Missing => inl "TypeError"
  end.

(** [getUnfilteredColumnValues(type, columnName)]. *)
Definition getUnfilteredColumnValues (df : Dataframe (V:=V)) (type : ComponentType)
    (columnName : string) : string + Dataframe (V:=V) * option (list V) :=
  mapUnfilteredColumnValues df type columnName None.

End Unfiltered.

End Unfiltered.

(** ** [minMaxGenericAggregations] *)

Module MinMax.

Import Number Agg.

(** [updateAggregationTo('minValue', ...)] and
    [updateAggregationTo('maxValue', ...)]. *)
Definition set_min_max (minValue maxValue : nullable) (ca : ColumnAggregation)
    : ColumnAggregation :=
  updateAggregations
    (λ a, {| agg_count := agg_count a;
             agg_countDistinct := agg_countDistinct a;
             agg_distinctValues := agg_distinctValues a;
             agg_maxValue := Some maxValue; agg_minValue := Some minValue;
             agg_sum := agg_sum a; agg_averageValue := agg_averageValue a;
             agg_jsType := agg_jsType a; agg_dataType := agg_dataType a;
             agg_isNumeric := agg_isNumeric a; agg_isIntegral := agg_isIntegral a;
             agg_isContinuous := agg_isContinuous a;
             agg_isQuantitative := agg_isQuantitative a;
             agg_isOrdered := agg_isOrdered a;
             agg_isCategorical := agg_isCategorical a |}) ca.

(** [minMaxGenericAggregations] on a column of numbers: the data type
    inferred for such a column is never ['string'], so the comparison is
    the default one, [a < b]. *)
Definition minMaxGenericAggregations (ca : ColumnAggregation) : ColumnAggregation :=
  let '(ca, numValues) := getAggregationByType agg_count run_count ca in
  let '(ca, _) := getAggregationByType agg_dataType inferDataType ca in
  let '(minValue, maxValue) :=
    foldl generic_step (None, None) (scanned ca numValues) in
  set_min_max (from_null minValue) (from_null maxValue) ca.

End MinMax.

(** ** [inferDivergence] *)

Module Divergence.

Import Number Agg.

(** The summary [inferDivergence] merges into [this.aggregations]. *)
Record Summary := {
  hasPositive : bool;
  hasNegative : bool;
  isDiverging : bool
}.

(** [inferDivergence()]: the aggregation object after the statistics have
    been read, and the summary it is extended with.  [isNumeric && x] is
    [x] for a numeric column and falsy otherwise; [null] and [undefined]
    compare as the numbers they convert to. *)
Definition inferDivergence (ca : ColumnAggregation) : ColumnAggregation * Summary :=
  let '(ca, isNumeric) := getAggregationByType agg_isNumeric inferDataType ca in
  let isNumeric := default false isNumeric in
  let '(ca, hasNegative) :=
    if isNumeric then
      let '(ca, minValue) := getAggregationByType agg_minValue run_numeric ca in
      (ca, (ToNumber minValue <? 0)%float)
    else (ca, false) in
  let '(ca, hasPositive) :=
    if isNumeric then
      let '(ca, maxValue) := getAggregationByType agg_maxValue run_numeric ca in
      (ca, (0 <? ToNumber maxValue)%float)
    else (ca, false) in
  (ca, {| hasPositive := hasPositive;
          hasNegative := hasNegative;
          isDiverging := hasNegative && hasPositive |}).

End Divergence.

(** * Part II: theorems *)

Module EdgesFacts.

Import TypedArray Edges.

Lemma ToInt32_small z : (0 <= z < 2 ^ 31)%Z → ToInt32 z = z.
Proof.
  intros Hz. unfold ToInt32.
  rewrite Z.mod_small by lia.
  destruct (z <? 2 ^ 31)%Z eqn:E; [done|].
  apply Z.ltb_ge in E. lia.
Qed.

Lemma ToUint32_small z : (0 <= z < 2 ^ 32)%Z → ToUint32 z = z.
Proof. intros Hz. unfold ToUint32. apply Z.mod_small. lia. Qed.

(** *** Insertion sort meets the contract of [sort] *)

Lemma insert_sorted_perm cmp x l : insert_sorted cmp x l ≡ₚ x :: l.
Proof.
  induction l as [|y l IH]; simpl; [done|].
  destruct (cmp x y <=? 0)%Z; [done|].
  rewrite IH. apply Permutation_swap.
Qed.

Lemma insertion_sort_perm cmp l : insertion_sort cmp l ≡ₚ l.
Proof.
  induction l as [|x l IH]; simpl; [done|].
  fold (insertion_sort cmp l). by rewrite insert_sorted_perm, IH.
Qed.

Lemma insert_sorted_sorted cmp dom x l :
  consistent_on cmp dom → x ∈ dom → l ⊆ dom →
  StronglySorted (λ a b, (cmp a b <= 0)%Z) l →
  StronglySorted (λ a b, (cmp a b <= 0)%Z) (insert_sorted cmp x l).
Proof.
  intros [Htot Htrans] Hx. induction l as [|y l IH]; intros Hsub Hs; simpl.
  - repeat constructor.
  - apply StronglySorted_cons in Hs as [Hy Hl].
    assert (y ∈ dom) as Hyd by (apply Hsub; left).
    assert (l ⊆ dom) as Hld by (intros z Hz; apply Hsub; by right).
    destruct (cmp x y <=? 0)%Z eqn:E.
    + apply Z.leb_le in E. apply StronglySorted_cons. split.
      * constructor; [done|]. rewrite Forall_forall in Hy |- *.
        intros z Hz. apply (Htrans x y z); auto.
      * apply StronglySorted_cons. done.
    + apply Z.leb_gt in E. apply StronglySorted_cons. split.
      * rewrite Forall_forall. intros z Hz.
        rewrite insert_sorted_perm in Hz. apply elem_of_cons in Hz as [->|Hz].
        -- apply Htot; auto.
        -- rewrite Forall_forall in Hy. auto.
      * apply IH; auto.
Qed.

Lemma insertion_sort_contract : sort_contract insertion_sort.
Proof.
  intros cmp l. split; [apply insertion_sort_perm|].
  intros Hc. assert (l ⊆ l) as Hsub by done.
  revert Hsub. generalize l at 1 3 as k.
  induction k as [|x k IH]; intros Hsub; simpl; [constructor|].
  fold (insertion_sort cmp k).
  apply (insert_sorted_sorted cmp l); auto.
  - apply Hsub. left.
  - intros z Hz. rewrite insertion_sort_perm in Hz. apply Hsub. by right.
  - apply IH. intros z Hz. apply Hsub. by right.
Qed.

(** *** The inverse permutation *)

Lemma invert_snoc l x size :
  invert (l ++ [x]) size = <[x := length l]> (invert l size).
Proof.
  unfold invert. rewrite length_app. simpl.
  rewrite Nat.add_1_r, seq_S. simpl.
  rewrite zip_with_app by (by rewrite length_seq).
  by rewrite foldl_app.
Qed.

Lemma invert_length inverse size : length (invert inverse size) = size.
Proof.
  induction inverse as [|x l IH] using rev_ind.
  - unfold invert. simpl. apply length_replicate.
  - by rewrite invert_snoc, length_insert.
Qed.

Lemma invert_lookup inverse size i u :
  NoDup inverse → (∀ v, v ∈ inverse → v < size) →
  inverse !! i = Some u → invert inverse size !! u = Some i.
Proof.
  revert i u. induction inverse as [|x l IH] using rev_ind; intros i u Hnd Hlt Hi.
  - done.
  - rewrite invert_snoc.
    apply NoDup_app in Hnd as (Hndl & Hdisj & _).
    destruct (decide (i < length l)) as [Hil|Hil].
    + rewrite lookup_app_l in Hi by done.
      assert (u ∈ l) as Hul by (by eapply list_elem_of_lookup_2).
      rewrite list_lookup_insert_ne.
      * apply IH; auto. intros v Hv. apply Hlt. apply elem_of_app. by left.
      * intros ->. apply (Hdisj u Hul). by left.
    + assert (i = length l) as ->.
      { apply lookup_lt_Some in Hi. rewrite length_app in Hi. simpl in Hi. lia. }
      rewrite list_lookup_middle in Hi by done. injection Hi as ->.
      apply list_lookup_insert_eq. rewrite invert_length.
      apply Hlt. apply elem_of_app. right. by left.
Qed.

(** *** The copy of the sorted edges *)

Lemma copy_edge_length edges mapped out i :
  length (copy_edge edges mapped out i) = length out.
Proof.
  unfold copy_edge. destruct (mapped !! i); [|done].
  destruct (edges !! _); [|done]. destruct (edges !! _); [|done].
  by rewrite !length_insert.
Qed.

Lemma copy_loop edges mapped n k :
  length edges = n * 2 → k ≤ n → k ≤ length mapped →
  (∀ v, v ∈ mapped → v < n) →
  length (foldl (copy_edge edges mapped) (replicate (length edges) 0) (seq 0 k))
    = length edges ∧
  ∀ i idx, i < k → mapped !! i = Some idx →
    foldl (copy_edge edges mapped) (replicate (length edges) 0) (seq 0 k) !! (i * 2)
      = edges !! (idx * 2) ∧
    foldl (copy_edge edges mapped) (replicate (length edges) 0) (seq 0 k) !! (i * 2 + 1)
      = edges !! (idx * 2 + 1).
Proof.
  intros Hlen. induction k as [|k IH]; intros Hk Hm Hlt.
  - split; [apply length_replicate|]. intros; lia.
  - rewrite seq_S, foldl_app. simpl.
    destruct IH as [IHlen IHl]; [lia|lia|done|].
    set (out := foldl _ _ (seq 0 k)) in *.
    split; [by rewrite copy_edge_length|].
    intros i idx Hi Hidx. unfold copy_edge.
    destruct (mapped !! k) as [ik|] eqn:Hik;
      [|apply lookup_ge_None in Hik; lia].
    assert (ik < n) as Hikn by (apply Hlt; by eapply list_elem_of_lookup_2).
    destruct (lookup_lt_is_Some_2 edges (ik * 2)) as [s Hs]; [lia|].
    destruct (lookup_lt_is_Some_2 edges (ik * 2 + 1)) as [d Hd]; [lia|].
    rewrite Hs, Hd.
    destruct (decide (i = k)) as [->|Hne].
    + assert (idx = ik) as -> by congruence.
      rewrite list_lookup_insert_ne by lia.
      rewrite !list_lookup_insert_eq by (rewrite ?length_insert; lia).
      done.
    + rewrite !list_lookup_insert_ne by lia. apply IHl; [lia|done].
Qed.

(** *** The scan of [computeWorkItemsTyped] *)

Lemma count_run_spec E n i fuel count pos :
  pos ≤ n → n - pos ≤ fuel →
  ∃ c, count_run fuel E n i count pos = (count + c, pos + c) ∧ pos + c ≤ n ∧
    (∀ p, pos ≤ p < pos + c → E !! (p * 2) = Some i) ∧
    (pos + c < n → E !! ((pos + c) * 2) ≠ Some i).
Proof.
  revert count pos. induction fuel as [|fuel IH]; intros count pos Hp Hf; simpl.
  - exists 0. rewrite !Nat.add_0_r. split; [done|]. split; [lia|].
    split; intros; lia.
  - destruct (pos <? n) eqn:Hlt; simpl.
    + apply Nat.ltb_lt in Hlt. case_bool_decide as Hs.
      * destruct (IH (S count) (S pos)) as (c & Hc & Hle & Hall & Hstop); [lia|lia|].
        exists (S c). rewrite Hc. split; [f_equal; lia|]. split; [lia|]. split.
        -- intros p Hp'. destruct (decide (p = pos)) as [->|]; [done|].
           apply Hall. lia.
        -- replace (pos + S c) with (S pos + c) by lia. done.
      * exists 0. rewrite !Nat.add_0_r. split; [done|]. split; [lia|].
        split; [intros; lia|done].
    + apply Nat.ltb_ge in Hlt. exists 0. rewrite !Nat.add_0_r.
      split; [done|]. split; [lia|]. split; intros; lia.
Qed.

Lemma src_sorted_above E n k pos :
  length E = n * 2 → src_sorted E →
  (∀ p s, pos ≤ p → E !! (p * 2) = Some s → k ≤ s) →
  (pos < n → E !! (pos * 2) ≠ Some k) →
  ∀ p s, pos ≤ p → E !! (p * 2) = Some s → S k ≤ s.
Proof.
  intros HE Hsorted Hhigh Hstop p s Hp Hs.
  assert (p < n) as Hpn by (apply lookup_lt_Some in Hs; lia).
  destruct (lookup_lt_is_Some_2 E (pos * 2)) as [t Ht]; [lia|].
  pose proof (Hhigh pos t (Nat.le_refl _) Ht).
  pose proof (Hsorted pos p t s Hp Ht Hs).
  assert (t ≠ k) by (intros ->; apply Hstop; [lia|done]).
  lia.
Qed.

Lemma workItem_step_inv E n numPoints k st cs :
  length E = n * 2 → src_sorted E →
  (Z.of_nat n < 2 ^ 31)%Z → (Z.of_nat numPoints < 2 ^ 31)%Z →
  k < numPoints →
  work_inv E n numPoints k st cs →
  ∃ c, work_inv E n numPoints (S k) (workItem_step E n st k) (cs ++ [c]).
Proof.
  intros HE Hsorted Hn Hnp Hk (Hpos & Hlow & Hhigh & Hsrc & Hlen & Hcs & Hsum & Hitems).
  unfold workItem_step. case_bool_decide as Hlast.
  - destruct (decide (ws_lastPos st < n)) as [Hlt|Hge]; [|by destruct (Hsrc k)].
    rewrite Hlast in Hsrc.
    destruct (count_run_spec E n k n 0 (ws_lastPos st))
      as (c & Hrun & Hle & Hall & Hstop); [lia|lia|].
    rewrite Hrun. simpl (0 + c). exists c.
    unfold work_inv; simpl.
    split; [done|]. split.
    { intros p s Hp Hs. destruct (decide (p < ws_lastPos st)) as [Hlp|Hlp].
      - pose proof (Hlow p s Hlp Hs). lia.
      - rewrite Hall in Hs by lia. injection Hs as <-. lia. }
    split.
    { apply (src_sorted_above E n); auto. intros p s Hp. apply Hhigh. lia. }
    split.
    { case_decide as Hd.
      - apply Nat.ltb_lt in Hd. by rewrite Hd.
      - apply Nat.ltb_nlt in Hd. rewrite Hd. intros i Hi. injection Hi. lia. }
    split; [by rewrite !length_insert|].
    split; [rewrite length_app; simpl; lia|].
    split; [rewrite sum_list_with_app; simpl; lia|].
    intros j c' Hj.
    destruct (decide (j < k)) as [Hjk|Hjk].
    + rewrite lookup_app_l in Hj by lia.
      rewrite !list_lookup_insert_ne by lia. by apply Hitems.
    + assert (j = k) as ->.
      { apply lookup_lt_Some in Hj. rewrite length_app in Hj. simpl in Hj. lia. }
      rewrite <- Hcs in Hj. rewrite list_lookup_middle in Hj by done.
      injection Hj as <-.
      rewrite list_lookup_insert_ne by lia.
      rewrite !list_lookup_insert_eq by (rewrite ?length_insert; lia).
      rewrite !ToInt32_small by lia. done.
  - exists 0. unfold work_inv; simpl.
    split; [done|]. split.
    { intros p s Hp Hs. pose proof (Hlow p s Hp Hs). lia. }
    split.
    { apply (src_sorted_above E n); auto.
      intros Hlt. rewrite decide_True in Hsrc by done.
      intros Heq. apply Hlast. by rewrite Hsrc, Heq. }
    split; [done|].
    split; [by rewrite !length_insert|].
    split; [rewrite length_app; simpl; lia|].
    split; [rewrite sum_list_with_app; simpl; lia|].
    intros j c' Hj.
    destruct (decide (j < k)) as [Hjk|Hjk].
    + rewrite lookup_app_l in Hj by lia.
      rewrite !list_lookup_insert_ne by lia. by apply Hitems.
    + assert (j = k) as ->.
      { apply lookup_lt_Some in Hj. rewrite length_app in Hj. simpl in Hj. lia. }
      rewrite <- Hcs in Hj. rewrite list_lookup_middle in Hj by done.
      injection Hj as <-.
      rewrite list_lookup_insert_ne by lia.
      rewrite !list_lookup_insert_eq by (rewrite ?length_insert; lia).
      rewrite !ToInt32_small by lia. done.
Qed.

Lemma workItems_loop_inv E n numPoints k :
  length E = n * 2 → src_sorted E →
  (Z.of_nat n < 2 ^ 31)%Z → (Z.of_nat numPoints < 2 ^ 31)%Z →
  k ≤ numPoints →
  ∃ cs, work_inv E n numPoints k
          (foldl (workItem_step E n)
                 {| ws_items := replicate (numPoints * 4) 0%Z;
                    ws_lastPos := 0;
                    ws_lastSrc := Z.of_nat <$> E !! 0 |}
                 (seq 0 k)) cs.
Proof.
  intros HE Hsorted Hn Hnp. induction k as [|k IH]; intros Hk.
  - exists []. unfold work_inv; simpl.
    split; [lia|]. split; [intros; lia|]. split; [intros; lia|].
    split.
    { case_decide as Hd; [done|].
      assert (E = []) as -> by (apply length_zero_iff_nil; lia). done. }
    split; [apply length_replicate|]. done.
  - destruct IH as [cs Hinv]; [lia|].
    rewrite seq_S, foldl_app. simpl.
    destruct (workItem_step_inv E n numPoints k _ cs HE Hsorted Hn Hnp Hk Hinv)
      as [c Hc].
    by exists (cs ++ [c]).
Qed.

(** *** The degree table *)

Lemma degrees_loop W numPoints cs k :
  k ≤ numPoints → length cs = numPoints →
  (∀ j c, cs !! j = Some c →
     W !! (j * 4 + 1) = Some (Z.of_nat c) ∧ W !! (j * 4 + 2) = Some (Z.of_nat j)) →
  (∀ c, c ∈ cs → (Z.of_nat c < 2 ^ 32)%Z) →
  length (foldl (degrees_step W) (replicate numPoints 0%Z, replicate numPoints 0%Z)
                (seq 0 k)).2 = numPoints ∧
  ∀ j c, j < k → cs !! j = Some c →
    (foldl (degrees_step W) (replicate numPoints 0%Z, replicate numPoints 0%Z)
           (seq 0 k)).2 !! j = Some (Z.of_nat c).
Proof.
  intros Hk Hcs HW Hbound. induction k as [|k IH].
  - split; [apply length_replicate|]. intros; lia.
  - destruct IH as [IHlen IHl]; [lia|].
    rewrite seq_S, foldl_app. simpl.
    destruct (foldl _ _ (seq 0 k)) as [s2w deg]. simpl in *.
    destruct (lookup_lt_is_Some_2 cs k) as [ck Hck]; [lia|].
    destruct (HW k ck Hck) as [Hcount Hsrc].
    unfold degrees_step. rewrite Hsrc, Hcount. simpl.
    destruct (Z.of_nat k <? 0)%Z eqn:Hneg; [apply Z.ltb_lt in Hneg; lia|].
    rewrite Nat2Z.id. split; [by rewrite length_insert|].
    intros j c Hj Hc. destruct (decide (j = k)) as [->|Hne].
    + rewrite list_lookup_insert_eq by lia.
      assert (c = ck) as -> by congruence.
      rewrite ToUint32_small; [done|].
      pose proof (Hbound ck (list_elem_of_lookup_2 _ _ _ Hck)). lia.
    + rewrite list_lookup_insert_ne by done. apply IHl; [lia|done].
Qed.

Lemma sumZ_of_nat cs : sumZ (Z.of_nat <$> cs) = Z.of_nat (sum_list cs).
Proof.
  induction cs as [|c cs IH]; [done|].
  change (sumZ (Z.of_nat <$> c :: cs))
    with (Z.of_nat c + sumZ (Z.of_nat <$> cs))%Z.
  rewrite IH. simpl. unfold id. lia.
Qed.

(** *** The comparator orders the edges by source *)

Lemma edge_compare_defined edges n a b :
  length edges = n * 2 → a < n → b < n →
  ∃ sa da sb db,
    edges !! (a * 2) = Some sa ∧ edges !! (a * 2 + 1) = Some da ∧
    edges !! (b * 2) = Some sb ∧ edges !! (b * 2 + 1) = Some db ∧
    edge_compare edges a b =
      (if (Z.of_nat sa - Z.of_nat sb =? 0)%Z
       then Z.of_nat da - Z.of_nat db else Z.of_nat sa - Z.of_nat sb)%Z.
Proof.
  intros Hlen Ha Hb.
  destruct (lookup_lt_is_Some_2 edges (a * 2)) as [sa Hsa]; [lia|].
  destruct (lookup_lt_is_Some_2 edges (a * 2 + 1)) as [da Hda]; [lia|].
  destruct (lookup_lt_is_Some_2 edges (b * 2)) as [sb Hsb]; [lia|].
  destruct (lookup_lt_is_Some_2 edges (b * 2 + 1)) as [db Hdb]; [lia|].
  exists sa, da, sb, db. repeat split; try done.
  unfold edge_compare. rewrite Hsa, Hda, Hsb, Hdb. simpl.
  by destruct (_ =? 0)%Z.
Qed.

Lemma edge_compare_consistent edges n :
  length edges = n * 2 → consistent_on (edge_compare edges) (seq 0 n).
Proof.
  intros Hlen. split.
  - intros a b Ha%elem_of_seq Hb%elem_of_seq.
    destruct (edge_compare_defined edges n a b) as (sa&da&sb&db&H1&H2&H3&H4&->);
      [done|lia|lia|].
    destruct (edge_compare_defined edges n b a) as (sb'&db'&sa'&da'&H3'&H4'&H1'&H2'&->);
      [done|lia|lia|].
    simplify_eq.
    destruct (Z.eqb_spec (Z.of_nat sa - Z.of_nat sb) 0);
      destruct (Z.eqb_spec (Z.of_nat sb - Z.of_nat sa) 0); lia.
  - intros a b c Ha%elem_of_seq Hb%elem_of_seq Hc%elem_of_seq.
    destruct (edge_compare_defined edges n a b) as (sa&da&sb&db&H1&H2&H3&H4&->);
      [done|lia|lia|].
    destruct (edge_compare_defined edges n b c) as (sb'&db'&sc&dc&H3'&H4'&H5&H6&->);
      [done|lia|lia|].
    destruct (edge_compare_defined edges n a c) as (sa'&da'&sc'&dc'&H1'&H2'&H5'&H6'&->);
      [done|lia|lia|].
    simplify_eq.
    destruct (Z.eqb_spec (Z.of_nat sa - Z.of_nat sb) 0);
      destruct (Z.eqb_spec (Z.of_nat sb - Z.of_nat sc) 0);
      destruct (Z.eqb_spec (Z.of_nat sa - Z.of_nat sc) 0); lia.
Qed.

Lemma StronglySorted_lookup {A} (R : relation A) l i j a b :
  StronglySorted R l → i < j → l !! i = Some a → l !! j = Some b → R a b.
Proof.
  intros Hs. revert i j. induction Hs as [|x l Hs IH Hall]; intros i j Hij Hi Hj.
  - done.
  - destruct j as [|j]; [lia|]. simpl in Hj. destruct i as [|i].
    + simpl in Hi. injection Hi as ->. rewrite Forall_forall in Hall.
      apply Hall. by eapply list_elem_of_lookup_2.
    + simpl in Hi. apply (IH i j); [lia|done|done].
Qed.

Section EncapsulateEdges.

Variable sort : (nat → nat → Z) → list nat → list nat.
Hypothesis sort_ok : sort_contract sort.

Lemma computeEdgeList_spec edges n :
  length edges = n * 2 →
  originals (computeEdgeList sort edges) ≡ₚ seq 0 n ∧
  length (edgeListTyped (computeEdgeList sort edges)) = n * 2 ∧
  (∀ i s, edgeListTyped (computeEdgeList sort edges) !! (i * 2) = Some s → s ∈ edges) ∧
  src_sorted (edgeListTyped (computeEdgeList sort edges)).
Proof.
  intros Hlen. unfold computeEdgeList. cbn [originals edgeListTyped].
  rewrite Hlen, Nat.div_mul by done.
  destruct (sort_ok (edge_compare edges) (seq 0 n)) as [Hperm Hsorted].
  specialize (Hsorted (edge_compare_consistent edges n Hlen)).
  set (mapped := sort (edge_compare edges) (seq 0 n)) in *.
  assert (length mapped = n) as Hml
    by (by rewrite (Permutation_length Hperm), length_seq).
  assert (∀ v, v ∈ mapped → v < n) as Hlt.
  { intros v Hv. rewrite Hperm in Hv. apply elem_of_seq in Hv. lia. }
  destruct (copy_loop edges mapped n n Hlen) as [Hclen Hcopy]; [lia|lia|done|].
  rewrite Hlen in Hclen, Hcopy.
  split; [done|]. split; [done|].
  assert (∀ i s, foldl (copy_edge edges mapped) (replicate (n * 2) 0) (seq 0 n)
                   !! (i * 2) = Some s →
                 ∃ idx, mapped !! i = Some idx ∧ edges !! (idx * 2) = Some s) as Hsrc.
  { intros i s Hs. assert (i < n) as Hi by (apply lookup_lt_Some in Hs; lia).
    destruct (lookup_lt_is_Some_2 mapped i) as [idx Hidx]; [lia|].
    exists idx. split; [done|]. destruct (Hcopy i idx Hi Hidx) as [<- _]. done. }
  split.
  - intros i s Hs. destruct (Hsrc i s Hs) as (idx & _ & Hidx).
    by eapply list_elem_of_lookup_2.
  - intros p q sp sq Hpq Hp Hq.
    destruct (Hsrc p sp Hp) as (a & Ha & Hsa).
    destruct (Hsrc q sq Hq) as (b & Hb & Hsb).
    destruct (decide (p = q)) as [->|Hne]; [simplify_eq; lia|].
    assert (edge_compare edges a b <= 0)%Z as Hcmp.
    { apply (StronglySorted_lookup (λ a b, (edge_compare edges a b <= 0)%Z)
               mapped p q a b); [done|lia|done|done]. }
    destruct (edge_compare_defined edges n a b) as (sa&da&sb&db&H1&H2&H3&H4&Heq);
      [done| apply Hlt; by eapply list_elem_of_lookup_2
           | apply Hlt; by eapply list_elem_of_lookup_2 |].
    rewrite Heq in Hcmp. simplify_eq.
    destruct (Z.eqb_spec (Z.of_nat sp - Z.of_nat sq) 0); lia.
Qed.

(** C1.  For edges whose endpoints are all point indices below [numPoints],
    the permutation table read at the inverse table's entry for a sorted
    edge index [i] gives [i] back, and the degrees add up to the number of
    edges.  The bounds say that the arrays fit a typed array whose length
    is a 32-bit number. *)
Theorem encapsulateEdges_inverse_and_degree_sum edges numPoints numEdges :
  length edges = numEdges * 2 →
  Forall (λ e, e < numPoints) edges →
  (Z.of_nat (numPoints * 4) < 2 ^ 32)%Z →
  (Z.of_nat (length edges) < 2 ^ 32)%Z →
  (∀ i, i < numEdges →
     ∃ u, edgePermutationInverseTyped (encapsulateEdges sort edges numPoints) !! i = Some u ∧
          edgePermutation (encapsulateEdges sort edges numPoints) !! u = Some i) ∧
  sumZ (degreesTyped (encapsulateEdges sort edges numPoints)) = Z.of_nat numEdges.
Proof.
  intros Hlen Hvalid Hnp Hne.
  destruct (computeEdgeList_spec edges numEdges Hlen) as (Hperm & HElen & HEin & HEsorted).
  unfold encapsulateEdges.
  set (el := computeEdgeList sort edges) in *.
  set (E := edgeListTyped el) in *.
  unfold computeWorkItemsTyped, workItems_loop.
  rewrite HElen, Nat.div_mul by done.
  destruct (workItems_loop_inv E numEdges numPoints numPoints HElen HEsorted)
    as [cs Hinv]; [lia|lia|lia|].
  set (st := foldl (workItem_step E numEdges) _ (seq 0 numPoints)) in *.
  destruct Hinv as (Hpos & Hlow & Hhigh & _ & _ & Hcs & Hsum & Hitems).
  assert (ws_lastPos st = numEdges) as Hfinal.
  { destruct (decide (ws_lastPos st < numEdges)) as [Hlt|]; [|lia].
    destruct (lookup_lt_is_Some_2 E (ws_lastPos st * 2)) as [s Hs]; [lia|].
    pose proof (Hhigh _ s (Nat.le_refl _) Hs) as Hge.
    rewrite Forall_forall in Hvalid. pose proof (Hvalid s (HEin _ s Hs)). lia. }
  destruct (degrees_loop (ws_items st) numPoints cs numPoints) as [Hdlen Hdeg];
    [lia|done|done| |].
  { intros c Hc. pose proof (sum_list_with_in c id cs Hc) as Hle.
    unfold id in Hle at 1. lia. }
  destruct (foldl (degrees_step (ws_items st)) _ (seq 0 numPoints)) as [s2w deg].
  cbn [degreesTyped edgePermutation edgePermutationInverseTyped snd] in *. split.
  - intros i Hi.
    destruct (lookup_lt_is_Some_2 (originals el) i) as [u Hu].
    { by rewrite (Permutation_length Hperm), length_seq. }
    exists u. split; [done|]. apply invert_lookup; [| |done].
    + rewrite Hperm. apply NoDup_seq.
    + intros v Hv. rewrite Hperm in Hv. apply elem_of_seq in Hv. lia.
  - assert (deg = Z.of_nat <$> cs) as ->.
    { apply list_eq_same_length with numPoints;
        [rewrite length_fmap; exact Hcs|exact Hdlen|].
      intros j x y Hj Hx Hy. rewrite list_lookup_fmap in Hy.
      destruct (cs !! j) as [c|] eqn:Hc; [|done]. simpl in Hy.
      rewrite (Hdeg j c Hj Hc) in Hx. congruence. }
    rewrite sumZ_of_nat. lia.
Qed.

End EncapsulateEdges.

(** The theorem at a graph of four points and four edges, under insertion
    sort. *)
Lemma encapsulateEdges_inverse_and_degree_sum_witness :
  (∀ i, i < 4 →
     ∃ u, edgePermutationInverseTyped
            (encapsulateEdges insertion_sort [2; 3; 0; 1; 1; 2; 0; 0] 4) !! i = Some u ∧
          edgePermutation
            (encapsulateEdges insertion_sort [2; 3; 0; 1; 1; 2; 0; 0] 4) !! u = Some i) ∧
  sumZ (degreesTyped (encapsulateEdges insertion_sort [2; 3; 0; 1; 1; 2; 0; 0] 4)) = 4%Z.
Proof.
  apply (encapsulateEdges_inverse_and_degree_sum insertion_sort
           insertion_sort_contract [2; 3; 0; 1; 1; 2; 0; 0] 4 4).
  - reflexivity.
  - repeat constructor.
  - reflexivity.
  - reflexivity.
Defined.

End EdgesFacts.

Module ComposeFacts.

Import TypedArray Mask Compose.

(** *** The counters *)

Lemma bump_length cs l : length (foldl bump cs l) = length cs.
Proof.
  revert cs. induction l as [|x l IH]; intros cs; simpl; [done|].
  rewrite IH. unfold bump. apply length_alter.
Qed.

Lemma zero_length cs l : length (foldl zero cs l) = length cs.
Proof.
  revert cs. induction l as [|x l IH]; intros cs; simpl; [done|].
  rewrite IH. unfold zero. apply length_insert.
Qed.

Lemma bump_lookup cs l i :
  NoDup l →
  foldl bump cs l !! i =
    if decide (i ∈ l) then (λ c, ToUint8 (c + 1)) <$> cs !! i else cs !! i.
Proof.
  revert cs. induction l as [|x l IH]; intros cs Hnd.
  - done.
  - cbn [foldl].
    apply NoDup_cons in Hnd as [Hx Hnd]. rewrite IH by done. unfold bump.
    destruct (decide (i = x)) as [->|Hne].
    + rewrite decide_False by done. rewrite decide_True by left.
      apply list_lookup_alter_eq.
    + rewrite list_lookup_alter_ne by done.
      destruct (decide (i ∈ l)) as [Hil|Hil].
      * rewrite decide_True; [done|]. by right.
      * rewrite decide_False; [done|]. intros [?|?]%elem_of_cons; done.
Qed.

Lemma zero_lookup cs l i :
  foldl zero cs l !! i =
    if decide (i ∈ l) then (λ _, 0%Z) <$> cs !! i else cs !! i.
Proof.
  revert cs. induction l as [|x l IH]; intros cs.
  - done.
  - cbn [foldl]. rewrite IH. unfold zero.
    destruct (decide (i = x)) as [->|Hne].
    + rewrite (decide_True (P := x ∈ x :: l)) by left.
      destruct (decide (x < length cs)) as [Hlt|Hge].
      * rewrite list_lookup_insert_eq by done.
        destruct (lookup_lt_is_Some_2 cs x Hlt) as [c ->].
        by destruct (decide (x ∈ l)).
      * rewrite list_insert_ge by lia.
        assert (cs !! x = None) as -> by (apply lookup_ge_None; lia).
        by destruct (decide (x ∈ l)).
    + rewrite list_lookup_insert_ne by done.
      destruct (decide (i ∈ l)) as [Hil|Hil].
      * rewrite decide_True; [done|]. by right.
      * rewrite decide_False; [done|]. intros [?|?]%elem_of_cons; done.
Qed.

Lemma ToUint8_small z : (0 <= z < 2 ^ 8)%Z → ToUint8 z = z.
Proof. intros Hz. unfold ToUint8. apply Z.mod_small. lia. Qed.

Lemma hits_snoc idxs i S m :
  hits idxs i (S ++ [m]) = hits idxs i S + (if decide (i ∈ idxs m) then 1 else 0).
Proof.
  unfold hits. rewrite filter_app, length_app. f_equal.
  rewrite filter_cons, filter_nil. by destruct (decide (i ∈ idxs m)).
Qed.

Lemma hits_le idxs i S : hits idxs i S ≤ length S.
Proof. apply length_filter. Qed.

Lemma hits_all idxs i S :
  hits idxs i S = length S ↔ Forall (λ m, i ∈ idxs m) S.
Proof.
  induction S as [|m S IH].
  - split; [constructor|done].
  - unfold hits in *. rewrite filter_cons, Forall_cons. simpl.
    destruct (decide (i ∈ idxs m)) as [Hin|Hin]; simpl.
    + rewrite <- IH. split; [intros; split; [done|lia]|intros [_ ?]; lia].
    + pose proof (length_filter (λ m, i ∈ idxs m) S).
      split; [lia|intros [? _]; done].
Qed.

Lemma select_count idxs n S i :
  length S ≤ 255 → Forall (λ m, NoDup (idxs m)) S → i < n →
  foldl (λ cs m, foldl bump cs (idxs m)) (replicate n 0%Z) S !! i
    = Some (Z.of_nat (hits idxs i S)).
Proof.
  intros Hlen Hnd Hi. induction S as [|m S IH] using rev_ind.
  - simpl. by apply lookup_replicate_2.
  - rewrite length_app in Hlen. simpl in Hlen.
    apply Forall_app in Hnd as [HndS Hndm]. rewrite Forall_singleton in Hndm.
    rewrite foldl_app. cbn [foldl]. rewrite bump_lookup by done.
    rewrite IH by (done || lia). rewrite hits_snoc.
    pose proof (hits_le idxs i S).
    destruct (decide (i ∈ idxs m)); simpl.
    + rewrite ToUint8_small by lia. f_equal. lia.
    + by rewrite Nat.add_0_r.
Qed.

Lemma select_length (idxs : DataframeMask → list nat) cs S :
  length (foldl (λ cs m, foldl bump cs (idxs m)) cs S) = length cs.
Proof.
  revert cs. induction S as [|m S IH]; intros cs; simpl; [done|].
  by rewrite IH, bump_length.
Qed.

Lemma exclude_lookup (idxs : DataframeMask → list nat) cs X i :
  foldl (λ cs m, foldl zero cs (idxs m)) cs X !! i =
    if decide (Exists (λ m, i ∈ idxs m) X)
    then (λ _, 0%Z) <$> cs !! i else cs !! i.
Proof.
  revert cs. induction X as [|m X IH]; intros cs.
  - cbn [foldl]. rewrite decide_False; [done|]. by intros ?%Exists_nil.
  - cbn [foldl]. rewrite IH, zero_lookup.
    destruct (decide (Exists (λ m, i ∈ idxs m) X)) as [HX|HX];
      destruct (decide (i ∈ idxs m)) as [Hm|Hm].
    + rewrite decide_True by (by right). by destruct (cs !! i).
    + rewrite decide_True by (by right). done.
    + rewrite decide_True by (by left). done.
    + rewrite decide_False; [done|]. by intros [?|?]%Exists_cons.
Qed.

(** *** Reading the result off the counters *)

Lemma collect_unlimited k cs i target :
  collect Infinity k cs i target = target ++ positions (Z.of_nat k) cs i.
Proof.
  revert i target. induction cs as [|c cs IH]; intros i target; simpl.
  - by rewrite app_nil_r.
  - destruct (c =? Z.of_nat k)%Z; rewrite IH; [|done].
    by rewrite <- app_assoc.
Qed.

Lemma elem_of_positions k cs i x :
  x ∈ positions k cs i ↔ i ≤ x ∧ cs !! (x - i) = Some k.
Proof.
  revert i. induction cs as [|c cs IH]; intros i; simpl.
  - rewrite elem_of_nil. split; [done|intros [_ ?]; done].
  - assert (x ∈ positions k cs (S i) ↔ S i ≤ x ∧ (c :: cs) !! (x - i) = Some k)
      as Htail.
    { rewrite IH. split; intros [Hle Hx]; (split; [done|]).
      - by replace (x - i) with (S (x - S i)) by lia.
      - by replace (x - i) with (S (x - S i)) in Hx by lia. }
    destruct (Z.eqb_spec c k) as [->|Hne].
    + rewrite elem_of_cons, Htail. split.
      * intros [->|[? ?]]; [|split; [lia|done]].
        split; [done|]. by rewrite Nat.sub_diag.
      * intros [Hle Hx]. destruct (decide (x = i)) as [->|]; [by left|].
        right. split; [lia|done].
    + rewrite Htail. split; [intros [? ?]; split; [lia|done]|].
      intros [Hle Hx]. split; [|done].
      destruct (decide (x = i)) as [->|]; [|lia].
      rewrite Nat.sub_diag in Hx. simpl in Hx. congruence.
Qed.

Lemma select_fst np ne P E S :
  (foldl (select_step np ne) (P, E) S).1
    = foldl (λ cs m, foldl bump cs (mapPointIndexes np m)) P S.
Proof. revert P E. induction S as [|m S IH]; intros P E; simpl; [done|apply IH]. Qed.

Lemma select_snd np ne P E S :
  (foldl (select_step np ne) (P, E) S).2
    = foldl (λ cs m, foldl bump cs (mapEdgeIndexes ne m)) E S.
Proof. revert P E. induction S as [|m S IH]; intros P E; simpl; [done|apply IH]. Qed.

Lemma exclude_fst np ne P E X :
  (foldl (exclude_step np ne) (P, E) X).1
    = foldl (λ cs m, foldl zero cs (mapPointIndexes np m)) P X.
Proof. revert P E. induction X as [|m X IH]; intros P E; simpl; [done|apply IH]. Qed.

Lemma exclude_snd np ne P E X :
  (foldl (exclude_step np ne) (P, E) X).2
    = foldl (λ cs m, foldl zero cs (mapEdgeIndexes ne m)) E X.
Proof. revert P E. induction X as [|m X IH]; intros P E; simpl; [done|apply IH]. Qed.

(** The result of one component type, for any traversal [idxs] over [n]
    elements. *)
Lemma selected_iff (idxs : DataframeMask → list nat) n S X i :
  1 ≤ length S → length S ≤ 255 → Forall (λ m, NoDup (idxs m)) S →
  i ∈ positions (Z.of_nat (length S))
        (foldl (λ cs m, foldl zero cs (idxs m))
               (foldl (λ cs m, foldl bump cs (idxs m)) (replicate n 0%Z) S) X) 0
  ↔ i < n ∧ Forall (λ m, i ∈ idxs m) S ∧ Forall (λ m, i ∉ idxs m) X.
Proof.
  intros H1 H255 Hnd. rewrite elem_of_positions, Nat.sub_0_r, exclude_lookup.
  destruct (decide (i < n)) as [Hi|Hi].
  - rewrite select_count by done.
    destruct (decide (Exists (λ m, i ∈ idxs m) X)) as [HX|HX]; simpl.
    + split; [intros [_ Heq]; injection Heq; lia|].
      intros (_ & _ & Hno). exfalso.
      apply Exists_exists in HX as (m & Hm & Him).
      rewrite Forall_forall in Hno. by apply (Hno m).
    + rewrite <- hits_all. split.
      * intros [_ Heq]. split; [done|]. split; [injection Heq; lia|].
        apply Forall_forall. intros m Hm Him. apply HX.
        apply Exists_exists. eauto.
      * intros (_ & -> & _). split; [lia|done].
  - assert (foldl (λ cs m, foldl bump cs (idxs m)) (replicate n 0%Z) S !! i = None)
      as ->.
    { apply lookup_ge_None. rewrite select_length, length_replicate. lia. }
    destruct (decide _); simpl; split; try (intros [_ ?]; done); intros [? _]; lia.
Qed.

Lemma positions_sorted k cs i :
  StronglySorted lt (positions k cs i) ∧ Forall (le i) (positions k cs i).
Proof.
  revert i. induction cs as [|c cs IH]; intros i; simpl.
  - split; constructor.
  - destruct (IH (S i)) as [Hs Hle]. destruct (c =? k)%Z.
    + split.
      * constructor; [done|]. eapply Forall_impl; [exact Hle|]. simpl. lia.
      * constructor; [lia|]. eapply Forall_impl; [exact Hle|]. simpl. lia.
    + split; [done|]. eapply Forall_impl; [exact Hle|]. simpl. lia.
Qed.

Lemma sorted_same_elements (l k : list nat) :
  StronglySorted lt l → StronglySorted lt k → (∀ i, i ∈ l ↔ i ∈ k) → l = k.
Proof.
  intros Hl Hk Hiff.
  assert (∀ l : list nat, StronglySorted lt l → NoDup l) as Hnd.
  { clear. intros l. induction 1 as [|x l Hs IH Hall]; constructor; [|done].
    intros Hx. rewrite Forall_forall in Hall. specialize (Hall x Hx). lia. }
  apply (StronglySorted_unique_strong lt); [intros; lia|done|done|].
  apply NoDup_Permutation; auto.
Qed.

(** *** The call on the heap *)

Lemma deref_insert h l o refs S :
  deref h refs = Some S → (∀ m, h !! l ≠ Some (ObjMask m)) →
  deref (<[l := o]> h) refs = Some S.
Proof.
  unfold deref. rewrite !mapM_Some. intros HS Hl.
  eapply Forall2_impl; [exact HS|]. simpl. intros r m Hr.
  destruct (decide (r = l)) as [->|Hne].
  - destruct (h !! l) as [[]|] eqn:E; try done. exfalso. by eapply Hl.
  - by rewrite list_lookup_insert_ne.
Qed.

Lemma excluded_insert h l o exc X :
  excluded h exc = Some X → (∃ lims, h !! l = Some (ObjLimits lims)) →
  excluded (<[l := o]> h) exc = Some X.
Proof.
  intros HX [lims Hl]. destruct exc as [e|]; [|done]. simpl in *.
  destruct (decide (e = l)) as [->|Hne]; [by rewrite Hl in HX|].
  rewrite list_lookup_insert_ne by done.
  destruct (h !! e) as [[refs| |]|]; try done.
  apply deref_insert; [done|]. intros m. by rewrite Hl.
Qed.

Lemma composeMasks_run np ne h sel exc lim selRefs S X :
  h !! sel = Some (ObjMasks selRefs) → deref h selRefs = Some S →
  excluded h exc = Some X → unlimited h lim → length selRefs ≤ 255 →
  ∃ h1, composeMasks np ne h sel exc lim =
    Some (h1 ++ [ObjMask
                   (compose np ne
                      (length (if decide (S = []) then [fullDataframeMask] else S))
                      (if decide (S = []) then [fullDataframeMask] else S) X
                      Infinity Infinity)],
          length h1).
Proof.
  intros Hsel HS HX Hunl Hlen.
  assert (∃ h1 lims, resolve_limits h lim = Some (h1, lims) ∧
            default Infinity (lim_point lims) = Infinity ∧
            default Infinity (lim_edge lims) = Infinity ∧
            h1 !! sel = Some (ObjMasks selRefs) ∧ deref h1 selRefs = Some S ∧
            excluded h1 exc = Some X) as (h1 & lims & Hres & Hp & He & Hsel1 & HS1 & HX1).
  { destruct lim as [l|]; simpl in *.
    - destruct Hunl as (lims & Hl & Hp & He). rewrite Hl.
      eexists _, _. split; [done|]. simpl. rewrite Hp, He.
      split; [done|]. split; [done|]. split.
      + rewrite list_lookup_insert_ne; [done|]. intros <-. congruence.
      + split; [apply deref_insert; [done|intros m; by rewrite Hl]|].
        apply excluded_insert; eauto.
    - eexists _, _. split; [done|]. done. }
  exists h1. unfold composeMasks. rewrite Hres. simpl. rewrite Hsel1. simpl.
  pose proof (length_mapM _ _ _ HS1) as HlenS.
  rewrite Hp, He.
  destruct selRefs as [|r selRefs].
  - destruct S; [|done]. simpl. rewrite HX1. done.
  - destruct S as [|m S]; [done|].
    rewrite bool_decide_false by done.
    assert ((255 <? length (r :: selRefs)) = false) as -> by (apply Nat.ltb_ge; lia).
    rewrite Hsel1, HS1. simpl. rewrite HX1. simpl.
    simpl in HlenS. injection HlenS as ->. done.
Qed.

Lemma compose_unlimited np ne k sels excls :
  compose np ne k sels excls Infinity Infinity =
    {| point := Some (positions (Z.of_nat k)
                (foldl (λ cs m, foldl zero cs (mapPointIndexes np m))
                   (foldl (λ cs m, foldl bump cs (mapPointIndexes np m))
                      (replicate np 0%Z) sels) excls) 0);
       edge := Some (positions (Z.of_nat k)
                (foldl (λ cs m, foldl zero cs (mapEdgeIndexes ne m))
                   (foldl (λ cs m, foldl bump cs (mapEdgeIndexes ne m))
                      (replicate ne 0%Z) sels) excls) 0) |}.
Proof.
  unfold compose.
  pose proof (select_fst np ne (replicate np 0%Z) (replicate ne 0%Z) sels) as HP.
  pose proof (select_snd np ne (replicate np 0%Z) (replicate ne 0%Z) sels) as HE.
  destruct (foldl (select_step np ne) _ sels) as [P E]. simpl in HP, HE.
  pose proof (exclude_fst np ne P E excls) as HP'.
  pose proof (exclude_snd np ne P E excls) as HE'.
  destruct (foldl (exclude_step np ne) _ excls) as [P' E']. simpl in HP', HE'.
  rewrite !collect_unlimited. simpl. by subst.
Qed.

Lemma universal_selection (idxs : DataframeMask → list nat) n sels i :
  (∀ j, j ∈ idxs fullDataframeMask ↔ j < n) →
  i < n ∧ Forall (λ m, i ∈ idxs m)
            (if decide (sels = []) then [fullDataframeMask] else sels)
  ↔ i < n ∧ Forall (λ m, i ∈ idxs m) sels.
Proof.
  intros Hfull. destruct (decide (sels = [])) as [->|]; [|done].
  rewrite Forall_singleton, Hfull. split; [intros [? _]|intros [? _]]; by split.
Qed.

(** C2.  With at most 255 selection masks, none listing an index twice, and
    no finite limit, the composed mask holds, per component type and in
    ascending order, exactly the indices below the element count that are
    in every selection mask and in no exclusion mask; an empty selection
    array gives what an array with one full mask gives; two masks with
    points 0,1,2 and 1,2,3 compose to the points 1,2; and composing
    nothing gives every point and every edge. *)
Theorem composeMasks_intersection :
  (∀ np ne h sel exc lim selRefs sels excls,
     h !! sel = Some (ObjMasks selRefs) → deref h selRefs = Some sels →
     excluded h exc = Some excls → unlimited h lim →
     length selRefs ≤ 255 →
     ∃ h' r pts eds,
       composeMasks np ne h sel exc lim = Some (h', r) ∧
       h' !! r = Some (ObjMask {| point := Some pts; edge := Some eds |}) ∧
       StronglySorted lt pts ∧ StronglySorted lt eds ∧
       (Forall (λ m, NoDup (mapPointIndexes np m)) sels →
        ∀ i, i ∈ pts ↔
             i < np ∧ Forall (λ m, i ∈ mapPointIndexes np m) sels ∧
             Forall (λ m, i ∉ mapPointIndexes np m) excls) ∧
       (Forall (λ m, NoDup (mapEdgeIndexes ne m)) sels →
        ∀ i, i ∈ eds ↔
             i < ne ∧ Forall (λ m, i ∈ mapEdgeIndexes ne m) sels ∧
             Forall (λ m, i ∉ mapEdgeIndexes ne m) excls)) ∧
  (∀ np ne h sel sel' exc lim full,
     h !! sel = Some (ObjMasks []) → h !! sel' = Some (ObjMasks [full]) →
     h !! full = Some (ObjMask fullDataframeMask) →
     composeMasks np ne h sel exc lim = composeMasks np ne h sel' exc lim) ∧
  (∀ np ne edgesA edgesB, 4 ≤ np →
     ∃ h' r eds,
       composeMasks np ne
         [ObjMask {| point := Some [0; 1; 2]; edge := edgesA |};
          ObjMask {| point := Some [1; 2; 3]; edge := edgesB |};
          ObjMasks [0; 1]; ObjMasks [];
          ObjLimits {| lim_point := None; lim_edge := None |}]
         2 (Some 3) (Some 4) = Some (h', r) ∧
       h' !! r = Some (ObjMask {| point := Some [1; 2]; edge := Some eds |})) ∧
  (∀ np ne,
     ∃ h' r,
       composeMasks np ne
         [ObjMasks []; ObjMasks [];
          ObjLimits {| lim_point := None; lim_edge := None |}]
         0 (Some 1) (Some 2) = Some (h', r) ∧
       h' !! r = Some (ObjMask {| point := Some (seq 0 np);
                                  edge := Some (seq 0 ne) |})).
Proof.
  assert (∀ np ne h sel exc lim selRefs sels excls,
     h !! sel = Some (ObjMasks selRefs) → deref h selRefs = Some sels →
     excluded h exc = Some excls → unlimited h lim →
     length selRefs ≤ 255 →
     ∃ h' r pts eds,
       composeMasks np ne h sel exc lim = Some (h', r) ∧
       h' !! r = Some (ObjMask {| point := Some pts; edge := Some eds |}) ∧
       StronglySorted lt pts ∧ StronglySorted lt eds ∧
       (Forall (λ m, NoDup (mapPointIndexes np m)) sels →
        ∀ i, i ∈ pts ↔
             i < np ∧ Forall (λ m, i ∈ mapPointIndexes np m) sels ∧
             Forall (λ m, i ∉ mapPointIndexes np m) excls) ∧
       (Forall (λ m, NoDup (mapEdgeIndexes ne m)) sels →
        ∀ i, i ∈ eds ↔
             i < ne ∧ Forall (λ m, i ∈ mapEdgeIndexes ne m) sels ∧
             Forall (λ m, i ∉ mapEdgeIndexes ne m) excls)) as Hgeneral.
  { intros np ne h sel exc lim selRefs sels excls Hsel Hsels Hexcls Hunl Hlen.
    destruct (composeMasks_run np ne h sel exc lim selRefs sels excls)
      as [h1 Hrun]; try done.
    rewrite compose_unlimited in Hrun.
    eexists _, _, _, _. split; [exact Hrun|].
    split; [by apply list_lookup_middle|].
    split; [apply positions_sorted|]. split; [apply positions_sorted|].
    pose proof (length_mapM _ _ _ Hsels) as HlenS.
    assert (1 ≤ length (if decide (sels = []) then [fullDataframeMask] else sels)
            ≤ 255) as [H1 H255].
    { destruct (decide (sels = [])) as [->|Hne]; [simpl; lia|].
      destruct sels; [done|]. simpl in *. lia. }
    split.
    - intros Hnd i. rewrite selected_iff; [|done|done|].
      + rewrite !(assoc and). rewrite universal_selection; [done|].
        intros j. unfold mapPointIndexes. simpl. rewrite elem_of_seq. lia.
      + destruct (decide (sels = [])); [|done].
        apply Forall_singleton. apply NoDup_seq.
    - intros Hnd i. rewrite selected_iff; [|done|done|].
      + rewrite !(assoc and). rewrite universal_selection; [done|].
        intros j. unfold mapEdgeIndexes. simpl. rewrite elem_of_seq. lia.
      + destruct (decide (sels = [])); [|done].
        apply Forall_singleton. apply NoDup_seq. }
  split; [exact Hgeneral|]. split; [|split].
  - intros np ne h sel sel' exc lim full Hsel Hsel' Hfull.
    unfold composeMasks. destruct lim as [l|]; simpl.
    + destruct (h !! l) as [[| |lims]|] eqn:Hl; try done. simpl.
      rewrite !list_lookup_insert_ne by (intros <-; congruence).
      rewrite Hsel, Hsel'. simpl.
      rewrite !list_lookup_insert_ne by (intros <-; congruence).
      rewrite Hsel'. simpl.
      rewrite !list_lookup_insert_ne by (intros <-; congruence).
      by rewrite Hfull.
    + rewrite Hsel, Hsel'. simpl. rewrite Hsel'. simpl. by rewrite Hfull.
  - intros np ne edgesA edgesB Hnp.
    destruct (Hgeneral np ne
                [ObjMask {| point := Some [0; 1; 2]; edge := edgesA |};
                 ObjMask {| point := Some [1; 2; 3]; edge := edgesB |};
                 ObjMasks [0; 1]; ObjMasks [];
                 ObjLimits {| lim_point := None; lim_edge := None |}]
                2 (Some 3) (Some 4) [0; 1]
                [{| point := Some [0; 1; 2]; edge := edgesA |};
                 {| point := Some [1; 2; 3]; edge := edgesB |}] [])
      as (h' & r & pts & eds & Hrun & Hr & Hsp & _ & Hpts & _);
      [done|done|done| |simpl; lia|].
    { simpl. eexists. split; [reflexivity|]. done. }
    exists h', r, eds. split; [exact Hrun|].
    rewrite Hr. assert (pts = [1; 2]) as ->; [|done].
    apply sorted_same_elements; [done|repeat constructor; lia|].
    intros i. rewrite Hpts.
    + rewrite !Forall_cons, !Forall_nil. unfold mapPointIndexes. simpl.
      rewrite !elem_of_cons, !elem_of_nil. lia.
    + repeat constructor; rewrite ?elem_of_cons, ?elem_of_nil; lia.
  - intros np ne.
    destruct (Hgeneral np ne
                [ObjMasks []; ObjMasks [];
                 ObjLimits {| lim_point := None; lim_edge := None |}]
                0 (Some 1) (Some 2) [] [] [])
      as (h' & r & pts & eds & Hrun & Hr & Hsp & Hse & Hpts & Heds);
      [done|done|done| |simpl; lia|].
    { simpl. eexists. split; [reflexivity|]. done. }
    exists h', r. split; [exact Hrun|].
    assert (∀ n k, StronglySorted lt (seq k n)) as Hseq.
    { clear. induction n as [|n IH]; intros k; simpl; constructor; [apply IH|].
      apply Forall_forall. intros j Hj%elem_of_seq. lia. }
    rewrite Hr. assert (pts = seq 0 np ∧ eds = seq 0 ne) as [-> ->]; [|done].
    split.
    + apply sorted_same_elements; [done|apply Hseq|].
      intros i. rewrite Hpts by constructor. rewrite elem_of_seq.
      split; [intros (?&_&_); lia|intros ?; split; [lia|split; constructor]].
    + apply sorted_same_elements; [done|apply Hseq|].
      intros i. rewrite Heds by constructor. rewrite elem_of_seq.
      split; [intros (?&_&_); lia|intros ?; split; [lia|split; constructor]].
Qed.

(** The theorem at the two masks of its third part, on a dataframe of four
    points and no edge. *)
Lemma composeMasks_intersection_witness :
  ∃ h' r pts eds,
    composeMasks 4 0
      [ObjMask {| point := Some [0; 1; 2]; edge := None |};
       ObjMask {| point := Some [1; 2; 3]; edge := None |};
       ObjMasks [0; 1]; ObjMasks [];
       ObjLimits {| lim_point := None; lim_edge := None |}]
      2 (Some 3) (Some 4) = Some (h', r) ∧
    h' !! r = Some (ObjMask {| point := Some pts; edge := Some eds |}) ∧
    StronglySorted lt pts ∧ StronglySorted lt eds ∧
    (Forall (λ m, NoDup (mapPointIndexes 4 m))
       [{| point := Some [0; 1; 2]; edge := None |};
        {| point := Some [1; 2; 3]; edge := None |}] →
     ∀ i, i ∈ pts ↔
          i < 4 ∧
          Forall (λ m, i ∈ mapPointIndexes 4 m)
            [{| point := Some [0; 1; 2]; edge := None |};
             {| point := Some [1; 2; 3]; edge := None |}] ∧
          Forall (λ m, i ∉ mapPointIndexes 4 m) []) ∧
    (Forall (λ m, NoDup (mapEdgeIndexes 0 m))
       [{| point := Some [0; 1; 2]; edge := None |};
        {| point := Some [1; 2; 3]; edge := None |}] →
     ∀ i, i ∈ eds ↔
          i < 0 ∧
          Forall (λ m, i ∈ mapEdgeIndexes 0 m)
            [{| point := Some [0; 1; 2]; edge := None |};
             {| point := Some [1; 2; 3]; edge := None |}] ∧
          Forall (λ m, i ∉ mapEdgeIndexes 0 m) []).
Proof.
  apply (proj1 composeMasks_intersection 4 0 _ 2 (Some 3) (Some 4) [0; 1]).
  - reflexivity.
  - reflexivity.
  - reflexivity.
  - simpl. eexists. split; [reflexivity|]. split; reflexivity.
  - simpl. lia.
Defined.

(** *** What a call changes *)

Lemma resolve_limits_spec h lim h1 lims :
  resolve_limits h lim = Some (h1, lims) →
  length h1 = length h ∧
  ∀ l, h1 !! l =
       match h !! l with
       | Some (ObjLimits x) =>
           Some (ObjLimits (if decide (lim = Some l) then fill_limits x else x))
       | o => o
       end.
Proof.
  unfold resolve_limits. destruct lim as [l0|].
  - destruct (h !! l0) as [[| |x]|] eqn:Hl0; try done.
    intros [= <- <-]. split; [apply length_insert|]. intros l.
    destruct (decide (l = l0)) as [->|Hne].
    + rewrite Hl0, decide_True by done.
      apply list_lookup_insert_eq. by eapply lookup_lt_Some.
    + rewrite list_lookup_insert_ne by done.
      destruct (h !! l) as [[| |y]|]; try done.
      rewrite decide_False; [done|]. congruence.
  - intros [= <- <-]. split; [done|]. intros l.
    by destruct (h !! l) as [[| |y]|].
Qed.

(** C8, amended.  A call that returns allocates the result mask at a new
    reference and leaves every mask object as it was; an array of masks is
    as it was unless it is the [selectionMasks] array, which is cut to its
    first 255 entries (so unchanged when it has at most 255); a limits
    object is as it was unless it is the [limits] argument, whose missing
    limits are filled in with [Infinity]. *)
Theorem composeMasks_frame np ne h sel exc lim h' r :
  composeMasks np ne h sel exc lim = Some (h', r) →
  r = length h ∧ h !! r = None ∧ (∃ res, h' !! r = Some (ObjMask res)) ∧
  (∀ l m, h !! l = Some (ObjMask m) → h' !! l = Some (ObjMask m)) ∧
  (∀ l refs, h !! l = Some (ObjMasks refs) →
     h' !! l = Some (ObjMasks (if decide (l = sel) then take 255 refs else refs))) ∧
  (∀ refs, h !! sel = Some (ObjMasks refs) → length refs ≤ 255 →
     h' !! sel = Some (ObjMasks refs)) ∧
  (∀ l lims, h !! l = Some (ObjLimits lims) →
     h' !! l = Some (ObjLimits (if decide (lim = Some l)
                                then fill_limits lims else lims))).
Proof.
  intros H. unfold composeMasks in H.
  destruct (resolve_limits h lim) as [[h1 lims]|] eqn:Hres; [|done].
  apply resolve_limits_spec in Hres as [Hlen1 Hh1]. simpl in H.
  destruct (h1 !! sel) as [[selRefs| |]|] eqn:Hsel; try done. simpl in H.
  set (numMasks := if bool_decide (length selRefs = 0) then 1 else length selRefs) in H.
  set (h2 := if 255 <? numMasks
             then <[sel := ObjMasks (take 255 selRefs)]> h1 else h1) in H.
  assert (h2 = <[sel := ObjMasks (take 255 selRefs)]> h1) as Hh2.
  { unfold h2. destruct (255 <? numMasks) eqn:Hcmp; [done|].
    apply Nat.ltb_ge in Hcmp. rewrite take_ge.
    - symmetry. by apply list_insert_id.
    - unfold numMasks in Hcmp. case_bool_decide; lia. }
  clearbody h2. subst h2.
  match type of H with
  | ?o ≫= _ = _ => destruct o as [selMasks|]; [|done]
  end.
  simpl in H.
  destruct (excluded _ exc) as [excMasks|]; [|done]. simpl in H.
  injection H as <- <-.
  assert (sel < length h1) as Hsellt by (by eapply lookup_lt_Some).
  assert (∀ l, l < length h →
            (<[sel:=ObjMasks (take 255 selRefs)]> h1 ++ [ObjMask
               (compose np ne numMasks selMasks excMasks
                  (default Infinity (lim_point lims))
                  (default Infinity (lim_edge lims)))]) !! l =
            if decide (l = sel) then Some (ObjMasks (take 255 selRefs))
            else h1 !! l) as Hlook.
  { intros l Hl. rewrite lookup_app_l by (rewrite length_insert; lia).
    destruct (decide (l = sel)) as [->|Hne].
    - by apply list_lookup_insert_eq.
    - by rewrite list_lookup_insert_ne. }
  rewrite length_insert, Hlen1.
  split; [done|]. split; [by apply lookup_ge_None|]. split.
  { eexists. apply list_lookup_middle. by rewrite length_insert. }
  split.
  { intros l m Hm. rewrite Hlook by (by eapply lookup_lt_Some).
    destruct (decide (l = sel)) as [->|Hne].
    - rewrite Hh1, Hm in Hsel. done.
    - by rewrite Hh1, Hm. }
  assert (∀ l refs, h !! l = Some (ObjMasks refs) →
     (<[sel:=ObjMasks (take 255 selRefs)]> h1 ++ [ObjMask
        (compose np ne numMasks selMasks excMasks
           (default Infinity (lim_point lims))
           (default Infinity (lim_edge lims)))]) !! l =
     Some (ObjMasks (if decide (l = sel) then take 255 refs else refs))) as Harr.
  { intros l refs Hrefs. rewrite Hlook by (by eapply lookup_lt_Some).
    destruct (decide (l = sel)) as [->|Hne].
    - rewrite Hh1, Hrefs in Hsel. by injection Hsel as ->.
    - by rewrite Hh1, Hrefs. }
  split; [exact Harr|]. split.
  { intros refs Hrefs Hle. rewrite (Harr sel refs Hrefs).
    rewrite decide_True by done. by rewrite take_ge. }
  intros l lims' Hl. rewrite Hlook by (by eapply lookup_lt_Some).
  destruct (decide (l = sel)) as [->|Hne].
  - rewrite Hh1, Hl in Hsel. done.
  - by rewrite Hh1, Hl.
Qed.

(** The frame at a call with two masks and an empty limits object. *)
Lemma composeMasks_frame_witness :
  ([ObjMask {| point := Some [0; 1; 2]; edge := None |};
    ObjMask {| point := Some [1; 2; 3]; edge := None |};
    ObjMasks [0; 1]; ObjMasks [];
    ObjLimits {| lim_point := None; lim_edge := None |}] : list object) !! 5 = None ∧
  (∃ res,
     [ObjMask {| point := Some [0; 1; 2]; edge := None |};
      ObjMask {| point := Some [1; 2; 3]; edge := None |};
      ObjMasks [0; 1]; ObjMasks [];
      ObjLimits {| lim_point := Some Infinity; lim_edge := Some Infinity |};
      ObjMask {| point := Some [1; 2]; edge := Some [] |}] !! 5
     = Some (ObjMask res)) ∧
  (∀ l m,
     [ObjMask {| point := Some [0; 1; 2]; edge := None |};
      ObjMask {| point := Some [1; 2; 3]; edge := None |};
      ObjMasks [0; 1]; ObjMasks [];
      ObjLimits {| lim_point := None; lim_edge := None |}] !! l = Some (ObjMask m) →
     [ObjMask {| point := Some [0; 1; 2]; edge := None |};
      ObjMask {| point := Some [1; 2; 3]; edge := None |};
      ObjMasks [0; 1]; ObjMasks [];
      ObjLimits {| lim_point := Some Infinity; lim_edge := Some Infinity |};
      ObjMask {| point := Some [1; 2]; edge := Some [] |}] !! l
     = Some (ObjMask m)).
Proof.
  destruct (composeMasks_frame 4 0
    [ObjMask {| point := Some [0; 1; 2]; edge := None |};
     ObjMask {| point := Some [1; 2; 3]; edge := None |};
     ObjMasks [0; 1]; ObjMasks [];
     ObjLimits {| lim_point := None; lim_edge := None |}]
    2 (Some 3) (Some 4)
    [ObjMask {| point := Some [0; 1; 2]; edge := None |};
     ObjMask {| point := Some [1; 2; 3]; edge := None |};
     ObjMasks [0; 1]; ObjMasks [];
     ObjLimits {| lim_point := Some Infinity; lim_edge := Some Infinity |};
     ObjMask {| point := Some [1; 2]; edge := Some [] |}] 5 eq_refl)
    as (_ & H2 & H3 & H4 & _).
  exact (conj H2 (conj H3 H4)).
Defined.

(** C8 as stated fails: a call with 256 selection masks cuts the caller's
    array to 255 entries, and a call with an empty limits object fills the
    caller's object in. *)
Lemma composeMasks_mutates_inputs :
  ∃ h' r,
    composeMasks 2 1
      [ObjMask fullDataframeMask; ObjMasks (replicate 256 0); ObjMasks [];
       ObjLimits {| lim_point := None; lim_edge := None |}]
      1 (Some 2) (Some 3) = Some (h', r) ∧
    h' !! 1 = Some (ObjMasks (replicate 255 0)) ∧
    h' !! 1 ≠ Some (ObjMasks (replicate 256 0)) ∧
    h' !! 3 = Some (ObjLimits {| lim_point := Some Infinity;
                                 lim_edge := Some Infinity |}) ∧
    h' !! 3 ≠ Some (ObjLimits {| lim_point := None; lim_edge := None |}).
Proof.
  eexists _, _. split; [vm_compute; reflexivity|].
  split; [reflexivity|]. split; [vm_compute; discriminate|].
  split; [reflexivity|]. vm_compute; discriminate.
Qed.

End ComposeFacts.

Module PruneFacts.

Import Mask Edges Prune.

Lemma lookup_built (l : list nat) (L0 : gmap nat Z) s :
  foldl (λ lookup idx, <[idx := 1%Z]> lookup) L0 l !! s =
    if decide (s ∈ l) then Some 1%Z else L0 !! s.
Proof.
  revert L0. induction l as [|x l IH]; intros L0.
  - done.
  - cbn [foldl]. rewrite IH.
    destruct (decide (s ∈ l)) as [Hl|Hl].
    + rewrite decide_True; [done|]. by right.
    + destruct (decide (s = x)) as [->|Hne].
      * rewrite decide_True by left. apply lookup_insert_eq.
      * rewrite lookup_insert_ne by done.
        rewrite decide_False; [done|]. intros [?|?]%elem_of_cons; done.
Qed.

Lemma truthy_built (l : list nat) (v : option nat) :
  truthy (v ≫= (foldl (λ lookup idx, <[idx := 1%Z]> lookup) (∅ : gmap nat Z) l !!.))
    = true
  ↔ ∃ s, v = Some s ∧ s ∈ l.
Proof.
  destruct v as [s|]; simpl.
  - rewrite lookup_built. destruct (decide (s ∈ l)) as [Hl|Hl]; simpl.
    + split; [eauto|done].
    + rewrite lookup_empty. simpl. split; [done|]. intros (s' & [= <-] & ?). done.
  - split; [done|]. intros (s & ? & _). done.
Qed.

Lemma push_if_filter (c : nat → bool) (l acc : list nat) :
  foldl (λ edgeMask edgeIdx, if c edgeIdx then edgeMask ++ [edgeIdx] else edgeMask)
        acc l
    = acc ++ filter (λ e, c e = true) l.
Proof.
  revert acc. induction l as [|e l IH]; intros acc; simpl.
  - by rewrite app_nil_r.
  - rewrite IH, filter_cons. destruct (c e) eqn:Hc.
    + rewrite decide_True by done. by rewrite <- app_assoc.
    + rewrite decide_False; [done|]. congruence.
Qed.

(** C7.  The pruned mask has the old mask's points; its edges are those of
    the old mask, in the old order, whose two endpoints in the sorted edge
    array are both points of the mask.  On the path 0-1-2-3, whose sorted
    edges are (0,1), (1,2), (2,3), keeping the points 0,1,2 and every edge
    keeps the edges 0 and 1: (0,1) and (1,2). *)
Theorem pruneMaskEdges_keeps_inner_edges :
  (∀ np ne edges oldMask,
     point (pruneMaskEdges np ne edges oldMask) = point oldMask ∧
     ∃ es, edge (pruneMaskEdges np ne edges oldMask) = Some es ∧
       es `sublist_of` mapEdgeIndexes ne oldMask ∧
       ∀ e, e ∈ es ↔
            e ∈ mapEdgeIndexes ne oldMask ∧
            ∃ src dst, edges !! (2 * e) = Some src ∧
                       edges !! (2 * e + 1) = Some dst ∧
                       src ∈ mapPointIndexes np oldMask ∧
                       dst ∈ mapPointIndexes np oldMask) ∧
  edgesTyped (encapsulateEdges insertion_sort [0; 1; 1; 2; 2; 3] 4)
    = [0; 1; 1; 2; 2; 3] ∧
  pruneMaskEdges 4 3 (edgesTyped (encapsulateEdges insertion_sort [0; 1; 1; 2; 2; 3] 4))
                 {| point := Some [0; 1; 2]; edge := None |}
    = {| point := Some [0; 1; 2]; edge := Some [0; 1] |}.
Proof.
  split; [|split; reflexivity].
  intros np ne edges oldMask. split; [done|].
  unfold pruneMaskEdges. cbn [edge]. eexists. split; [reflexivity|].
  rewrite push_if_filter. simpl. split; [apply sublist_filter|].
  intros e. rewrite list_elem_of_filter, andb_true_iff, !truthy_built.
  split.
  - intros [[(s & Hs & Hsin) (d & Hd & Hdin)] He]. eauto 10.
  - intros [He (s & d & Hs & Hd & Hsin & Hdin)]. eauto 10.
Qed.

End PruneFacts.

Module FilterFacts.

Import Mask Edges Filter.

Section Pass.

Variable sort : (nat → nat → Z) → list nat → list nat.

(** The pass is skipped, with [false] and nothing changed, when the mask is
    the object [this.lastMasks] refers to. *)
Lemma no_op_on_last_mask io_ok df simulator :
  applyDataframeMaskToFilterInPlace sort io_ok df simulator (lastMasks df)
    = (df, simulator, ResolvedFalse).
Proof. unfold applyDataframeMaskToFilterInPlace. by rewrite bool_decide_true. Qed.

(** The pass is skipped, with [false] and nothing changed, while an edge
    weight buffer of the raw view is missing. *)
Lemma no_op_before_buffers io_ok df simulator masks :
  "forwardsEdgeWeights" ∉ simulatorBuffers (rawdata df) ∨
  "backwardsEdgeWeights" ∉ simulatorBuffers (rawdata df) →
  applyDataframeMaskToFilterInPlace sort io_ok df simulator masks
    = (df, simulator, ResolvedFalse).
Proof.
  intros Hmissing. unfold applyDataframeMaskToFilterInPlace.
  case_bool_decide; [done|]. by rewrite bool_decide_true.
Qed.



(** So a second call with the same caller's mask runs the pass again. *)
Lemma same_mask_twice_runs_twice df simulator masks :
  masks ≠ lastMasks df →
  (applyDataframeMaskToFilterInPlace sort true df simulator masks).2
    = ResolvedUndefined →
  let '(df1, simulator1, _) :=
    applyDataframeMaskToFilterInPlace sort true df simulator masks in
  (applyDataframeMaskToFilterInPlace sort true df1 simulator1 masks).2
    = ResolvedUndefined ∧
  tick (applyDataframeMaskToFilterInPlace sort true df1 simulator1 masks).1.2
    = (tick simulator + 2)%Z.
Proof.
  intros Hne. unfold applyDataframeMaskToFilterInPlace at 1 2.
  rewrite bool_decide_false by done.
  case_bool_decide as Hready; [done|].
  destruct (maskObjects df !! masks) as [m|] eqn:Hm; [|done].
  destruct (forwardsEdges (rawdata df)) as [fe|] eqn:Hfe; [|done].
  destruct (newData sort (rawdata df) fe m) as [new usm] eqn:Hnew.
  intros _. unfold applyDataframeMaskToFilterInPlace.
  cbn [lastMasks rawdata maskObjects].
  rewrite bool_decide_false by done.
  rewrite bool_decide_false by done.
  rewrite list_lookup_insert_ne by done. rewrite Hm, Hfe, Hnew.
  cbn [fst snd tick bump_versions]. split; [done|lia].
Qed.

End Pass.

(** C3 at a failing input: on the loaded path dataframe, the caller's mask
    (object 1, not the object [this.lastMasks] refers to) is applied twice
    in a row; each of the two calls runs the pass to its end, and the
    second one increments the tick and every buffer's version again. *)
Theorem filter_twice_with_same_mask_bumps_versions :
  ∃ df1 v1 df2 v2,
    applyDataframeMaskToFilterInPlace insertion_sort true
      path_dataframe path_versions 1 = (df1, v1, ResolvedUndefined) ∧
    applyDataframeMaskToFilterInPlace insertion_sort true df1 v1 1
      = (df2, v2, ResolvedUndefined) ∧
    tick v1 = 1%Z ∧ tick v2 = 2%Z ∧
    buffers v1 !! "curPoints" = Some 1%Z ∧
    buffers v2 !! "curPoints" = Some 2%Z ∧
    buffers v2 !! "springsPos" = Some 2%Z.
Proof.
  eexists _, _, _, _. split; [vm_compute; reflexivity|].
  split; [vm_compute; reflexivity|].
  repeat split; vm_compute; reflexivity.
Qed.

End FilterFacts.

Module RowsFacts.

Import Mask Edges Rows.

(** C9.  For the sorted edge index 0 the row is read at the global index of
    local position 0, whatever the inverse permutation holds and even with
    no forward encapsulation at all; for any other index the inverse
    permutation is applied first.  On the edges (3,0), (2,0), (1,0), (0,0)
    the inverse permutation is 3,2,1,0: the row of sorted index 0 is read
    at unsorted edge 0 (not 3), that of sorted index 1 at unsorted edge
    2. *)
Theorem getRowAt_skips_translation_at_zero :
  (∀ (V : Type) (df : Dataframe (V := V)) attributes,
     getRowAt df 0 Edge attributes
       = inr (row_at (default (attributes_edge df) attributes)
                     (getIndexByType (lastMasks df) Edge (Some 0)) 0)) ∧
  (∀ (V : Type) (df : Dataframe (V := V)) attributes encapsulation,
     getRowAt df 0 Edge attributes
       = getRowAt {| forwardsEdges := encapsulation;
                     lastMasks := lastMasks df;
                     attributes_point := attributes_point df;
                     attributes_edge := attributes_edge df |} 0 Edge attributes) ∧
  (∀ (V : Type) (df : Dataframe (V := V)) attributes n,
     getRowAt df (S n) Edge attributes
       = match forwardsEdges df with
         | Some fe =>
             inr (row_at (default (attributes_edge df) attributes)
                         (getIndexByType (lastMasks df) Edge
                            (edgePermutationInverseTyped fe !! S n)) (S n))
         | None => inl "Invalid Host Buffer: forwardsEdges"
         end) ∧
  edgePermutationInverseTyped
    (encapsulateEdges insertion_sort [3; 0; 2; 0; 1; 0; 0; 0] 4) = [3; 2; 1; 0] ∧
  (∃ row0 row1,
     getRowAt {| forwardsEdges :=
                   Some (encapsulateEdges insertion_sort [3; 0; 2; 0; 1; 0; 0; 0] 4);
                 lastMasks := fullDataframeMask;
                 attributes_point := ∅;
                 attributes_edge := {[ "weight" := {| values := [10; 11; 12; 13] |} ]} |}
              0 Edge None = inr row0 ∧
     row0 !! "weight" = Some (Value (Some 10)) ∧
     getRowAt {| forwardsEdges :=
                   Some (encapsulateEdges insertion_sort [3; 0; 2; 0; 1; 0; 0; 0] 4);
                 lastMasks := fullDataframeMask;
                 attributes_point := ∅;
                 attributes_edge := {[ "weight" := {| values := [10; 11; 12; 13] |} ]} |}
              1 Edge None = inr row1 ∧
     row1 !! "weight" = Some (Value (Some 12))).
Proof.
  split; [done|]. split; [done|]. split; [|split; [reflexivity|]].
  - intros V df attributes n. unfold getRowAt, getHostBuffer_forwardsEdges. simpl.
    by destruct (forwardsEdges df).
  - eexists _, _.
    split; [vm_compute; reflexivity|]. split; [vm_compute; reflexivity|].
    split; [vm_compute; reflexivity|]. vm_compute; reflexivity.
Qed.

End RowsFacts.

Module AggFacts.

Import Number Agg.

Lemma scanned_new values :
  scanned (run_count (new values)) (Some (length values)) = Some <$> values.
Proof.
  unfold scanned. simpl. apply list_eq. intros i.
  rewrite !list_lookup_fmap.
  destruct (decide (i < length values)) as [Hi|Hi].
  - rewrite lookup_seq_lt by done. simpl.
    by destruct (lookup_lt_is_Some_2 values i Hi) as [v ->].
  - rewrite lookup_seq_ge by lia. simpl.
    by rewrite (proj2 (lookup_ge_None values i)) by lia.
Qed.

Lemma numeric_scan_sum st values :
  ns_sum (foldl numeric_step st (Some <$> values))
    = foldl (λ s v, (s + parseFloat v)%float) (ns_sum st) (defined_values values).
Proof.
  revert st. induction values as [|v values IH]; intros st; [done|].
  unfold defined_values in *. rewrite fmap_cons, filter_cons. cbn [foldl].
  rewrite IH. unfold numeric_step.
  destruct (numberSignifiesUndefined v) eqn:Hv.
  - rewrite decide_False by done. done.
  - rewrite decide_True by done. cbn [foldl].
    by destruct (v <? ns_minValue st)%float, (ns_maxValue st <? v)%float.
Qed.

(** C6.  On a column's fresh aggregation object the numeric aggregation
    sets [averageValue] to the sum of the defined values divided by the
    length of the column, undefined positions included: the column
    1, NaN, 2 averages to 3/3 = 1, not to 3/2. *)
Theorem averageValue_divides_by_column_length :
  (∀ values,
     agg_averageValue (aggregations (fixedAllocationNumericAggregations (new values)))
       = Some (Num (sum_of (defined_values values) / of_nat (length values))%float)) ∧
  agg_averageValue
    (aggregations (fixedAllocationNumericAggregations (new [1; nan; 2]%float)))
    = Some (Num 1%float) ∧
  length (defined_values [1; nan; 2]%float) = 2.
Proof.
  split; [|split; vm_compute; reflexivity].
  intros values. unfold fixedAllocationNumericAggregations.
  unfold getAggregationByType. cbn [new aggregations agg_count].
  change (agg_count (aggregations (run_count (new values))))
    with (Some (length values)).
  rewrite scanned_new, numeric_scan_sum. done.
Qed.

(** C5 at failing inputs: on the strictly decreasing column 3, 2, 1 the
    scan ends with [maxValue] at [-Infinity] (the minimum, 1, is right); on
    the one-value column 5 as well; on 9, 5, 7 it ends with 7.  The values
    are the same through [getAggregationByType]. *)
Theorem maxValue_missed_when_first_value_is_largest :
  agg_maxValue (aggregations (fixedAllocationNumericAggregations (new [3; 2; 1]%float)))
    = Some (Num neg_infinity) ∧
  agg_minValue (aggregations (fixedAllocationNumericAggregations (new [3; 2; 1]%float)))
    = Some (Num 1%float) ∧
  agg_maxValue (aggregations (fixedAllocationNumericAggregations (new [5]%float)))
    = Some (Num neg_infinity) ∧
  agg_maxValue (aggregations (fixedAllocationNumericAggregations (new [9; 5; 7]%float)))
    = Some (Num 7%float) ∧
  (getAggregationByType agg_maxValue run_numeric (new [3; 2; 1]%float)).2
    = Some (Num neg_infinity).
Proof. repeat split; vm_compute; reflexivity. Qed.

Section Distinct.

Variable NumberToString : float → string.

Lemma distinct_step_frozen limit st values :
  limit < ds_numDistinct st →
  ds_distinctCounts (foldl (distinct_step NumberToString limit) st values)
    = ds_distinctCounts st ∧
  ds_numDistinct (foldl (distinct_step NumberToString limit) st values)
    = ds_numDistinct st.
Proof.
  revert st. induction values as [|v values IH]; intros st Hlt; [done|].
  cbn [foldl].
  assert (ds_distinctCounts (distinct_step NumberToString limit st v)
            = ds_distinctCounts st ∧
          ds_numDistinct (distinct_step NumberToString limit st v)
            = ds_numDistinct st) as [Hc Hn].
  { unfold distinct_step. destruct (valueSignifiedUndefined v); [done|].
    destruct (if (_ <? _)%float then _ else _) as [minValue maxValue].
    apply Nat.ltb_lt in Hlt. by rewrite Hlt. }
  destruct (IH (distinct_step NumberToString limit st v)) as [IHc IHn]; [lia|].
  split; congruence.
Qed.

Lemma countDistinct_new limit values :
  agg_distinctValues
    (aggregations (countDistinct NumberToString (Some limit) (new values)))
    = Some (ds_distinctCounts
              (foldl (distinct_step NumberToString limit)
                     {| ds_distinctCounts := ∅; ds_numDistinct := 0;
                        ds_minValue := infinity; ds_maxValue := neg_infinity |}
                     (Some <$> values))) ∧
  agg_countDistinct
    (aggregations (countDistinct NumberToString (Some limit) (new values)))
    = Some (ds_numDistinct
              (foldl (distinct_step NumberToString limit)
                     {| ds_distinctCounts := ∅; ds_numDistinct := 0;
                        ds_minValue := infinity; ds_maxValue := neg_infinity |}
                     (Some <$> values))).
Proof.
  unfold countDistinct, getAggregationByType.
  cbn [new aggregations agg_count].
  change (agg_count (aggregations (run_count (new values))))
    with (Some (length values)).
  rewrite scanned_new. done.
Qed.

(** C4, amended.  On a column [seen ++ rest] with a fresh aggregation
    object: if more than [limit] distinct values have been counted by the
    end of [seen], then [countDistinct(limit)] leaves in [distinctValues]
    and [countDistinct] what the scan of [seen] alone gives.  No value of
    [rest] adds a key, and none increments the count of a key already
    there. *)
Theorem countDistinct_frozen_past_limit limit seen rest :
  limit < ds_numDistinct
            (foldl (distinct_step NumberToString limit)
                   {| ds_distinctCounts := ∅; ds_numDistinct := 0;
                      ds_minValue := infinity; ds_maxValue := neg_infinity |}
                   (Some <$> seen)) →
  agg_distinctValues
    (aggregations (countDistinct NumberToString (Some limit) (new (seen ++ rest))))
    = agg_distinctValues
        (aggregations (countDistinct NumberToString (Some limit) (new seen))) ∧
  agg_countDistinct
    (aggregations (countDistinct NumberToString (Some limit) (new (seen ++ rest))))
    = agg_countDistinct
        (aggregations (countDistinct NumberToString (Some limit) (new seen))).
Proof.
  intros Hpast.
  destruct (countDistinct_new limit (seen ++ rest)) as [-> ->].
  destruct (countDistinct_new limit seen) as [-> ->].
  rewrite fmap_app, foldl_app.
  destruct (distinct_step_frozen limit _ (Some <$> rest) Hpast) as [-> ->].
  done.
Qed.

End Distinct.

(** The theorem with limit 0 after the column 1: the values 2 and 1 that
    follow change nothing. *)
Lemma countDistinct_frozen_past_limit_witness :
  agg_distinctValues
    (aggregations (countDistinct NumberToString_integral (Some 0)
                     (new ([1] ++ [2; 1])%float)))
    = agg_distinctValues
        (aggregations (countDistinct NumberToString_integral (Some 0) (new [1]%float))) ∧
  agg_countDistinct
    (aggregations (countDistinct NumberToString_integral (Some 0)
                     (new ([1] ++ [2; 1])%float)))
    = agg_countDistinct
        (aggregations (countDistinct NumberToString_integral (Some 0) (new [1]%float))).
Proof.
  apply (countDistinct_frozen_past_limit NumberToString_integral 0 [1]%float [2; 1]%float).
  vm_compute. lia.
Defined.

(** C4 as stated fails: with limit 0 on the column 1, 2, 1 the second 1
    comes after more than 0 distinct values were seen, and its key, already
    in the map, keeps the count 1. *)
Lemma countDistinct_stops_counting_seen_keys :
  agg_distinctValues
    (aggregations (countDistinct NumberToString_integral (Some 0) (new [1; 2; 1]%float)))
    = Some {[ "1" := 1 ]} ∧
  agg_distinctValues
    (aggregations (countDistinct NumberToString_integral (Some 0) (new [1; 2; 1]%float)))
    ≠ Some {[ "1" := 2 ]} ∧
  agg_countDistinct
    (aggregations (countDistinct NumberToString_integral (Some 0) (new [1; 2; 1]%float)))
    = Some 1.
Proof.
  split; [vm_compute; reflexivity|]. split; [|vm_compute; reflexivity].
  vm_compute. discriminate.
Qed.

End AggFacts.

Module HistogramFacts.

Import Number Agg Histogram.

(** C10 at a failing input: the column 9, 5, 7 with every index supplied and
    no binning given.  The binning is computed from the aggregated maximum
    7 (see C5): three bins of width 1 from 5.  The value 9 gets the bin
    identifier 4, and the increment makes a [NaN] entry at 4, outside the
    three bins. *)
Theorem histogram_increments_outside_bins (Math_log : float → float) :
  ∃ r,
    (histogram Math_log NumberToString_integral (new [9; 5; 7]%float)
               None None [0; 1; 2]).2 = Result r ∧
    h_numBins r = 3%float ∧ h_binWidth r = 1%float ∧
    h_minValue r = 5%float ∧ h_maxValue r = 7%float ∧
    binId (h_minValue r) (h_binWidth r) 9 = 4%Z ∧
    h_bins r !! 4%Z = Some NotANumber ∧
    h_bins r !! 0%Z = Some (Count 1) ∧ h_bins r !! 1%Z = Some (Count 0) ∧
    h_bins r !! 2%Z = Some (Count 1) ∧ h_bins r !! 3%Z = None.
Proof.
  eexists. split; [vm_compute; reflexivity|].
  repeat split; vm_compute; reflexivity.
Qed.

End HistogramFacts.

Module FloatOrder.

Lemma SFcompare_refl f : f ≠ S754_nan → SFcompare f f = Some Eq.
Proof.
  destruct f as [s|s| |s m e]; try done; intros _; simpl.
  - by destruct s.
  - rewrite Z.compare_refl, Pos.compare_cont_refl. by destruct s.
Qed.

Lemma SFcompare_total f g :
  f ≠ S754_nan → g ≠ S754_nan →
  ∃ c, SFcompare f g = Some c ∧ SFcompare g f = Some (CompOpp c).
Proof.
  destruct f as [s|s| |s m e], g as [s'|s'| |s' m' e']; try done; intros _ _; simpl;
    try (eexists; split; [reflexivity|]; by repeat case_match).
  eexists; split; [reflexivity|].
  rewrite (Z.compare_antisym e e'), !Pos.compare_cont_spec; simpl.
  rewrite (Pos.compare_antisym m m').
  destruct s, s'; simpl; try done;
    destruct (e ?= e')%Z; simpl; try done;
    by destruct (m ?= m')%positive.
Qed.

Lemma SFcompare_lt_trans f g h c :
  SFcompare f g = Some Lt → SFcompare g h = Some c → c ≠ Gt →
  SFcompare f h = Some Lt.
Proof.
  destruct f as [s|s| |s m e], g as [s'|s'| |s' m' e'], h as [s''|s''| |s'' m'' e''];
    simpl; try done;
    repeat match goal with b : bool |- _ => destruct b end; simpl; try done;
    try (intros ? [= <-] ?; done).
  all: rewrite ?Pos.compare_cont_spec; simpl.
  all: intros H1 [= <-] H2; f_equal; revert H1 H2.
  all: destruct (Z.compare_spec e e'), (Z.compare_spec e' e''), (Z.compare_spec e e'');
       try done; try lia; simpl.
  all: destruct (Pos.compare_spec m m'), (Pos.compare_spec m' m''), (Pos.compare_spec m m'');
       simpl; try done; try lia.
Qed.

Lemma SFcompare_le_trans f g h c1 c2 :
  SFcompare f g = Some c1 → c1 ≠ Gt → SFcompare g h = Some c2 → c2 ≠ Gt →
  ∃ c3, SFcompare f h = Some c3 ∧ c3 ≠ Gt.
Proof.
  intros H1 Hc1 H2 Hc2. destruct c1; [|by eauto using SFcompare_lt_trans|done].
  assert (f ≠ S754_nan) as Hf by (by destruct f).
  assert (g ≠ S754_nan) as Hg by (destruct f, g; done).
  assert (h ≠ S754_nan) as Hh by (destruct g, h; done).
  destruct (SFcompare_total f h Hf Hh) as (c3 & H3 & H3').
  exists c3. split; [done|]. intros ->. simpl in H3'.
  (* h < f and f = g give h < g, against g <= h *)
  pose proof (SFcompare_lt_trans h f g Eq H3' H1 ltac:(done)) as Hlt.
  destruct (SFcompare_total g h Hg Hh) as (c & Hc & Hc').
  rewrite H2 in Hc. injection Hc as <-. rewrite Hlt in Hc'.
  destruct c2; done.
Qed.

(** A number: a double that is not [NaN]. *)
Lemma is_nan_false x : PrimFloat.is_nan x = false ↔ Prim2SF x ≠ S754_nan.
Proof.
  unfold PrimFloat.is_nan. rewrite FloatAxioms.eqb_spec. unfold SFeqb. split.
  - intros H Hn. rewrite Hn in H. done.
  - intros H. by rewrite SFcompare_refl.
Qed.

Lemma leb_refl x : PrimFloat.is_nan x = false → (x <=? x)%float = true.
Proof.
  intros H%is_nan_false. rewrite FloatAxioms.leb_spec. unfold SFleb. by rewrite SFcompare_refl.
Qed.

Lemma ltb_leb x y : (x <? y)%float = true → (x <=? y)%float = true.
Proof.
  rewrite FloatAxioms.ltb_spec, FloatAxioms.leb_spec. unfold SFltb, SFleb.
  by destruct (SFcompare _ _) as [[]|].
Qed.

Lemma not_ltb_leb x y :
  PrimFloat.is_nan x = false → PrimFloat.is_nan y = false →
  (x <? y)%float = false → (y <=? x)%float = true.
Proof.
  intros Hx%is_nan_false Hy%is_nan_false. rewrite FloatAxioms.ltb_spec, FloatAxioms.leb_spec.
  unfold SFltb, SFleb.
  destruct (SFcompare_total _ _ Hx Hy) as (c & -> & ->). by destruct c.
Qed.

Lemma ltb_leb_trans x y z :
  (x <? y)%float = true → (y <=? z)%float = true → (x <=? z)%float = true.
Proof.
  rewrite FloatAxioms.ltb_spec, !FloatAxioms.leb_spec. unfold SFltb, SFleb. intros H1 H2.
  destruct (SFcompare (Prim2SF x) (Prim2SF y)) as [[]|] eqn:E1; try done.
  destruct (SFcompare (Prim2SF y) (Prim2SF z)) as [c|] eqn:E2; [|done].
  rewrite (SFcompare_lt_trans _ _ _ c E1 E2); [done|]. by destruct c.
Qed.

Lemma leb_trans x y z :
  (x <=? y)%float = true → (y <=? z)%float = true → (x <=? z)%float = true.
Proof.
  rewrite !FloatAxioms.leb_spec. unfold SFleb. intros H1 H2.
  destruct (SFcompare (Prim2SF x) (Prim2SF y)) as [c1|] eqn:E1; [|done].
  destruct (SFcompare (Prim2SF y) (Prim2SF z)) as [c2|] eqn:E2; [|done].
  destruct (SFcompare_le_trans _ _ _ c1 c2 E1 ltac:(by destruct c1) E2
              ltac:(by destruct c2)) as (c3 & -> & H3).
  by destruct c3.
Qed.

Lemma not_below_infinity v :
  PrimFloat.is_nan v = false → (v <? infinity)%float = false → v = infinity.
Proof.
  intros Hv%is_nan_false. rewrite FloatAxioms.ltb_spec. unfold SFltb.
  intros Hlt. apply Prim2SF_inj.
  change (Prim2SF infinity) with (S754_infinity false) in *.
  destruct (Prim2SF v) as [s|s| |s m e]; try done; simpl in Hlt;
    by destruct s.
Qed.

End FloatOrder.

Module MinMaxFacts.

Import Number Agg MinMax FloatOrder.

Lemma defined_is_number v :
  numberSignifiesUndefined v = false → PrimFloat.is_nan v = false.
Proof. unfold numberSignifiesUndefined. by intros [? _]%orb_false_elim. Qed.

Lemma defined_values_cons v values :
  defined_values (v :: values) =
    if numberSignifiesUndefined v then defined_values values
    else v :: defined_values values.
Proof.
  unfold defined_values. rewrite filter_cons.
  destruct (numberSignifiesUndefined v); by case_decide.
Qed.

Lemma running_min_spec (l : list float) : ∀ m0,
  PrimFloat.is_nan m0 = false → Forall (λ v, PrimFloat.is_nan v = false) l →
  PrimFloat.is_nan (foldl (λ m v, if (v <? m)%float then v else m) m0 l) = false ∧
  (foldl (λ m v, if (v <? m)%float then v else m) m0 l <=? m0)%float = true ∧
  (∀ v, v ∈ l →
     (foldl (λ m v, if (v <? m)%float then v else m) m0 l <=? v)%float = true) ∧
  (foldl (λ m v, if (v <? m)%float then v else m) m0 l = m0 ∨
   foldl (λ m v, if (v <? m)%float then v else m) m0 l ∈ l).
Proof.
  induction l as [|v l IH]; intros m0 Hm0 Hl.
  - simpl. split; [done|]. split; [by apply leb_refl|].
    split; [by intros v Hv%elem_of_nil|]. by left.
  - apply Forall_cons in Hl as [Hv Hl]. cbn [foldl].
    destruct (v <? m0)%float eqn:Hlt.
    + destruct (IH v Hv Hl) as (Hn & Hle & Hall & Hin).
      split; [done|]. split.
      { eapply leb_trans; [exact Hle|]. by apply ltb_leb. }
      split.
      { intros w [->|Hw]%elem_of_cons; [done|by apply Hall]. }
      right. destruct Hin as [->|Hin]; [by left|by right].
    + destruct (IH m0 Hm0 Hl) as (Hn & Hle & Hall & Hin).
      split; [done|]. split; [done|]. split.
      { intros w [->|Hw]%elem_of_cons; [|by apply Hall].
        eapply leb_trans; [exact Hle|]. by apply not_ltb_leb. }
      destruct Hin as [->|Hin]; [by left|right; by right].
Qed.

Lemma running_max_spec (l : list float) : ∀ m0,
  PrimFloat.is_nan m0 = false → Forall (λ v, PrimFloat.is_nan v = false) l →
  PrimFloat.is_nan (foldl (λ m v, if (m <? v)%float then v else m) m0 l) = false ∧
  (m0 <=? foldl (λ m v, if (m <? v)%float then v else m) m0 l)%float = true ∧
  (∀ v, v ∈ l →
     (v <=? foldl (λ m v, if (m <? v)%float then v else m) m0 l)%float = true) ∧
  (foldl (λ m v, if (m <? v)%float then v else m) m0 l = m0 ∨
   foldl (λ m v, if (m <? v)%float then v else m) m0 l ∈ l).
Proof.
  induction l as [|v l IH]; intros m0 Hm0 Hl.
  - simpl. split; [done|]. split; [by apply leb_refl|].
    split; [by intros v Hv%elem_of_nil|]. by left.
  - apply Forall_cons in Hl as [Hv Hl]. cbn [foldl].
    destruct (m0 <? v)%float eqn:Hlt.
    + destruct (IH v Hv Hl) as (Hn & Hle & Hall & Hin).
      split; [done|]. split.
      { eapply leb_trans; [|exact Hle]. by apply ltb_leb. }
      split.
      { intros w [->|Hw]%elem_of_cons; [done|by apply Hall]. }
      right. destruct Hin as [->|Hin]; [by left|by right].
    + destruct (IH m0 Hm0 Hl) as (Hn & Hle & Hall & Hin).
      split; [done|]. split; [done|]. split.
      { intros w [->|Hw]%elem_of_cons; [|by apply Hall].
        eapply leb_trans; [|exact Hle]. by apply not_ltb_leb. }
      destruct Hin as [->|Hin]; [by left|right; by right].
Qed.

Lemma defined_values_numbers values :
  Forall (λ v, PrimFloat.is_nan v = false) (defined_values values).
Proof.
  apply Forall_forall. intros v Hv. apply defined_is_number.
  unfold defined_values in Hv. by apply list_elem_of_filter in Hv as [? _].
Qed.

Lemma numeric_scan_min values : ∀ st,
  ns_minValue (foldl numeric_step st (Some <$> values))
    = foldl (λ m v, if (v <? m)%float then v else m) (ns_minValue st)
            (defined_values values).
Proof.
  induction values as [|v values IH]; intros st; [done|].
  rewrite fmap_cons, defined_values_cons. cbn [foldl]. rewrite IH.
  unfold numeric_step. destruct (numberSignifiesUndefined v); [done|].
  cbn [foldl]. by destruct (v <? ns_minValue st)%float, (ns_maxValue st <? v)%float.
Qed.

(** The numeric aggregation's [minValue] on a fresh aggregation object is
    the least of the column's defined values: not above any of them, and
    one of them; [Infinity] when the column has none. *)
Theorem minValue_is_least_defined_value values :
  ∃ m,
    agg_minValue (aggregations (fixedAllocationNumericAggregations (new values)))
      = Some (Num m) ∧
    (∀ v, v ∈ defined_values values → (m <=? v)%float = true) ∧
    (m ∈ defined_values values ∨ defined_values values = [] ∧ m = infinity).
Proof.
  unfold fixedAllocationNumericAggregations, getAggregationByType.
  cbn [new aggregations agg_count].
  change (agg_count (aggregations (run_count (new values))))
    with (Some (length values)).
  rewrite AggFacts.scanned_new, numeric_scan_min. cbn [ns_minValue].
  eexists. split; [reflexivity|].
  destruct (running_min_spec (defined_values values) infinity eq_refl
              (defined_values_numbers values)) as (Hn & Hle & Hall & Hin).
  split; [done|].
  destruct Hin as [Hinf|Hin]; [|by left].
  destruct (defined_values values) as [|v l] eqn:Hd; [by right|].
  left. rewrite Hinf.
  assert ((infinity <=? v)%float = true) as Hv.
  { rewrite <- Hinf. apply Hall. by left. }
  assert (v = infinity) as ->; [|by left].
  pose proof (defined_values_numbers values) as Hnum. rewrite Hd in Hnum.
  apply Forall_cons in Hnum as [Hvn _].
  apply not_below_infinity; [done|].
  destruct (v <? infinity)%float eqn:Hlt; [|done].
  pose proof (ltb_leb_trans _ _ _ Hlt Hv) as Hvv.
  revert Hlt Hv. rewrite FloatAxioms.ltb_spec, FloatAxioms.leb_spec.
  unfold SFltb, SFleb.
  apply is_nan_false in Hvn.
  destruct (SFcompare_total _ _ Hvn (ltac:(done) : Prim2SF infinity ≠ S754_nan))
    as (c & -> & ->). by destruct c.
Qed.

Lemma generic_scan_defined values : ∀ st,
  foldl generic_step st (Some <$> values)
    = foldl generic_step st (Some <$> defined_values values).
Proof.
  induction values as [|v values IH]; intros st; [done|].
  rewrite fmap_cons, defined_values_cons. cbn [foldl].
  destruct (numberSignifiesUndefined v) eqn:Hv.
  - rewrite IH. unfold generic_step at 2. simpl. by rewrite Hv.
  - rewrite fmap_cons. cbn [foldl]. apply IH.
Qed.

Lemma generic_scan_running l : ∀ lo hi,
  Forall (λ v, numberSignifiesUndefined v = false) l →
  foldl generic_step (Some lo, Some hi) (Some <$> l)
    = (Some (foldl (λ m v, if (v <? m)%float then v else m) lo l),
       Some (foldl (λ m v, if (m <? v)%float then v else m) hi l)).
Proof.
  induction l as [|v l IH]; intros lo hi Hl; [done|].
  apply Forall_cons in Hl as [Hv Hl]. rewrite fmap_cons. cbn [foldl].
  unfold generic_step at 2. simpl. rewrite Hv.
  destruct (v <? lo)%float, (hi <? v)%float; by rewrite IH.
Qed.

(** [minMaxGenericAggregations] on a fresh aggregation object of a column
    of numbers: with no defined value both entries are [null]; otherwise
    [minValue] and [maxValue] are defined values of the column, the first
    not above and the second not below any defined value. *)
Theorem minMaxGenericAggregations_bounds values :
  match defined_values values with
  | [] =>
      agg_minValue (aggregations (minMaxGenericAggregations (new values))) = Some Null ∧
      agg_maxValue (aggregations (minMaxGenericAggregations (new values))) = Some Null
  | _ :: _ =>
      ∃ lo hi,
        agg_minValue (aggregations (minMaxGenericAggregations (new values)))
          = Some (Num lo) ∧
        agg_maxValue (aggregations (minMaxGenericAggregations (new values)))
          = Some (Num hi) ∧
        lo ∈ defined_values values ∧ hi ∈ defined_values values ∧
        ∀ v, v ∈ defined_values values →
          (lo <=? v)%float = true ∧ (v <=? hi)%float = true
  end.
Proof.
  unfold minMaxGenericAggregations, getAggregationByType.
  cbn [new aggregations agg_count agg_dataType].
  change (agg_count (aggregations (run_count (new values))))
    with (Some (length values)).
  change (agg_dataType (aggregations (run_count (new values)))) with (@None DataType).
  cbv beta iota zeta.
  assert (scanned (inferDataType (run_count (new values))) (Some (length values))
          = Some <$> values) as ->.
  { rewrite <- AggFacts.scanned_new. done. }
  rewrite generic_scan_defined.
  pose proof (defined_values_numbers values) as Hnum.
  assert (Forall (λ v, numberSignifiesUndefined v = false) (defined_values values))
    as Hdef.
  { apply Forall_forall. intros v Hv. unfold defined_values in Hv.
    by apply list_elem_of_filter in Hv as [? _]. }
  destruct (defined_values values) as [|v l]; [done|].
  apply Forall_cons in Hdef as [Hv Hl]. apply Forall_cons in Hnum as [Hvn Hln].
  rewrite fmap_cons. cbn [foldl].
  assert (generic_step (None, None) (Some v) = (Some v, Some v)) as ->
    by (unfold generic_step; simpl; by rewrite Hv).
  rewrite generic_scan_running by done.
  destruct (running_min_spec l v Hvn Hln) as (_ & Hle & Hall & Hin).
  destruct (running_max_spec l v Hvn Hln) as (_ & Hge & Hall' & Hin').
  eexists _, _. split; [reflexivity|]. split; [reflexivity|].
  split; [destruct Hin as [->|?]; [by left|by right]|].
  split; [destruct Hin' as [->|?]; [by left|by right]|].
  intros w [->|Hw]%elem_of_cons; [done|]. split; [by apply Hall|by apply Hall'].
Qed.

Lemma type_scan values : ∀ st,
  ts_isNumeric st = true →
  ts_isNumeric (foldl inferDataType_step st (Some <$> values)) = true ∧
  ts_isIntegral (foldl inferDataType_step st (Some <$> values))
    = from_option isIntegral (ts_isIntegral st) (last (defined_values values)).
Proof.
  induction values as [|v values IH]; intros st Hst; [done|].
  rewrite fmap_cons, defined_values_cons. cbn [foldl].
  unfold inferDataType_step at 2 4. simpl.
  destruct (numberSignifiesUndefined v) eqn:Hv; [by apply IH|].
  rewrite Hst. rewrite (defined_is_number v Hv). simpl.
  match goal with |- context [foldl _ ?s _] => destruct (IH s eq_refl) as [-> ->] end.
  split; [done|]. simpl. rewrite last_cons. by destruct (last _).
Qed.

(** [inferDataType] on a fresh aggregation object of a column of numbers:
    the column is numeric, and whether it counts as integral is decided by
    its last defined value alone (a column with no defined value is
    integral). *)
Theorem inferDataType_follows_last_defined_value values :
  agg_isNumeric (aggregations (inferDataType (new values))) = Some true ∧
  agg_isIntegral (aggregations (inferDataType (new values)))
    = Some (from_option isIntegral true (last (defined_values values))) ∧
  agg_dataType (aggregations (inferDataType (new values)))
    = Some (if from_option isIntegral true (last (defined_values values))
            then DTinteger else DTnumber).
Proof.
  unfold inferDataType, getAggregationByType.
  cbn [new aggregations agg_count].
  change (agg_count (aggregations (run_count (new values))))
    with (Some (length values)).
  rewrite AggFacts.scanned_new.
  cbn [updateAggregations aggregations agg_isNumeric agg_isIntegral agg_dataType].
  match goal with |- context [foldl _ ?s _] => destruct (type_scan values s eq_refl) as [-> ->] end.
  done.
Qed.

End MinMaxFacts.

Module DistinctFacts.

Import Number Agg MinMaxFacts.

Section Distinct.

Variable NumberToString : float → string.

Lemma distinct_scan_counts limit values :
  let st := foldl (distinct_step NumberToString limit)
                  {| ds_distinctCounts := ∅; ds_numDistinct := 0;
                     ds_minValue := infinity; ds_maxValue := neg_infinity |}
                  (Some <$> values) in
  size (ds_distinctCounts st) = ds_numDistinct st ∧
  ds_numDistinct st ≤ limit + 1 ∧
  (ds_numDistinct st ≤ limit →
   ∀ k, ds_distinctCounts st !! k =
     if decide (length (filter (λ v, NumberToString v = k) (defined_values values)) = 0)
     then None
     else Some (length (filter (λ v, NumberToString v = k) (defined_values values)))).
Proof.
  induction values as [|v values IH] using rev_ind.
  - simpl. split; [done|]. split; [lia|]. intros _ k. by rewrite lookup_empty.
  - rewrite fmap_app, foldl_app. cbn [fmap list_fmap foldl].
    set (st := foldl _ _ (Some <$> values)) in *.
    cbv zeta in IH. destruct IH as (Hsize & Hbound & Hcounts).
    assert (defined_values (values ++ [v]) =
            defined_values values ++ (if numberSignifiesUndefined v then [] else [v]))
      as Hdef.
    { unfold defined_values. rewrite filter_app. f_equal.
      rewrite filter_cons, filter_nil. destruct (numberSignifiesUndefined v); by case_decide. }
    rewrite Hdef. unfold distinct_step. simpl.
    destruct (numberSignifiesUndefined v) eqn:Hv.
    { rewrite app_nil_r. done. }
    destruct (if (v <? ds_minValue st)%float then _ else _) as [minValue maxValue].
    destruct (limit <? ds_numDistinct st) eqn:Hlim.
    { apply Nat.ltb_lt in Hlim. simpl. split; [done|]. split; [done|]. lia. }
    apply Nat.ltb_ge in Hlim. specialize (Hcounts Hlim).
    assert (∀ k, length (filter (λ v, NumberToString v = k) (defined_values values ++ [v]))
                 = length (filter (λ v, NumberToString v = k) (defined_values values))
                   + (if decide (NumberToString v = k) then 1 else 0)) as Hadd.
    { intros k. rewrite filter_app, length_app, filter_cons, filter_nil.
      by case_decide. }
    destruct (ds_distinctCounts st !! NumberToString v) as [n|] eqn:Hkey; simpl.
    + split.
      { rewrite <- Hsize. apply map_size_insert_Some. by rewrite Hkey. }
      split; [lia|]. intros _ k. rewrite Hadd.
      destruct (decide (NumberToString v = k)) as [<-|Hne].
      * rewrite lookup_insert_eq. rewrite Hcounts in Hkey.
        case_decide; [done|]. injection Hkey as <-.
        rewrite decide_False by lia. f_equal. lia.
      * rewrite lookup_insert_ne by done. rewrite Hcounts, Nat.add_0_r. done.
    + split.
      { rewrite map_size_insert_None by done. lia. }
      split; [lia|]. intros _ k. rewrite Hadd.
      destruct (decide (NumberToString v = k)) as [<-|Hne].
      * rewrite lookup_insert_eq. rewrite Hcounts in Hkey.
        case_decide as H0; [|done]. rewrite H0. done.
      * rewrite lookup_insert_ne by done. rewrite Hcounts, Nat.add_0_r. done.
Qed.

(** [countDistinct(limit)] on a fresh aggregation object: [countDistinct]
    is the number of keys of [distinctValues] and never passes
    [limit + 1]; when it ends at [limit] or below, [distinctValues] holds
    for each key the number of defined values of the column that print as
    that key, and no key for a text that none prints as. *)
Theorem countDistinct_counts_occurrences limit values :
  ∃ n m,
    agg_countDistinct
      (aggregations (countDistinct NumberToString (Some limit) (new values))) = Some n ∧
    agg_distinctValues
      (aggregations (countDistinct NumberToString (Some limit) (new values))) = Some m ∧
    size m = n ∧ n ≤ limit + 1 ∧
    (n ≤ limit →
     ∀ k, m !! k =
       if decide (length (filter (λ v, NumberToString v = k) (defined_values values)) = 0)
       then None
       else Some (length (filter (λ v, NumberToString v = k) (defined_values values)))).
Proof.
  destruct (AggFacts.countDistinct_new NumberToString limit values) as [-> ->].
  eexists _, _. split; [reflexivity|]. split; [reflexivity|].
  apply distinct_scan_counts.
Qed.

End Distinct.

End DistinctFacts.

Module EncapsulationFacts.

Import TypedArray Edges Degree EdgesFacts.

Lemma count_interval (f : nat → option nat) k a b : ∀ n,
  (∀ i, i < n → f i = Some k ↔ a ≤ i < b) →
  length (filter (λ s, s = Some k) (f <$> seq 0 n)) = b `min` n - a `min` n.
Proof.
  induction n as [|n IH]; intros Hf.
  - simpl. lia.
  - rewrite seq_S, fmap_app, filter_app, length_app. simpl.
    rewrite filter_cons, filter_nil.
    rewrite IH by (intros i Hi; apply Hf; lia).
    destruct (decide (a ≤ n < b)) as [Hin|Hout].
    + rewrite decide_True by (apply Hf; lia). simpl. lia.
    + rewrite decide_False by (rewrite Hf by lia; lia). simpl. lia.
Qed.

Lemma workItem_step_frame E n st k idx :
  idx < k * 4 → ws_items (workItem_step E n st k) !! idx = ws_items st !! idx.
Proof.
  intros Hidx. unfold workItem_step. case_bool_decide.
  - destruct (count_run _ _ _ _ _ _). simpl.
    by rewrite !list_lookup_insert_ne by lia.
  - simpl. by rewrite !list_lookup_insert_ne by lia.
Qed.

Lemma workItem_step_start E n st k :
  k * 4 + 2 < length (ws_items st) →
  ws_items (workItem_step E n st k) !! (k * 4) =
    Some (if bool_decide (ws_lastSrc st = Some (Z.of_nat k))
          then ToInt32 (Z.of_nat (ws_lastPos st)) else (-1)%Z).
Proof.
  intros Hlen. unfold workItem_step. case_bool_decide.
  - destruct (count_run _ _ _ _ _ _). simpl.
    rewrite !list_lookup_insert_ne by lia.
    by rewrite list_lookup_insert_eq by lia.
  - simpl. rewrite !list_lookup_insert_ne by lia.
    by rewrite list_lookup_insert_eq by lia.
Qed.

(** The state of [computeWorkItemsTyped] after the points below [k], on an
    edge array in order of source. *)
Lemma workItems_loop_spec E n numPoints k :
  length E = n * 2 → src_sorted E →
  (Z.of_nat n < 2 ^ 31)%Z → (Z.of_nat numPoints < 2 ^ 31)%Z →
  k ≤ numPoints →
  ∃ cs, work_inv E n numPoints k
          (foldl (workItem_step E n)
                 {| ws_items := replicate (numPoints * 4) 0%Z;
                    ws_lastPos := 0;
                    ws_lastSrc := Z.of_nat <$> E !! 0 |}
                 (seq 0 k)) cs ∧
    ∀ j, j < k →
      cs !! j = Some (out_degree E j) ∧
      sum_list (take j cs) = edges_below E j ∧
      (∀ i, edges_below E j ≤ i < edges_below E j + out_degree E j →
         E !! (i * 2) = Some j) ∧
      ws_items (foldl (workItem_step E n)
                      {| ws_items := replicate (numPoints * 4) 0%Z;
                         ws_lastPos := 0;
                         ws_lastSrc := Z.of_nat <$> E !! 0 |}
                      (seq 0 k)) !! (j * 4)
        = Some (if decide (out_degree E j = 0) then (-1)%Z
                else Z.of_nat (edges_below E j)).
Proof.
  intros HE Hsorted Hn Hnp. induction k as [|k IH]; intros Hk.
  - destruct (workItems_loop_inv E n numPoints 0 HE Hsorted Hn Hnp Hk) as [cs Hcs].
    exists cs. split; [done|]. intros; lia.
  - destruct IH as (cs & Hinv & Hcs); [lia|].
    rewrite seq_S, foldl_app. cbn [foldl].
    set (st := foldl _ _ (seq 0 k)) in *.
    destruct (workItem_step_inv E n numPoints k st cs HE Hsorted Hn Hnp Hk Hinv)
      as [c Hc].
    exists (cs ++ [c]). split; [done|].
    pose proof Hinv as (Hpos & Hlow & Hhigh & Hsrc & Hlen & Hlcs & Hsum & Hitems).
    pose proof Hc as (Hpos' & Hlow' & Hhigh' & _ & _ & _ & Hsum' & _).
    rewrite sum_list_with_app in Hsum'. simpl in Hsum'.
    assert (out_degree E k = c) as Hout.
    { unfold out_degree, sources. rewrite HE, Nat.div_mul by done.
      rewrite (count_interval _ k (ws_lastPos st) (ws_lastPos st + c) n); [lia|].
      intros i Hi. split.
      - intros Hs. split.
        + destruct (decide (ws_lastPos st ≤ i)); [done|].
          pose proof (Hlow i k ltac:(lia) Hs). lia.
        + destruct (decide (i < ws_lastPos st + c)); [done|].
          pose proof (Hhigh' i k ltac:(lia) Hs). lia.
      - intros [Hlo Hhi].
        destruct (lookup_lt_is_Some_2 E (i * 2)) as [s Hs]; [lia|].
        pose proof (Hhigh i s Hlo Hs). pose proof (Hlow' i s ltac:(lia) Hs).
        rewrite Hs. f_equal. lia. }
    assert (edges_below E k = ws_lastPos st) as Hbelow.
    { unfold edges_below. rewrite <- Hsum.
      assert (out_degree E <$> seq 0 k = cs) as ->; [|done].
      apply list_eq_same_length with k; [done|by rewrite length_fmap, length_seq|].
      intros j x y Hj Hx Hy. rewrite list_lookup_fmap, lookup_seq_lt in Hx by done.
      simpl in Hx. destruct (Hcs j Hj) as (Hcj & _). congruence. }
    intros j Hj. destruct (decide (j < k)) as [Hjk|Hjk].
    + destruct (Hcs j Hjk) as (Hcj & Htake & Hblock & Hstart).
      split; [by rewrite lookup_app_l by lia|].
      split; [by rewrite take_app_le by lia|].
      split; [done|].
      rewrite workItem_step_frame by lia. done.
    + assert (j = k) as -> by lia.
      split; [rewrite Hout; by apply list_lookup_middle|].
      split; [rewrite Hbelow, <- Hsum; by rewrite <- Hlcs, take_app_length|].
      split.
      { rewrite Hbelow, Hout. intros i Hi.
        destruct (lookup_lt_is_Some_2 E (i * 2)) as [s Hs]; [lia|].
        pose proof (Hhigh i s ltac:(lia) Hs). pose proof (Hlow' i s ltac:(lia) Hs).
        rewrite Hs. f_equal. lia. }
      rewrite workItem_step_start by lia.
      rewrite Hbelow, Hout. f_equal.
      case_bool_decide as Hlast.
      * destruct (decide (ws_lastPos st < n)) as [Hlt|Hge]; [|by destruct (Hsrc k)].
        rewrite Hlast in Hsrc.
        destruct (E !! (ws_lastPos st * 2)) as [s|] eqn:Hs; [|done].
        simpl in Hsrc. assert (s = k) as -> by (injection Hsrc; lia).
        rewrite decide_False; [rewrite ToInt32_small; [done|lia]|].
        intros ->. pose proof (Hhigh' (ws_lastPos st) k ltac:(lia) Hs). lia.
      * rewrite decide_True; [done|].
        destruct (decide (c = 0)) as [|Hc0]; [done|]. exfalso. apply Hlast.
        destruct (decide (ws_lastPos st < n)) as [Hlt|Hge]; [|lia].
        rewrite Hsrc.
        destruct (lookup_lt_is_Some_2 E (ws_lastPos st * 2)) as [s Hs]; [lia|].
        pose proof (Hhigh _ s (Nat.le_refl _) Hs).
        pose proof (Hlow' (ws_lastPos st) s ltac:(lia) Hs).
        rewrite Hs. simpl. do 2 f_equal. lia.
Qed.

Lemma workItem_step_fourth E n st k j :
  ws_items (workItem_step E n st k) !! (j * 4 + 3) = ws_items st !! (j * 4 + 3).
Proof.
  unfold workItem_step. case_bool_decide.
  - destruct (count_run _ _ _ _ _ _). simpl.
    by rewrite !list_lookup_insert_ne by lia.
  - simpl. by rewrite !list_lookup_insert_ne by lia.
Qed.

Lemma workItems_loop_fourth E n numPoints j : ∀ k,
  ws_items (foldl (workItem_step E n)
                  {| ws_items := replicate (numPoints * 4) 0%Z;
                     ws_lastPos := 0;
                     ws_lastSrc := Z.of_nat <$> E !! 0 |}
                  (seq 0 k)) !! (j * 4 + 3)
    = replicate (numPoints * 4) 0%Z !! (j * 4 + 3).
Proof.
  induction k as [|k IH]; [done|].
  rewrite seq_S, foldl_app. cbn [foldl]. by rewrite workItem_step_fourth.
Qed.

Lemma srcToWorkItem_loop W numPoints k :
  k ≤ numPoints → (Z.of_nat numPoints < 2 ^ 31)%Z →
  (∀ j, j < numPoints → W !! (j * 4 + 2) = Some (Z.of_nat j)) →
  length (foldl (degrees_step W) (replicate numPoints 0%Z, replicate numPoints 0%Z)
                (seq 0 k)).1 = numPoints ∧
  ∀ j, j < k →
    (foldl (degrees_step W) (replicate numPoints 0%Z, replicate numPoints 0%Z)
           (seq 0 k)).1 !! j = Some (Z.of_nat j).
Proof.
  intros Hk Hnp HW. induction k as [|k IH].
  - split; [apply length_replicate|]. intros; lia.
  - destruct IH as [IHlen IHl]; [lia|].
    rewrite seq_S, foldl_app. simpl.
    destruct (foldl _ _ (seq 0 k)) as [s2w deg]. simpl in *.
    unfold degrees_step. rewrite HW by lia. simpl.
    destruct (Z.of_nat k <? 0)%Z eqn:Hneg; [apply Z.ltb_lt in Hneg; lia|].
    rewrite Nat2Z.id. split; [by rewrite length_insert|].
    intros j Hj. destruct (decide (j = k)) as [->|Hne].
    + rewrite list_lookup_insert_eq by lia. by rewrite ToInt32_small by lia.
    + rewrite list_lookup_insert_ne by done. apply IHl. lia.
Qed.

(** *** The start and end table *)

Section StartEnd.

Variables (W : list Z) (numPoints n : nat) (o b : nat → nat).
Hypothesis HW : length W = numPoints * 4.
Hypothesis Hstart : ∀ p, p < numPoints →
  W !! (p * 4) = Some (if decide (o p = 0) then (-1)%Z else Z.of_nat (b p)).
Hypothesis Hnext : ∀ p, b (S p) = b p + o p.
Hypothesis Hall : b numPoints = n.
Hypothesis Hn : (Z.of_nat n < 2 ^ 32)%Z.

Lemma b_mono p q : p ≤ q → b p ≤ b q.
Proof. induction 1 as [|q _ IH]; [done|]. rewrite Hnext. lia. Qed.

Lemma scan_end_spec fuel : ∀ j,
  j < numPoints → numPoints - j ≤ fuel →
  (if bool_decide (scan_end fuel W (W !! (j * 4)) j = Some (-1)%Z)
   then Z.of_nat n else num (scan_end fuel W (W !! (j * 4)) j)) = Z.of_nat (b j).
Proof.
  induction fuel as [|fuel IH]; intros j Hj Hfuel; [lia|].
  cbn [scan_end]. rewrite HW, Nat.div_mul by done. rewrite Hstart by done.
  destruct (decide (o j = 0)) as [Ho|Ho]; simpl.
  - destruct (j + 1 <? numPoints) eqn:Hlt.
    + apply Nat.ltb_lt in Hlt. rewrite IH by lia.
      replace (j + 1) with (S j) by lia. rewrite Hnext. lia.
    + apply Nat.ltb_ge in Hlt. rewrite bool_decide_true by done.
      assert (S j = numPoints) as Hlast by lia.
      rewrite <- Hall, <- Hlast, Hnext. lia.
  - destruct (Z.of_nat (b j) <? 0)%Z eqn:Hneg; [apply Z.ltb_lt in Hneg; lia|].
    simpl. rewrite bool_decide_false; [done|]. intros [=]. lia.
Qed.

Lemma startEnd_step_length out i :
  length (startEnd_step W n out i) = length out.
Proof.
  unfold startEnd_step. destruct (W !! (i * 4)); [|done].
  destruct (_ =? _)%Z; by rewrite !length_insert.
Qed.

Lemma startEnd_loop k :
  k ≤ numPoints - 1 →
  length (foldl (startEnd_step W n) (replicate (numPoints * 2) 0%Z) (seq 0 k))
    = numPoints * 2 ∧
  ∀ p, p < k →
    foldl (startEnd_step W n) (replicate (numPoints * 2) 0%Z) (seq 0 k) !! (p * 2)
      = Some (if decide (o p = 0) then (2 ^ 32 - 1)%Z else Z.of_nat (b p)) ∧
    foldl (startEnd_step W n) (replicate (numPoints * 2) 0%Z) (seq 0 k) !! (p * 2 + 1)
      = Some (if decide (o p = 0) then (2 ^ 32 - 1)%Z else Z.of_nat (b p + o p)).
Proof.
  induction k as [|k IH]; intros Hk.
  - split; [apply length_replicate|]. intros; lia.
  - destruct IH as [IHlen IHl]; [lia|].
    rewrite seq_S, foldl_app. cbn [foldl].
    set (out := foldl _ _ (seq 0 k)) in *.
    split; [by rewrite startEnd_step_length|].
    intros p Hp. destruct (decide (p = k)) as [->|Hne].
    + unfold startEnd_step. cbn [Nat.add]. rewrite Hstart by lia.
      destruct (decide (o k = 0)) as [Ho|Ho].
      * simpl. rewrite list_lookup_insert_ne by lia.
        rewrite !list_lookup_insert_eq by (rewrite ?length_insert; lia). done.
      * destruct (Z.eqb_spec (Z.of_nat (b k)) (-1)) as [|_]; [lia|].
        rewrite list_lookup_insert_ne by lia.
        rewrite !list_lookup_insert_eq by (rewrite ?length_insert; lia).
        pose proof (b_mono k numPoints ltac:(lia)).
        rewrite ToUint32_small by lia. split; [done|].
        rewrite (scan_end_spec (length W) (k + 1)) by lia.
        replace (k + 1) with (S k) by lia. rewrite Hnext.
        pose proof (b_mono (S k) numPoints ltac:(lia)). rewrite Hnext in *.
        by rewrite ToUint32_small by lia.
    + assert (startEnd_step W n out (0 + k) !! (p * 2) = out !! (p * 2) ∧
              startEnd_step W n out (0 + k) !! (p * 2 + 1) = out !! (p * 2 + 1))
        as [-> ->]; [|apply IHl; lia].
      unfold startEnd_step. destruct (W !! _); [|done].
      destruct (_ =? _)%Z; by rewrite !list_lookup_insert_ne by lia.
Qed.

Lemma computeEdgeStartEndIdxs_spec E originals :
  length E = n * 2 →
  length (computeEdgeStartEndIdxs W E originals numPoints) = numPoints * 2 ∧
  ∀ p, p < numPoints →
    computeEdgeStartEndIdxs W E originals numPoints !! (p * 2)
      = Some (if decide (o p = 0) then (2 ^ 32 - 1)%Z else Z.of_nat (b p)) ∧
    computeEdgeStartEndIdxs W E originals numPoints !! (p * 2 + 1)
      = Some (if decide (o p = 0) then (2 ^ 32 - 1)%Z else Z.of_nat (b p + o p)).
Proof.
  intros HE. unfold computeEdgeStartEndIdxs.
  rewrite HE, HW, !Nat.div_mul by done.
  destruct (startEnd_loop (numPoints - 1)) as [Hlen Hl]; [lia|].
  set (out := foldl _ _ _) in *. rewrite Hlen.
  destruct (decide (numPoints = 0)) as [->|Hnz].
  { split; [|intros; lia]. case_bool_decide; reflexivity. }
  assert (ta_get W (Z.of_nat (numPoints * 4) - 4)
          = Some (if decide (o (numPoints - 1) = 0) then (-1)%Z
                  else Z.of_nat (b (numPoints - 1)))) as Hlast.
  { unfold ta_get. destruct (_ <? 0)%Z eqn:Hneg; [apply Z.ltb_lt in Hneg; lia|].
    replace (Z.to_nat (Z.of_nat (numPoints * 4) - 4)) with ((numPoints - 1) * 4) by lia.
    apply Hstart. lia. }
  rewrite Hlast.
  assert (∀ v w, ta_set (ta_set out (Some (Z.of_nat (numPoints * 2) - 2)%Z) v)
                        (Some (Z.of_nat (numPoints * 2) - 1)%Z) w
                 = <[(numPoints - 1) * 2 + 1 := w]> (<[(numPoints - 1) * 2 := v]> out))
    as Hset.
  { intros v w. unfold ta_set.
    assert ((Z.of_nat (numPoints * 2) - 2 <? 0)%Z = false) as -> by (apply Z.ltb_ge; lia).
    assert ((Z.of_nat (numPoints * 2) - 1 <? 0)%Z = false) as -> by (apply Z.ltb_ge; lia).
    f_equal; [lia|f_equal; lia]. }
  rewrite !Hset.
  pose proof (b_mono (numPoints - 1) numPoints ltac:(lia)) as Hmono.
  pose proof (Hnext (numPoints - 1)) as Hnx.
  replace (S (numPoints - 1)) with numPoints in Hnx by lia.
  split; [case_bool_decide; by rewrite !length_insert|].
  intros p Hp. destruct (decide (p = numPoints - 1)) as [->|Hne].
  - destruct (decide (o (numPoints - 1) = 0)) as [Ho|Ho].
    + rewrite bool_decide_false by (by intros []).
      rewrite list_lookup_insert_ne by lia.
      rewrite !list_lookup_insert_eq by (rewrite ?length_insert; lia). done.
    + rewrite bool_decide_true by (intros [=]; lia).
      rewrite list_lookup_insert_ne by lia.
      rewrite !list_lookup_insert_eq by (rewrite ?length_insert; lia).
      simpl. rewrite !ToUint32_small by lia.
      split; [done|]. do 2 f_equal. lia.
  - case_bool_decide; rewrite !list_lookup_insert_ne by lia; apply Hl; lia.
Qed.

End StartEnd.

Section Encapsulation.

Variable sort : (nat → nat → Z) → list nat → list nat.
Hypothesis sort_ok : sort_contract sort.

Lemma computeEdgeList_copy edges n :
  length edges = n * 2 →
  ∀ i, i < n →
    ∃ u, originals (computeEdgeList sort edges) !! i = Some u ∧ u < n ∧
      edgeListTyped (computeEdgeList sort edges) !! (i * 2) = edges !! (u * 2) ∧
      edgeListTyped (computeEdgeList sort edges) !! (i * 2 + 1) = edges !! (u * 2 + 1).
Proof.
  intros Hlen i Hi. unfold computeEdgeList. cbn [originals edgeListTyped].
  rewrite Hlen, Nat.div_mul by done.
  destruct (sort_ok (edge_compare edges) (seq 0 n)) as [Hperm _].
  set (mapped := sort (edge_compare edges) (seq 0 n)) in *.
  assert (length mapped = n) as Hml
    by (by rewrite (Permutation_length Hperm), length_seq).
  assert (∀ v, v ∈ mapped → v < n) as Hlt.
  { intros v Hv. rewrite Hperm in Hv. apply elem_of_seq in Hv. lia. }
  destruct (copy_loop edges mapped n n Hlen) as [_ Hcopy]; [lia|lia|done|].
  rewrite Hlen in Hcopy.
  destruct (lookup_lt_is_Some_2 mapped i) as [u Hu]; [lia|].
  exists u. split; [done|]. split; [apply Hlt; by eapply list_elem_of_lookup_2|].
  by apply Hcopy.
Qed.

Lemma permutation_tables edges numPoints numEdges :
  length edges = numEdges * 2 →
  length (edgePermutation (encapsulateEdges sort edges numPoints)) = numEdges ∧
  length (edgePermutationInverseTyped (encapsulateEdges sort edges numPoints)) = numEdges ∧
  length (edgesTyped (encapsulateEdges sort edges numPoints)) = numEdges * 2 ∧
  (∀ u, u < numEdges →
     ∃ i, edgePermutation (encapsulateEdges sort edges numPoints) !! u = Some i ∧
          edgePermutationInverseTyped (encapsulateEdges sort edges numPoints) !! i = Some u) ∧
  (∀ i u,
     edgePermutationInverseTyped (encapsulateEdges sort edges numPoints) !! i = Some u →
     edgePermutation (encapsulateEdges sort edges numPoints) !! u = Some i) ∧
  (∀ i, i < numEdges →
     ∃ u, edgePermutationInverseTyped (encapsulateEdges sort edges numPoints) !! i = Some u ∧
          u < numEdges ∧
          edgesTyped (encapsulateEdges sort edges numPoints) !! (i * 2)
            = edges !! (u * 2) ∧
          edgesTyped (encapsulateEdges sort edges numPoints) !! (i * 2 + 1)
            = edges !! (u * 2 + 1)).
Proof.
  intros Hlen.
  destruct (computeEdgeList_spec sort sort_ok edges numEdges Hlen)
    as (Hperm & HElen & _ & _).
  pose proof (computeEdgeList_copy edges numEdges Hlen) as Hcopy.
  assert (∀ (P : Encapsulation → Prop),
            (∀ d w s se,
               P {| degreesTyped := d;
                    edgesTyped := edgeListTyped (computeEdgeList sort edges);
                    edgePermutation :=
                      invert (originals (computeEdgeList sort edges))
                             (length (edgeListTyped (computeEdgeList sort edges)) / 2);
                    edgePermutationInverseTyped := originals (computeEdgeList sort edges);
                    numWorkItems := length w; workItemsTyped := w;
                    srcToWorkItem := s; edgeStartEndIdxsTyped := se |}) →
            P (encapsulateEdges sort edges numPoints)) as Hshape.
  { intros P HP. unfold encapsulateEdges. destruct (foldl _ _ _). apply HP. }
  apply Hshape. intros d w s se. cbn [edgePermutation edgePermutationInverseTyped edgesTyped].
  rewrite HElen, Nat.div_mul by done.
  set (el := computeEdgeList sort edges) in *.
  assert (length (originals el) = numEdges) as Hol
    by (by rewrite (Permutation_length Hperm), length_seq).
  assert (NoDup (originals el)) as Hnd by (rewrite Hperm; apply NoDup_seq).
  assert (∀ v, v ∈ originals el → v < numEdges) as Hlt.
  { intros v Hv. rewrite Hperm in Hv. apply elem_of_seq in Hv. lia. }
  split; [apply invert_length|]. split; [done|]. split; [done|]. split.
  { intros u Hu.
    assert (u ∈ originals el) as Hin by (rewrite Hperm; apply elem_of_seq; lia).
    apply list_elem_of_lookup in Hin as [i Hi].
    exists i. split; [|done]. by apply invert_lookup. }
  split; [intros i u Hi; by apply invert_lookup|].
  intros i Hi. destruct (Hcopy i Hi) as (u & Hu & Hun & Hs & Hd). eauto 10.
Qed.

(** [encapsulateEdges] sorts: the two permutation tables have one entry per
    edge and undo each other; the sorted edge [i] is the input edge
    [edgePermutationInverseTyped[i]]; and the sorted edges are in
    ascending order of source, then of destination. *)
Theorem encapsulateEdges_sorts_the_edges edges numPoints numEdges :
  length edges = numEdges * 2 →
  Forall (λ e, e < numPoints) edges →
  (Z.of_nat (numPoints * 4) < 2 ^ 32)%Z →
  (Z.of_nat (length edges) < 2 ^ 32)%Z →
  length (edgePermutation (encapsulateEdges sort edges numPoints)) = numEdges ∧
  length (edgePermutationInverseTyped (encapsulateEdges sort edges numPoints)) = numEdges ∧
  length (edgesTyped (encapsulateEdges sort edges numPoints)) = numEdges * 2 ∧
  (∀ u, u < numEdges →
     ∃ i, edgePermutation (encapsulateEdges sort edges numPoints) !! u = Some i ∧
          edgePermutationInverseTyped (encapsulateEdges sort edges numPoints) !! i = Some u) ∧
  (∀ i, i < numEdges →
     ∃ u, edgePermutationInverseTyped (encapsulateEdges sort edges numPoints) !! i = Some u ∧
          edgesTyped (encapsulateEdges sort edges numPoints) !! (i * 2)
            = edges !! (u * 2) ∧
          edgesTyped (encapsulateEdges sort edges numPoints) !! (i * 2 + 1)
            = edges !! (u * 2 + 1)) ∧
  (∀ i j si di sj dj, i < j →
     edgesTyped (encapsulateEdges sort edges numPoints) !! (i * 2) = Some si →
     edgesTyped (encapsulateEdges sort edges numPoints) !! (i * 2 + 1) = Some di →
     edgesTyped (encapsulateEdges sort edges numPoints) !! (j * 2) = Some sj →
     edgesTyped (encapsulateEdges sort edges numPoints) !! (j * 2 + 1) = Some dj →
     si < sj ∨ si = sj ∧ di ≤ dj).
Proof.
  intros Hlen _ _ _.
  destruct (permutation_tables edges numPoints numEdges Hlen)
    as (Hpl & Hil & HEl & Hperm & _ & Hcopy).
  split; [done|]. split; [done|]. split; [done|]. split; [done|]. split.
  { intros i Hi. destruct (Hcopy i Hi) as (u & Hu & _ & Hs & Hd). eauto. }
  intros i j si di sj dj Hij Hsi Hdi Hsj Hdj.
  assert (j < numEdges) as Hj by (apply lookup_lt_Some in Hsj; lia).
  destruct (Hcopy i ltac:(lia)) as (a & Ha & Han & Has & Had).
  destruct (Hcopy j Hj) as (b & Hb & Hbn & Hbs & Hbd).
  assert (edge_compare edges a b <= 0)%Z as Hcmp.
  { assert (edgePermutationInverseTyped (encapsulateEdges sort edges numPoints)
            = sort (edge_compare edges) (seq 0 numEdges)) as Horig.
    { unfold encapsulateEdges. destruct (foldl _ _ _).
      cbn [edgePermutationInverseTyped]. unfold computeEdgeList. cbn [originals].
      by rewrite Hlen, Nat.div_mul by done. }
    rewrite Horig in Ha, Hb.
    destruct (sort_ok (edge_compare edges) (seq 0 numEdges)) as [_ Hsorted].
    specialize (Hsorted (edge_compare_consistent edges numEdges Hlen)).
    apply (StronglySorted_lookup (λ a b, (edge_compare edges a b <= 0)%Z)
             _ i j a b Hsorted Hij Ha Hb). }
  destruct (edge_compare_defined edges numEdges a b Hlen Han Hbn)
    as (sa&da&sb&db&H1&H2&H3&H4&Heq).
  rewrite Heq in Hcmp. rewrite Has in Hsi. rewrite Had in Hdi.
  rewrite Hbs in Hsj. rewrite Hbd in Hdj. simplify_eq.
  destruct (Z.eqb_spec (Z.of_nat si - Z.of_nat sj) 0); lia.
Qed.

Lemma sorted_sources edges n :
  length edges = n * 2 →
  sources (edgeListTyped (computeEdgeList sort edges)) ≡ₚ sources edges.
Proof.
  intros Hlen.
  destruct (computeEdgeList_spec sort sort_ok edges n Hlen) as (Hperm & HElen & _ & _).
  unfold sources. rewrite HElen, Hlen, Nat.div_mul by done.
  assert (length (originals (computeEdgeList sort edges)) = n) as Hol
    by (by rewrite (Permutation_length Hperm), length_seq).
  trans ((λ u, edges !! (u * 2)) <$> originals (computeEdgeList sort edges));
    [|by rewrite Hperm].
  match goal with |- ?l ≡ₚ ?k => assert (l = k) as ->; [|done] end.
  apply list_eq. intros i. rewrite !list_lookup_fmap.
  destruct (decide (i < n)) as [Hi|Hi].
  - rewrite lookup_seq_lt by done.
    destruct (computeEdgeList_copy edges n Hlen i Hi) as (u & Hu & _ & Hs & _).
    rewrite Hu. cbn [fmap option_fmap option_map Nat.add]. by rewrite Hs.
  - rewrite lookup_seq_ge by lia.
    by rewrite (proj2 (lookup_ge_None _ i)) by lia.
Qed.

Lemma sorted_out_degree edges n p :
  length edges = n * 2 →
  out_degree (edgeListTyped (computeEdgeList sort edges)) p = out_degree edges p.
Proof.
  intros Hlen. unfold out_degree. by rewrite (sorted_sources edges n Hlen).
Qed.

Lemma sorted_edges_below edges n p :
  length edges = n * 2 →
  edges_below (edgeListTyped (computeEdgeList sort edges)) p = edges_below edges p.
Proof.
  intros Hlen. unfold edges_below. f_equal. apply list_fmap_ext.
  intros i q _. by apply sorted_out_degree with n.
Qed.

Lemma degree_table edges numPoints numEdges :
  length edges = numEdges * 2 →
  Forall (λ e, e < numPoints) edges →
  (Z.of_nat (numPoints * 4) < 2 ^ 32)%Z →
  (Z.of_nat (length edges) < 2 ^ 32)%Z →
  length (degreesTyped (encapsulateEdges sort edges numPoints)) = numPoints ∧
  length (srcToWorkItem (encapsulateEdges sort edges numPoints)) = numPoints ∧
  ∀ p, p < numPoints →
    degreesTyped (encapsulateEdges sort edges numPoints) !! p
      = Some (Z.of_nat (out_degree edges p)) ∧
    srcToWorkItem (encapsulateEdges sort edges numPoints) !! p = Some (Z.of_nat p).
Proof.
  intros Hlen Hvalid Hnp Hne.
  destruct (computeEdgeList_spec sort sort_ok edges numEdges Hlen)
    as (Hperm & HElen & HEin & HEsorted).
  pose proof (sorted_out_degree edges numEdges) as Hout.
  unfold encapsulateEdges.
  set (el := computeEdgeList sort edges) in *.
  set (E := edgeListTyped el) in *.
  unfold computeWorkItemsTyped, workItems_loop.
  rewrite HElen, Nat.div_mul by done.
  destruct (workItems_loop_spec E numEdges numPoints numPoints HElen HEsorted)
    as (cs & Hinv & Hcs); [lia|lia|lia|].
  set (st := foldl (workItem_step E numEdges) _ (seq 0 numPoints)) in *.
  destruct Hinv as (Hpos & _ & _ & _ & _ & Hlcs & Hsum & Hitems).
  destruct (degrees_loop (ws_items st) numPoints cs numPoints) as [Hdlen Hdeg];
    [lia|done|done| |].
  { intros c Hc. pose proof (sum_list_with_in c id cs Hc) as Hle.
    unfold id in Hle at 1. lia. }
  destruct (srcToWorkItem_loop (ws_items st) numPoints numPoints) as [Hslen Hsrc];
    [lia|lia| |].
  { intros j Hj. destruct (lookup_lt_is_Some_2 cs j) as [c Hc]; [lia|].
    by destruct (Hitems j c Hc). }
  destruct (foldl (degrees_step (ws_items st)) _ (seq 0 numPoints)) as [s2w deg].
  cbn [degreesTyped srcToWorkItem fst snd] in *.
  split; [done|]. split; [done|]. intros p Hp.
  destruct (Hcs p Hp) as (Hcp & _). split; [|by apply Hsrc].
  rewrite (Hdeg p _ Hp Hcp). by rewrite Hout.
Qed.

(** [encapsulateEdges] counts: the degree table holds, for each point, the
    number of input edges that leave it, and [srcToWorkItem] sends each
    point to itself. *)
Theorem encapsulateEdges_degrees_count_out_edges edges numPoints numEdges :
  length edges = numEdges * 2 →
  Forall (λ e, e < numPoints) edges →
  (Z.of_nat (numPoints * 4) < 2 ^ 32)%Z →
  (Z.of_nat (length edges) < 2 ^ 32)%Z →
  length (degreesTyped (encapsulateEdges sort edges numPoints)) = numPoints ∧
  length (srcToWorkItem (encapsulateEdges sort edges numPoints)) = numPoints ∧
  ∀ p, p < numPoints →
    degreesTyped (encapsulateEdges sort edges numPoints) !! p
      = Some (Z.of_nat (out_degree edges p)) ∧
    srcToWorkItem (encapsulateEdges sort edges numPoints) !! p = Some (Z.of_nat p).
Proof.
  intros Hlen Hvalid Hnp Hne.
  destruct (degree_table edges numPoints numEdges Hlen Hvalid Hnp Hne)
    as (Hdl & Hsl & Htable).
  split; [exact Hdl|]. split; [exact Hsl|].
  intros p Hp. destruct (Htable p Hp) as [Hdeg Hsrc]. by split.
Qed.

(** [encapsulateEdges] builds one work item of four entries per point: the
    index of the point's first sorted edge ([-1] when it has none), the
    number of its edges, the point itself, and an entry that stays [0];
    the sorted edges from the first index on, as many as counted, are the
    point's. *)
Theorem encapsulateEdges_work_items edges numPoints numEdges :
  length edges = numEdges * 2 →
  Forall (λ e, e < numPoints) edges →
  (Z.of_nat (numPoints * 4) < 2 ^ 32)%Z →
  (Z.of_nat (length edges) < 2 ^ 32)%Z →
  numWorkItems (encapsulateEdges sort edges numPoints) = numPoints * 4 ∧
  length (workItemsTyped (encapsulateEdges sort edges numPoints)) = numPoints * 4 ∧
  ∀ p, p < numPoints →
    workItemsTyped (encapsulateEdges sort edges numPoints) !! (p * 4)
      = Some (if decide (out_degree edges p = 0) then (-1)%Z
              else Z.of_nat (edges_below edges p)) ∧
    workItemsTyped (encapsulateEdges sort edges numPoints) !! (p * 4 + 1)
      = Some (Z.of_nat (out_degree edges p)) ∧
    workItemsTyped (encapsulateEdges sort edges numPoints) !! (p * 4 + 2)
      = Some (Z.of_nat p) ∧
    workItemsTyped (encapsulateEdges sort edges numPoints) !! (p * 4 + 3)
      = Some 0%Z ∧
    ∀ i, edges_below edges p ≤ i < edges_below edges p + out_degree edges p →
      edgesTyped (encapsulateEdges sort edges numPoints) !! (i * 2) = Some p.
Proof.
  intros Hlen Hvalid Hnp Hne.
  destruct (computeEdgeList_spec sort sort_ok edges numEdges Hlen)
    as (Hperm & HElen & HEin & HEsorted).
  pose proof (sorted_out_degree edges numEdges) as Hout.
  pose proof (sorted_edges_below edges numEdges) as Hbelow.
  assert (∀ (P : Encapsulation → Prop),
            (∀ d p s se,
               P {| degreesTyped := d;
                    edgesTyped := edgeListTyped (computeEdgeList sort edges);
                    edgePermutation := p;
                    edgePermutationInverseTyped := originals (computeEdgeList sort edges);
                    numWorkItems :=
                      length (computeWorkItemsTyped
                                (edgeListTyped (computeEdgeList sort edges))
                                (originals (computeEdgeList sort edges)) numPoints);
                    workItemsTyped :=
                      computeWorkItemsTyped
                        (edgeListTyped (computeEdgeList sort edges))
                        (originals (computeEdgeList sort edges)) numPoints;
                    srcToWorkItem := s; edgeStartEndIdxsTyped := se |}) →
            P (encapsulateEdges sort edges numPoints)) as Hshape.
  { intros P HP. unfold encapsulateEdges. destruct (foldl _ _ _). apply HP. }
  apply Hshape. intros d pm s se. cbn [numWorkItems workItemsTyped edgesTyped].
  set (el := computeEdgeList sort edges) in *.
  set (E := edgeListTyped el) in *.
  unfold computeWorkItemsTyped, workItems_loop.
  rewrite HElen, Nat.div_mul by done.
  destruct (workItems_loop_spec E numEdges numPoints numPoints HElen HEsorted)
    as (cs & Hinv & Hcs); [lia|lia|lia|].
  pose proof (workItems_loop_fourth E numEdges numPoints) as Hfourth.
  set (st := foldl (workItem_step E numEdges) _ (seq 0 numPoints)) in *.
  destruct Hinv as (Hpos & _ & _ & _ & Hilen & Hlcs & Hsum & Hitems).
  split; [done|]. split; [done|]. intros p Hp.
  destruct (Hcs p Hp) as (Hcp & _ & Hblock & Hstart).
  destruct (Hitems p _ Hcp) as [Hcount Hsrc].
  rewrite Hout, Hbelow in * by done.
  split; [done|]. split; [done|]. split; [done|]. split; [|done].
  subst st. rewrite (Hfourth p numPoints). apply lookup_replicate_2. lia.
Qed.

(** [encapsulateEdges] records for each point the range of its sorted
    edges: the index of the first and the index after the last; both are
    [-1] stored unsigned, 4294967295, for a point with no edges. *)
Theorem encapsulateEdges_start_end_ranges edges numPoints numEdges :
  length edges = numEdges * 2 →
  Forall (λ e, e < numPoints) edges →
  (Z.of_nat (numPoints * 4) < 2 ^ 32)%Z →
  (Z.of_nat (length edges) < 2 ^ 32)%Z →
  length (edgeStartEndIdxsTyped (encapsulateEdges sort edges numPoints)) = numPoints * 2 ∧
  ∀ p, p < numPoints →
    edgeStartEndIdxsTyped (encapsulateEdges sort edges numPoints) !! (p * 2)
      = Some (if decide (out_degree edges p = 0) then 4294967295%Z
              else Z.of_nat (edges_below edges p)) ∧
    edgeStartEndIdxsTyped (encapsulateEdges sort edges numPoints) !! (p * 2 + 1)
      = Some (if decide (out_degree edges p = 0) then 4294967295%Z
              else Z.of_nat (edges_below edges p + out_degree edges p)).
Proof.
  intros Hlen Hvalid Hnp Hne.
  destruct (computeEdgeList_spec sort sort_ok edges numEdges Hlen)
    as (Hperm & HElen & HEin & HEsorted).
  pose proof (sorted_out_degree edges numEdges) as Hout.
  pose proof (sorted_edges_below edges numEdges) as Hbelow.
  assert (∀ (P : Encapsulation → Prop),
            (∀ d p s,
               P {| degreesTyped := d;
                    edgesTyped := edgeListTyped (computeEdgeList sort edges);
                    edgePermutation := p;
                    edgePermutationInverseTyped := originals (computeEdgeList sort edges);
                    numWorkItems :=
                      length (computeWorkItemsTyped
                                (edgeListTyped (computeEdgeList sort edges))
                                (originals (computeEdgeList sort edges)) numPoints);
                    workItemsTyped :=
                      computeWorkItemsTyped
                        (edgeListTyped (computeEdgeList sort edges))
                        (originals (computeEdgeList sort edges)) numPoints;
                    srcToWorkItem := s;
                    edgeStartEndIdxsTyped :=
                      computeEdgeStartEndIdxs
                        (computeWorkItemsTyped
                           (edgeListTyped (computeEdgeList sort edges))
                           (originals (computeEdgeList sort edges)) numPoints)
                        (edgeListTyped (computeEdgeList sort edges))
                        (originals (computeEdgeList sort edges)) numPoints |}) →
            P (encapsulateEdges sort edges numPoints)) as Hshape.
  { intros P HP. unfold encapsulateEdges. destruct (foldl _ _ _). apply HP. }
  apply Hshape. intros d pm s. cbn [edgeStartEndIdxsTyped].
  set (el := computeEdgeList sort edges) in *.
  set (E := edgeListTyped el) in *.
  unfold computeWorkItemsTyped, workItems_loop.
  rewrite HElen, Nat.div_mul by done.
  destruct (workItems_loop_spec E numEdges numPoints numPoints HElen HEsorted)
    as (cs & Hinv & Hcs); [lia|lia|lia|].
  set (st := foldl (workItem_step E numEdges) _ (seq 0 numPoints)) in *.
  destruct Hinv as (Hpos & _ & Hhigh & _ & Hilen & Hlcs & Hsum & Hitems).
  assert (ws_lastPos st = numEdges) as Hfinal.
  { destruct (decide (ws_lastPos st < numEdges)) as [Hlt|]; [|lia].
    destruct (lookup_lt_is_Some_2 E (ws_lastPos st * 2)) as [t Ht]; [lia|].
    pose proof (Hhigh _ t (Nat.le_refl _) Ht) as Hge.
    rewrite Forall_forall in Hvalid. pose proof (Hvalid t (HEin _ t Ht)). lia. }
  assert (edges_below edges numPoints = numEdges) as Hall.
  { rewrite <- (Hbelow _ Hlen), <- Hfinal, <- Hsum. unfold edges_below. f_equal.
    apply list_eq_same_length with numPoints;
      [done|by rewrite length_fmap, length_seq|].
    intros j x y Hj Hx Hy. rewrite list_lookup_fmap, lookup_seq_lt in Hx by done.
    simpl in Hx. destruct (Hcs j Hj) as (Hcj & _). congruence. }
  apply (computeEdgeStartEndIdxs_spec (ws_items st) numPoints numEdges
           (out_degree edges) (edges_below edges)); try done; [| |lia].
  - intros p Hp. destruct (Hcs p Hp) as (_ & _ & _ & Hstart).
    by rewrite Hout, Hbelow in Hstart.
  - intros p. unfold edges_below. rewrite seq_S, fmap_app, sum_list_with_app.
    simpl. lia.
Qed.

End Encapsulation.

(** The four theorems at a graph of four points and the four edges (2,3),
    (0,1), (1,2), (0,0), under insertion sort. *)
Lemma encapsulateEdges_sorts_the_edges_witness :
  length (edgesTyped (encapsulateEdges insertion_sort [2; 3; 0; 1; 1; 2; 0; 0] 4)) = 4 * 2 ∧
  ∀ i, i < 4 →
    ∃ u, edgePermutationInverseTyped
           (encapsulateEdges insertion_sort [2; 3; 0; 1; 1; 2; 0; 0] 4) !! i = Some u ∧
         edgesTyped (encapsulateEdges insertion_sort [2; 3; 0; 1; 1; 2; 0; 0] 4) !! (i * 2)
           = [2; 3; 0; 1; 1; 2; 0; 0] !! (u * 2) ∧
         edgesTyped (encapsulateEdges insertion_sort [2; 3; 0; 1; 1; 2; 0; 0] 4)
           !! (i * 2 + 1)
           = [2; 3; 0; 1; 1; 2; 0; 0] !! (u * 2 + 1).
Proof.
  destruct (encapsulateEdges_sorts_the_edges insertion_sort insertion_sort_contract
              [2; 3; 0; 1; 1; 2; 0; 0] 4 4) as (_ & _ & Hl & _ & Hcopy & _).
  - reflexivity.
  - repeat constructor.
  - reflexivity.
  - reflexivity.
  - exact (conj Hl Hcopy).
Defined.

Lemma encapsulateEdges_degrees_count_out_edges_witness :
  length (degreesTyped (encapsulateEdges insertion_sort [2; 3; 0; 1; 1; 2; 0; 0] 4)) = 4 ∧
  length (srcToWorkItem (encapsulateEdges insertion_sort [2; 3; 0; 1; 1; 2; 0; 0] 4)) = 4 ∧
  ∀ p, p < 4 →
    degreesTyped (encapsulateEdges insertion_sort [2; 3; 0; 1; 1; 2; 0; 0] 4) !! p
      = Some (Z.of_nat (out_degree [2; 3; 0; 1; 1; 2; 0; 0] p)) ∧
    srcToWorkItem (encapsulateEdges insertion_sort [2; 3; 0; 1; 1; 2; 0; 0] 4) !! p
      = Some (Z.of_nat p).
Proof.
  apply (encapsulateEdges_degrees_count_out_edges insertion_sort insertion_sort_contract
           [2; 3; 0; 1; 1; 2; 0; 0] 4 4).
  - reflexivity.
  - repeat constructor.
  - reflexivity.
  - reflexivity.
Defined.

Lemma encapsulateEdges_work_items_witness :
  numWorkItems (encapsulateEdges insertion_sort [2; 3; 0; 1; 1; 2; 0; 0] 4) = 4 * 4 ∧
  length (workItemsTyped (encapsulateEdges insertion_sort [2; 3; 0; 1; 1; 2; 0; 0] 4))
    = 4 * 4.
Proof.
  destruct (encapsulateEdges_work_items insertion_sort insertion_sort_contract
              [2; 3; 0; 1; 1; 2; 0; 0] 4 4) as (Hn & Hl & _).
  - reflexivity.
  - repeat constructor.
  - reflexivity.
  - reflexivity.
  - exact (conj Hn Hl).
Defined.

Lemma encapsulateEdges_start_end_ranges_witness :
  length (edgeStartEndIdxsTyped
            (encapsulateEdges insertion_sort [2; 3; 0; 1; 1; 2; 0; 0] 4)) = 4 * 2 ∧
  ∀ p, p < 4 →
    edgeStartEndIdxsTyped (encapsulateEdges insertion_sort [2; 3; 0; 1; 1; 2; 0; 0] 4)
      !! (p * 2)
      = Some (if decide (out_degree [2; 3; 0; 1; 1; 2; 0; 0] p = 0) then 4294967295%Z
              else Z.of_nat (edges_below [2; 3; 0; 1; 1; 2; 0; 0] p)) ∧
    edgeStartEndIdxsTyped (encapsulateEdges insertion_sort [2; 3; 0; 1; 1; 2; 0; 0] 4)
      !! (p * 2 + 1)
      = Some (if decide (out_degree [2; 3; 0; 1; 1; 2; 0; 0] p = 0) then 4294967295%Z
              else Z.of_nat (edges_below [2; 3; 0; 1; 1; 2; 0; 0] p
                             + out_degree [2; 3; 0; 1; 1; 2; 0; 0] p)).
Proof.
  apply (encapsulateEdges_start_end_ranges insertion_sort insertion_sort_contract
           [2; 3; 0; 1; 1; 2; 0; 0] 4 4).
  - reflexivity.
  - repeat constructor.
  - reflexivity.
  - reflexivity.
Defined.

End EncapsulationFacts.

Module LimitFacts.

Import TypedArray Mask Compose Limited ComposeFacts.

Lemma collect_limited n k cs : ∀ i target,
  length target < S n →
  collect (Finite (S n)) k cs i target
    = take (S n) (target ++ positions (Z.of_nat k) cs i).
Proof.
  induction cs as [|c cs IH]; intros i target Hlen.
  - simpl. rewrite app_nil_r. by rewrite take_ge by lia.
  - cbn [collect positions]. destruct (c =? Z.of_nat k)%Z.
    + cbn [reached]. rewrite length_app. cbn [length].
      destruct (S n <=? length target + 1) eqn:Hr.
      * apply Nat.leb_le in Hr.
        replace (target ++ i :: positions (Z.of_nat k) cs (S i))
          with ((target ++ [i]) ++ positions (Z.of_nat k) cs (S i))
          by (by rewrite <- app_assoc).
        rewrite take_app_le by (rewrite length_app; simpl; lia).
        by rewrite take_ge by (rewrite length_app; simpl; lia).
      * apply Nat.leb_gt in Hr. rewrite IH by (rewrite length_app; simpl; lia).
        by rewrite <- app_assoc.
    + cbn [reached].
      destruct (S n <=? length target) eqn:Hr; [apply Nat.leb_le in Hr; lia|].
      by apply IH.
Qed.

Lemma collect_limit_zero k cs i :
  Forall (le i) (positions (Z.of_nat k) cs i) →
  collect (Finite 0) k cs i []
    = filter (λ j, j = i) (take 1 (positions (Z.of_nat k) cs i)).
Proof.
  destruct cs as [|c cs]; [done|]. cbn [collect positions]. intros _.
  destruct (c =? Z.of_nat k)%Z; simpl.
  - rewrite filter_cons, decide_True by done. by rewrite take_0.
  - destruct (positions_sorted (Z.of_nat k) cs (S i)) as [_ Hle].
    destruct (positions _ cs (S i)) as [|x l]; [done|].
    apply Forall_cons in Hle as [Hx _]. simpl. rewrite take_0.
    rewrite filter_cons, decide_False by lia. done.
Qed.

Lemma collect_limit lim k cs :
  collect lim k cs 0 [] = limited lim (positions (Z.of_nat k) cs 0).
Proof.
  destruct lim as [[|n]|].
  - rewrite collect_limit_zero; [done|].
    by destruct (positions_sorted (Z.of_nat k) cs 0).
  - by rewrite collect_limited by (simpl; lia).
  - by rewrite collect_unlimited.
Qed.

Lemma compose_limited np ne k sels excls lp le :
  ∃ pts eds,
    compose np ne k sels excls Infinity Infinity
      = {| point := Some pts; edge := Some eds |} ∧
    compose np ne k sels excls lp le
      = {| point := Some (limited lp pts); edge := Some (limited le eds) |}.
Proof.
  rewrite compose_unlimited. eexists _, _. split; [reflexivity|].
  unfold compose.
  pose proof (select_fst np ne (replicate np 0%Z) (replicate ne 0%Z) sels) as HP.
  pose proof (select_snd np ne (replicate np 0%Z) (replicate ne 0%Z) sels) as HE.
  destruct (foldl (select_step np ne) _ sels) as [P E]. simpl in HP, HE.
  pose proof (exclude_fst np ne P E excls) as HP'.
  pose proof (exclude_snd np ne P E excls) as HE'.
  destruct (foldl (exclude_step np ne) _ excls) as [P' E']. simpl in HP', HE'.
  rewrite !collect_limit. by subst.
Qed.

Lemma composeMasks_run_limits np ne h sel exc l lims selRefs S X :
  h !! sel = Some (ObjMasks selRefs) → deref h selRefs = Some S →
  excluded h exc = Some X → h !! l = Some (ObjLimits lims) →
  length selRefs ≤ 255 →
  ∃ h1, composeMasks np ne h sel exc (Some l) =
    Some (h1 ++ [ObjMask
                   (compose np ne
                      (length (if decide (S = []) then [fullDataframeMask] else S))
                      (if decide (S = []) then [fullDataframeMask] else S) X
                      (default Infinity (lim_point lims))
                      (default Infinity (lim_edge lims)))],
          length h1).
Proof.
  intros Hsel HS HX Hl Hlen.
  set (h1 := <[l := ObjLimits (fill_limits lims)]> h).
  assert (h1 !! sel = Some (ObjMasks selRefs)) as Hsel1.
  { unfold h1. rewrite list_lookup_insert_ne; [done|]. intros <-. congruence. }
  assert (deref h1 selRefs = Some S) as HS1
    by (apply deref_insert; [done|intros m; by rewrite Hl]).
  assert (excluded h1 exc = Some X) as HX1 by (apply excluded_insert; eauto).
  exists h1. unfold composeMasks. cbn [resolve_limits]. rewrite Hl. simpl.
  fold h1. rewrite Hsel1. simpl.
  pose proof (length_mapM _ _ _ HS1) as HlenS.
  assert (∀ o, default Infinity (Some (default Infinity o)) = default Infinity o)
    as Hdd by (by intros []).
  rewrite ?Hdd.
  destruct selRefs as [|r selRefs].
  - destruct S; [|done]. simpl. rewrite HX1. done.
  - destruct S as [|m S]; [done|].
    rewrite bool_decide_false by done.
    assert ((255 <? length (r :: selRefs)) = false) as -> by (apply Nat.ltb_ge; lia).
    rewrite Hsel1, HS1. simpl. rewrite HX1. simpl.
    simpl in HlenS. injection HlenS as ->. done.
Qed.

(** A call of [composeMasks] with limits returns, per component type, the
    front of what the same call without limits returns: its first [n]
    indices under a limit [n] of [1] or more, all of it under [Infinity]
    or a missing limit, and under the limit [0] the index [0] if it is
    selected, and nothing else. *)
Theorem composeMasks_limits_keep_a_prefix np ne h sel exc l lims selRefs sels excls :
  h !! sel = Some (ObjMasks selRefs) → deref h selRefs = Some sels →
  excluded h exc = Some excls → h !! l = Some (ObjLimits lims) →
  length selRefs ≤ 255 →
  ∃ h0 r0 h1 r1 pts eds,
    composeMasks np ne h sel exc None = Some (h0, r0) ∧
    h0 !! r0 = Some (ObjMask {| point := Some pts; edge := Some eds |}) ∧
    composeMasks np ne h sel exc (Some l) = Some (h1, r1) ∧
    h1 !! r1 = Some (ObjMask
      {| point := Some (limited (default Infinity (lim_point lims)) pts);
         edge := Some (limited (default Infinity (lim_edge lims)) eds) |}).
Proof.
  intros Hsel HS HX Hl Hlen.
  destruct (composeMasks_run np ne h sel exc None selRefs sels excls)
    as [h0 Hrun0]; try done.
  destruct (composeMasks_run_limits np ne h sel exc l lims selRefs sels excls)
    as [h1 Hrun1]; try done.
  destruct (compose_limited np ne
              (length (if decide (sels = []) then [fullDataframeMask] else sels))
              (if decide (sels = []) then [fullDataframeMask] else sels) excls
              (default Infinity (lim_point lims)) (default Infinity (lim_edge lims)))
    as (pts & eds & Hinf & Hlim).
  rewrite Hinf in Hrun0. rewrite Hlim in Hrun1.
  eexists _, _, _, _, pts, eds.
  split; [exact Hrun0|]. split; [by rewrite list_lookup_middle|].
  split; [exact Hrun1|]. by rewrite list_lookup_middle.
Qed.

(** *** More masks than a counter can count *)

Lemma bump_range cs l :
  Forall (λ c, 0 <= c < 256)%Z cs → Forall (λ c, 0 <= c < 256)%Z (foldl bump cs l).
Proof.
  revert cs. induction l as [|x l IH]; intros cs Hcs; [done|].
  cbn [foldl]. apply IH. unfold bump. apply Forall_alter; [done|].
  intros c _ _. unfold ToUint8. apply Z.mod_pos_bound. lia.
Qed.

Lemma zero_range cs l :
  Forall (λ c, 0 <= c < 256)%Z cs → Forall (λ c, 0 <= c < 256)%Z (foldl zero cs l).
Proof.
  revert cs. induction l as [|x l IH]; intros cs Hcs; [done|].
  cbn [foldl]. apply IH. unfold zero. apply Forall_insert; [done|lia].
Qed.

Lemma counters_range (idxs : DataframeMask → list nat) n S X :
  Forall (λ c, 0 <= c < 256)%Z
    (foldl (λ cs m, foldl zero cs (idxs m))
           (foldl (λ cs m, foldl bump cs (idxs m)) (replicate n 0%Z) S) X).
Proof.
  assert (∀ cs, Forall (λ c, 0 <= c < 256)%Z cs →
            Forall (λ c, 0 <= c < 256)%Z
              (foldl (λ cs m, foldl bump cs (idxs m)) cs S)) as HS.
  { induction S as [|m S IH]; intros cs Hcs; [done|].
    cbn [foldl]. apply IH. by apply bump_range. }
  assert (∀ cs, Forall (λ c, 0 <= c < 256)%Z cs →
            Forall (λ c, 0 <= c < 256)%Z
              (foldl (λ cs m, foldl zero cs (idxs m)) cs X)) as HX.
  { induction X as [|m X IH]; intros cs Hcs; [done|].
    cbn [foldl]. apply IH. by apply zero_range. }
  apply HX, HS. apply Forall_replicate. lia.
Qed.

Lemma collect_no_match lim k cs : ∀ i,
  Forall (λ c, c ≠ Z.of_nat k) cs → collect lim k cs i [] = [].
Proof.
  induction cs as [|c cs IH]; intros i Hcs; [done|].
  apply Forall_cons in Hcs as [Hc Hcs]. cbn [collect].
  destruct (Z.eqb_spec c (Z.of_nat k)); [done|].
  destruct (reached lim (length [])); [done|]. by apply IH.
Qed.

Lemma compose_too_many np ne k sels excls lp le :
  255 < k →
  compose np ne k sels excls lp le = {| point := Some []; edge := Some [] |}.
Proof.
  intros Hk. unfold compose.
  pose proof (select_fst np ne (replicate np 0%Z) (replicate ne 0%Z) sels) as HP.
  pose proof (select_snd np ne (replicate np 0%Z) (replicate ne 0%Z) sels) as HE.
  destruct (foldl (select_step np ne) _ sels) as [P E]. simpl in HP, HE.
  pose proof (exclude_fst np ne P E excls) as HP'.
  pose proof (exclude_snd np ne P E excls) as HE'.
  destruct (foldl (exclude_step np ne) _ excls) as [P' E']. simpl in HP', HE'.
  subst.
  rewrite !collect_no_match; [done| |].
  - eapply Forall_impl; [apply (counters_range (mapEdgeIndexes ne))|].
    simpl. lia.
  - eapply Forall_impl; [apply (counters_range (mapPointIndexes np))|].
    simpl. lia.
Qed.

(** With more than 255 selection masks [composeMasks] selects nothing: the
    number of masks to satisfy is read before the array is cut to 255, and
    no 8-bit counter reaches it.  The returned mask has no point and no
    edge, whatever the masks and the limits are. *)
Theorem composeMasks_selects_nothing_past_255_masks
    np ne h sel exc lim selRefs sels excls :
  h !! sel = Some (ObjMasks selRefs) → 255 < length selRefs →
  deref h (take 255 selRefs) = Some sels →
  excluded h exc = Some excls →
  (∀ l, lim = Some l → ∃ lims, h !! l = Some (ObjLimits lims)) →
  ∃ h' r,
    composeMasks np ne h sel exc lim = Some (h', r) ∧
    h' !! r = Some (ObjMask {| point := Some []; edge := Some [] |}).
Proof.
  intros Hsel Hmany HS HX Hlim.
  assert (∃ h1 lims, resolve_limits h lim = Some (h1, lims) ∧
            h1 !! sel = Some (ObjMasks selRefs) ∧
            deref h1 (take 255 selRefs) = Some sels ∧
            excluded h1 exc = Some excls)
    as (h1 & lims & Hres & Hsel1 & HS1 & HX1).
  { destruct lim as [l|]; simpl.
    - destruct (Hlim l eq_refl) as [lims Hl]. rewrite Hl.
      eexists _, _. split; [done|]. split.
      + rewrite list_lookup_insert_ne; [done|]. intros <-. congruence.
      + split; [apply deref_insert; [done|intros m; by rewrite Hl]|].
        apply excluded_insert; eauto.
    - eexists _, _. split; [done|]. done. }
  unfold composeMasks. rewrite Hres. simpl. rewrite Hsel1. simpl.
  rewrite bool_decide_false by lia.
  assert ((255 <? length selRefs) = true) as -> by (apply Nat.ltb_lt; lia).
  assert (length h1 = length h) as Hh1.
  { destruct lim as [l|]; simpl in Hres.
    - destruct (h !! l) as [[| |lims']|]; try done.
      injection Hres as <- _. by rewrite length_insert.
    - by injection Hres as <- _. }
  rewrite list_lookup_insert_eq
    by (rewrite Hh1; by eapply lookup_lt_Some).
  assert (∀ refs S, deref h1 refs = Some S →
            deref (<[sel := ObjMasks (take 255 selRefs)]> h1) refs = Some S) as Hder.
  { intros refs S HS'. apply deref_insert; [done|]. intros m. by rewrite Hsel1. }
  rewrite (Hder _ _ HS1). simpl.
  assert (∃ X, excluded (<[sel := ObjMasks (take 255 selRefs)]> h1) exc = Some X)
    as [X ->].
  { destruct exc as [e|]; [|by eexists]. simpl in *.
    destruct (decide (e = sel)) as [->|Hne].
    - rewrite list_lookup_insert_eq
        by (rewrite Hh1; by eapply lookup_lt_Some).
      rewrite (Hder _ _ HS1). eauto.
    - rewrite list_lookup_insert_ne by done.
      destruct (h1 !! e) as [[refs| |]|]; try done.
      rewrite (Hder _ _ HX1). eauto. }
  simpl. eexists _, _. split; [reflexivity|].
  rewrite list_lookup_middle by done. by rewrite compose_too_many by lia.
Qed.

(** The limit theorem with the points 0,1,2 and 1,2,3 selected under a
    limit of one point: of the points 1,2 that the call without limits
    returns, the call with the limit returns the point 1. *)
Lemma composeMasks_limits_keep_a_prefix_witness :
  ∃ h0 r0 h1 r1 pts eds,
    composeMasks 4 0
      [ObjMask {| point := Some [0; 1; 2]; edge := None |};
       ObjMask {| point := Some [1; 2; 3]; edge := None |};
       ObjMasks [0; 1];
       ObjLimits {| lim_point := Some (Finite 1); lim_edge := None |}]
      2 None None = Some (h0, r0) ∧
    h0 !! r0 = Some (ObjMask {| point := Some pts; edge := Some eds |}) ∧
    composeMasks 4 0
      [ObjMask {| point := Some [0; 1; 2]; edge := None |};
       ObjMask {| point := Some [1; 2; 3]; edge := None |};
       ObjMasks [0; 1];
       ObjLimits {| lim_point := Some (Finite 1); lim_edge := None |}]
      2 None (Some 3) = Some (h1, r1) ∧
    h1 !! r1 = Some (ObjMask {| point := Some (limited (Finite 1) pts);
                                edge := Some (limited Infinity eds) |}).
Proof.
  apply (composeMasks_limits_keep_a_prefix 4 0 _ 2 None 3
           {| lim_point := Some (Finite 1); lim_edge := None |} [0; 1]
           [{| point := Some [0; 1; 2]; edge := None |};
            {| point := Some [1; 2; 3]; edge := None |}] []).
  - reflexivity.
  - reflexivity.
  - reflexivity.
  - reflexivity.
  - simpl. lia.
Defined.

(** The theorem with 256 references to the full mask of two points and one
    edge. *)
Lemma composeMasks_selects_nothing_past_255_masks_witness :
  ∃ h' r,
    composeMasks 2 1 [ObjMask fullDataframeMask; ObjMasks (replicate 256 0)]
                 1 None None = Some (h', r) ∧
    h' !! r = Some (ObjMask {| point := Some []; edge := Some [] |}).
Proof.
  apply (composeMasks_selects_nothing_past_255_masks 2 1
           [ObjMask fullDataframeMask; ObjMasks (replicate 256 0)] 1 None None
           (replicate 256 0) (replicate 255 fullDataframeMask) []).
  - reflexivity.
  - vm_compute. lia.
  - reflexivity.
  - reflexivity.
  - intros l Hl. discriminate Hl.
Defined.

End LimitFacts.

Module PruneLaws.

Import Mask Prune PruneFacts.

(** Pruning is idempotent: a pruned mask has no dangling edge left, so a
    second pruning returns it unchanged. *)
Theorem pruneMaskEdges_idempotent np ne edges oldMask :
  pruneMaskEdges np ne edges (pruneMaskEdges np ne edges oldMask)
    = pruneMaskEdges np ne edges oldMask.
Proof.
  assert (mapPointIndexes np (pruneMaskEdges np ne edges oldMask)
          = mapPointIndexes np oldMask) as Hp by reflexivity.
  assert (point (pruneMaskEdges np ne edges oldMask) = point oldMask) as Hpt
    by reflexivity.
  assert (∃ c, mapEdgeIndexes ne (pruneMaskEdges np ne edges oldMask)
               = filter (λ e, c e = true) (mapEdgeIndexes ne oldMask) ∧
               pruneMaskEdges np ne edges oldMask
               = {| point := point oldMask;
                    edge := Some (filter (λ e, c e = true) (mapEdgeIndexes ne oldMask)) |} ∧
               ∀ m, mapPointIndexes np m = mapPointIndexes np oldMask →
                 pruneMaskEdges np ne edges m
                 = {| point := point m;
                      edge := Some (filter (λ e, c e = true) (mapEdgeIndexes ne m)) |})
    as (c & He & Heq & Hany).
  { eexists (λ e, truthy (edges !! (2 * e) ≫=
                    (foldl (λ lookup idx, <[idx := 1%Z]> lookup) (∅ : gmap nat Z)
                           (mapPointIndexes np oldMask) !!.))
                  && truthy (edges !! (2 * e + 1) ≫=
                    (foldl (λ lookup idx, <[idx := 1%Z]> lookup) (∅ : gmap nat Z)
                           (mapPointIndexes np oldMask) !!.))).
    split; [|split].
    - unfold pruneMaskEdges, mapEdgeIndexes at 1. cbn [edge].
      by rewrite push_if_filter.
    - unfold pruneMaskEdges. by rewrite push_if_filter.
    - intros m Hm. unfold pruneMaskEdges. rewrite Hm. by rewrite push_if_filter. }
  rewrite (Hany _ Hp), Hpt, He, Heq. f_equal. f_equal.
  apply list_filter_filter_l. done.
Qed.

End PruneLaws.

Module QueryFacts.

Import Edges PlainObject Query EdgesFacts.

Section Query.

Context {V : Type}.
Variable inherited : string → bool.

Lemma predicate_mask_spec (f : V → bool) (values : list V) : ∀ k acc,
  ∃ r,
    foldl (λ mask '(idx, val), if f val then mask ++ [idx] else mask)
          acc (zip (seq k (length values)) values) = acc ++ r ∧
    StronglySorted lt r ∧
    ∀ i, i ∈ r ↔ k ≤ i ∧ ∃ v, values !! (i - k) = Some v ∧ f v = true.
Proof.
  induction values as [|v values IH]; intros k acc.
  - exists []. simpl. split; [by rewrite app_nil_r|]. split; [constructor|].
    intros i. rewrite elem_of_nil. split; [done|]. by intros (_ & v & ? & _).
  - cbn [length seq zip zip_with foldl].
    destruct (IH (S k) (if f v then acc ++ [k] else acc)) as (r & -> & Hs & Hr).
    assert (∀ i, i ∈ r ↔
              S k ≤ i ∧ ∃ v0, (v :: values) !! (i - k) = Some v0 ∧ f v0 = true)
      as Hr'.
    { intros i. rewrite Hr. split; intros [Hle Hv]; (split; [done|]).
      - by replace (i - k) with (S (i - S k)) by lia.
      - by replace (i - k) with (S (i - S k)) in Hv by lia. }
    destruct (f v) eqn:Hf.
    + exists (k :: r). split; [by rewrite <- app_assoc|]. split.
      * constructor; [done|]. apply Forall_forall. intros i Hi%Hr. lia.
      * intros i. rewrite elem_of_cons, Hr'. split.
        -- intros [->|[? ?]]; [|split; [lia|done]].
           split; [done|]. rewrite Nat.sub_diag. eauto.
        -- intros [Hle Hv]. destruct (decide (i = k)) as [->|]; [by left|].
           right. split; [lia|done].
    + exists r. split; [done|]. split; [done|].
      intros i. rewrite Hr'. split; [intros [? ?]; split; [lia|done]|].
      intros [Hle Hv]. split; [|done].
      destruct (decide (i = k)) as [->|]; [|lia].
      rewrite Nat.sub_diag in Hv. destruct Hv as (v0 & [= <-] & ?). congruence.
Qed.

(** The mask of a predicate lists, in ascending order and once each, the
    positions of the values that satisfy it; without a predicate it is
    empty. *)
Theorem getMaskForPredicateOnAttributeValues_selects (values : list V) :
  getMaskForPredicateOnAttributeValues values None = [] ∧
  ∀ f,
    StronglySorted lt (getMaskForPredicateOnAttributeValues values (Some f)) ∧
    ∀ i, i ∈ getMaskForPredicateOnAttributeValues values (Some f)
         ↔ ∃ v, values !! i = Some v ∧ f v = true.
Proof.
  split; [done|]. intros f. unfold getMaskForPredicateOnAttributeValues.
  destruct (predicate_mask_spec f values 0 []) as (r & -> & Hs & Hr).
  simpl. split; [done|]. intros i. rewrite Hr, Nat.sub_0_r.
  split; [by intros [_ ?]|]. intros ?. split; [lia|done].
Qed.

Section Encapsulated.

Variable sort : (nat → nat → Z) → list nat → list nat.
Hypothesis sort_ok : sort_contract sort.

(** On a dataframe whose forward encapsulation is that of its edges, the
    edge mask of a predicate holds, once each, the sorted positions of the
    edges whose value satisfies the predicate: [s] is in the mask when the
    input edge [edgePermutationInverseTyped[s]] has such a value. *)
Theorem getEdgeAttributeMask_selects_sorted_positions
    (df : Dataframe) columnName (values : list V) f edges numPoints numEdges :
  length edges = numEdges * 2 →
  Forall (λ e, e < numPoints) edges →
  (Z.of_nat (numPoints * 4) < 2 ^ 32)%Z →
  (Z.of_nat (length edges) < 2 ^ 32)%Z →
  rawdata_forwardsEdges df = Some (encapsulateEdges sort edges numPoints) →
  rawdata_attributes_edge df !! columnName = Some values →
  length values = numEdges →
  ∃ mask,
    getEdgeAttributeMask inherited df columnName (Some f) = inr (Some <$> mask) ∧
    NoDup mask ∧
    ∀ s, s ∈ mask ↔
         ∃ u v, edgePermutationInverseTyped (encapsulateEdges sort edges numPoints) !! s
                  = Some u ∧
                values !! u = Some v ∧ f v = true.
Proof.
  intros Hlen _ _ _ Hfe Hcol Hvals.
  destruct (EncapsulationFacts.permutation_tables sort sort_ok
              edges numPoints numEdges Hlen)
    as (Hpl & Hil & _ & Hperm & Hinv & _).
  unfold getEdgeAttributeMask, attr_values, get. rewrite Hcol, Hfe.
  unfold getMaskForPredicateOnAttributeValues.
  destruct (predicate_mask_spec f values 0 []) as (mask0 & -> & Hsorted & Hmask0).
  cbn [app].
  assert (∀ i, i ∈ mask0 ↔ ∃ v, values !! i = Some v ∧ f v = true) as Hmask.
  { intros i. rewrite Hmask0, Nat.sub_0_r.
    split; [by intros [_ ?]|]. intros ?. split; [lia|done]. }
  set (perm := edgePermutation (encapsulateEdges sort edges numPoints)) in *.
  assert (∀ i, i ∈ mask0 → i < numEdges) as Hrange.
  { intros i (v & Hv & _)%Hmask. apply lookup_lt_Some in Hv. lia. }
  exists ((λ i, default 0 (perm !! i)) <$> mask0). split; [|split].
  - f_equal. rewrite <- list_fmap_compose. apply list_fmap_ext.
    intros k i Hi. assert (i ∈ mask0) as Hin by (by eapply list_elem_of_lookup_2).
    destruct (Hperm i (Hrange i Hin)) as (s & Hs & _). simpl. by rewrite Hs.
  - apply NoDup_fmap_2_strong.
    + intros i j Hi Hj Heq.
      destruct (Hperm i (Hrange i Hi)) as (s & Hs & Hsi).
      destruct (Hperm j (Hrange j Hj)) as (t & Ht & Htj).
      rewrite Hs, Ht in Heq. simpl in Heq. subst t. congruence.
    + clear -Hsorted. induction Hsorted as [|x l Hs IH Hall]; constructor; [|done].
      intros Hx. rewrite Forall_forall in Hall. specialize (Hall x Hx). lia.
  - intros s. rewrite list_elem_of_fmap. split.
    + intros (i & -> & Hi). pose proof Hi as (v & Hv & Hfv)%Hmask.
      destruct (Hperm i (Hrange i Hi)) as (s & Hs & Hsi).
      rewrite Hs. simpl. eauto.
    + intros (u & v & Hu & Hv & Hfv). exists u. split.
      * by rewrite (Hinv s u Hu).
      * apply Hmask. eauto.
Qed.

End Encapsulated.

End Query.

(** The theorem on the four edges (2,3), (0,1), (1,2), (0,0) with the
    weights 5, 0, 7, 0, for the predicate "is not zero". *)
Lemma getEdgeAttributeMask_selects_sorted_positions_witness :
  ∃ mask,
    getEdgeAttributeMask es5_inherited
      {| rawdata_attributes_point := ∅;
         rawdata_attributes_edge := {[ "weight" := [5; 0; 7; 0]%Z ]};
         rawdata_forwardsEdges :=
           Some (encapsulateEdges insertion_sort [2; 3; 0; 1; 1; 2; 0; 0] 4) |}
      "weight" (Some (λ v, negb (v =? 0)%Z))
      = inr (Some <$> mask) ∧
    NoDup mask ∧
    ∀ s, s ∈ mask ↔
         ∃ u v, edgePermutationInverseTyped
                  (encapsulateEdges insertion_sort [2; 3; 0; 1; 1; 2; 0; 0] 4) !! s
                  = Some u ∧
                [5; 0; 7; 0]%Z !! u = Some v ∧ negb (v =? 0)%Z = true.
Proof.
  apply (getEdgeAttributeMask_selects_sorted_positions
           es5_inherited insertion_sort insertion_sort_contract
           {| rawdata_attributes_point := ∅;
              rawdata_attributes_edge := {[ "weight" := [5; 0; 7; 0]%Z ]};
              rawdata_forwardsEdges :=
                Some (encapsulateEdges insertion_sort [2; 3; 0; 1; 1; 2; 0; 0] 4) |}
           "weight" [5; 0; 7; 0]%Z (λ v, negb (v =? 0)%Z)
           [2; 3; 0; 1; 1; 2; 0; 0] 4 4).
  - reflexivity.
  - repeat constructor.
  - reflexivity.
  - reflexivity.
  - reflexivity.
  - reflexivity.
  - reflexivity.
Defined.

End QueryFacts.

Module LoadFacts.

Import Edges Load EdgesFacts.

Section Degrees.

Context {V : Type}.
Variable number : Z → V.

(** [loadDegrees] does nothing when a degree array does not have one entry
    per point; otherwise it sets the three degree columns, [degree]
    holding at each point the sum of its in- and out-degree, and leaves
    every other column alone. *)
Theorem loadDegrees_sums_in_and_out numElements (attributes : gmap string Column)
    outDegrees inDegrees :
  (numElements ≠ Some (length outDegrees) ∨ numElements ≠ Some (length inDegrees) →
   loadDegrees number numElements attributes outDegrees inDegrees = attributes) ∧
  (numElements = Some (length outDegrees) → numElements = Some (length inDegrees) →
   loadDegrees number numElements attributes outDegrees inDegrees !! "degree"
     = Some {| values := number <$> zip_with Z.add inDegrees outDegrees;
               name := "degree"; type := "number" |} ∧
   loadDegrees number numElements attributes outDegrees inDegrees !! "degree_in"
     = Some {| values := number <$> inDegrees;
               name := "degree_in"; type := "number" |} ∧
   loadDegrees number numElements attributes outDegrees inDegrees !! "degree_out"
     = Some {| values := number <$> outDegrees;
               name := "degree_out"; type := "number" |} ∧
   ∀ key, key ≠ "degree" → key ≠ "degree_in" → key ≠ "degree_out" →
     loadDegrees number numElements attributes outDegrees inDegrees !! key
       = attributes !! key).
Proof.
  split.
  - intros H. unfold loadDegrees. by rewrite bool_decide_true.
  - intros Hout Hin. unfold loadDegrees.
    rewrite bool_decide_false by (intros [?|?]; done).
    rewrite Hout. simpl.
    assert (length inDegrees = length outDegrees) as Hlen by congruence.
    assert ((λ i, TypedArray.num (inDegrees !! i)) <$> seq 0 (length outDegrees)
            = inDegrees) as ->.
    { rewrite <- Hlen. apply list_eq. intros i. rewrite list_lookup_fmap.
      destruct (decide (i < length inDegrees)) as [Hi|Hi].
      - rewrite lookup_seq_lt by done. simpl.
        by destruct (lookup_lt_is_Some_2 inDegrees i Hi) as [v ->].
      - rewrite lookup_seq_ge by lia.
        by rewrite (proj2 (lookup_ge_None inDegrees i)) by lia. }
    assert ((λ i, TypedArray.num (outDegrees !! i)) <$> seq 0 (length outDegrees)
            = outDegrees) as ->.
    { apply list_eq. intros i. rewrite list_lookup_fmap.
      destruct (decide (i < length outDegrees)) as [Hi|Hi].
      - rewrite lookup_seq_lt by done. simpl.
        by destruct (lookup_lt_is_Some_2 outDegrees i Hi) as [v ->].
      - rewrite lookup_seq_ge by lia.
        by rewrite (proj2 (lookup_ge_None outDegrees i)) by lia. }
    assert ((λ i, (TypedArray.num (inDegrees !! i) + TypedArray.num (outDegrees !! i))%Z)
              <$> seq 0 (length outDegrees)
            = zip_with Z.add inDegrees outDegrees) as ->.
    { apply list_eq. intros i. rewrite list_lookup_fmap, lookup_zip_with.
      destruct (decide (i < length outDegrees)) as [Hi|Hi].
      - rewrite lookup_seq_lt by done. simpl.
        destruct (lookup_lt_is_Some_2 outDegrees i Hi) as [v ->].
        destruct (lookup_lt_is_Some_2 inDegrees i) as [w ->]; [lia|]. done.
      - rewrite lookup_seq_ge by lia.
        by rewrite (proj2 (lookup_ge_None inDegrees i)) by lia. }
    split; [by rewrite !lookup_insert_ne, lookup_insert_eq by done|].
    split; [by rewrite lookup_insert_ne, lookup_insert_eq by done|].
    split; [by rewrite lookup_insert_eq|].
    intros key H1 H2 H3. by rewrite !lookup_insert_ne by done.
Qed.

End Degrees.

Section LocalBuffers.

Context {A : Type}.
Variables (fill undef : A).

Lemma sort_pairs_loop (permutation : list nat) (buffer : list A) n k :
  length buffer = n * 2 → k ≤ n → k ≤ length permutation →
  (∀ u, u ∈ permutation → u < n) →
  length (foldl (λ sortedBuffer i,
                   <[i * 2 + 1 :=
                       default undef (permutation !! i ≫= λ u, buffer !! (u * 2 + 1))]>
                     (<[i * 2 :=
                          default undef (permutation !! i ≫= λ u, buffer !! (u * 2))]>
                        sortedBuffer))
                (replicate (length buffer) fill) (seq 0 k)) = length buffer ∧
  ∀ i u, i < k → permutation !! i = Some u →
    foldl (λ sortedBuffer i,
             <[i * 2 + 1 :=
                 default undef (permutation !! i ≫= λ u, buffer !! (u * 2 + 1))]>
               (<[i * 2 :=
                    default undef (permutation !! i ≫= λ u, buffer !! (u * 2))]>
                  sortedBuffer))
          (replicate (length buffer) fill) (seq 0 k) !! (i * 2) = buffer !! (u * 2) ∧
    foldl (λ sortedBuffer i,
             <[i * 2 + 1 :=
                 default undef (permutation !! i ≫= λ u, buffer !! (u * 2 + 1))]>
               (<[i * 2 :=
                    default undef (permutation !! i ≫= λ u, buffer !! (u * 2))]>
                  sortedBuffer))
          (replicate (length buffer) fill) (seq 0 k) !! (i * 2 + 1)
      = buffer !! (u * 2 + 1).
Proof.
  intros Hlen. induction k as [|k IH]; intros Hk Hperm Hlt.
  - split; [apply length_replicate|]. intros; lia.
  - rewrite seq_S, foldl_app. cbn [foldl].
    destruct IH as [IHlen IHl]; [lia|lia|done|].
    set (out := foldl _ _ (seq 0 k)) in *.
    split; [by rewrite !length_insert|].
    intros i u Hi Hu.
    destruct (lookup_lt_is_Some_2 permutation k) as [uk Huk]; [lia|].
    assert (uk < n) as Hukn by (apply Hlt; by eapply list_elem_of_lookup_2).
    destruct (lookup_lt_is_Some_2 buffer (uk * 2)) as [a Ha]; [lia|].
    destruct (lookup_lt_is_Some_2 buffer (uk * 2 + 1)) as [b Hb]; [lia|].
    cbn [Nat.add]. rewrite Huk. simpl. rewrite Ha, Hb. simpl.
    destruct (decide (i = k)) as [->|Hne].
    + assert (u = uk) as -> by congruence.
      rewrite list_lookup_insert_ne by lia.
      rewrite !list_lookup_insert_eq by (rewrite ?length_insert; lia).
      done.
    + rewrite !list_lookup_insert_ne by lia. apply IHl; [lia|done].
Qed.

Variable sort : (nat → nat → Z) → list nat → list nat.
Hypothesis sort_ok : sort_contract sort.

(** [loadLocalBuffer] stores a buffer as given, except the edge colours
    and edge heights: those are stored in the order of the sorted edges,
    the pair of entries of the sorted edge [i] being the pair the buffer
    holds for the input edge [edgePermutationInverseTyped[i]], the edge
    that [edgesTyped] holds at [i]. *)
Theorem loadLocalBuffer_sorts_edge_pairs
    edges numPoints numEdges (localBuffers : gmap string (list A)) name buffer :
  length edges = numEdges * 2 →
  Forall (λ e, e < numPoints) edges →
  (Z.of_nat (numPoints * 4) < 2 ^ 32)%Z →
  (Z.of_nat (length edges) < 2 ^ 32)%Z →
  length buffer = numEdges * 2 →
  ∃ stored,
    loadLocalBuffer fill undef (Some (encapsulateEdges sort edges numPoints))
                    localBuffers name buffer
      = inr (<[name := stored]> localBuffers) ∧
    length stored = numEdges * 2 ∧
    if bool_decide (name = "edgeColors" ∨ name = "edgeHeights") then
      ∀ i, i < numEdges →
        ∃ u, edgePermutationInverseTyped (encapsulateEdges sort edges numPoints) !! i
               = Some u ∧
             stored !! (i * 2) = buffer !! (u * 2) ∧
             stored !! (i * 2 + 1) = buffer !! (u * 2 + 1) ∧
             edgesTyped (encapsulateEdges sort edges numPoints) !! (i * 2)
               = edges !! (u * 2) ∧
             edgesTyped (encapsulateEdges sort edges numPoints) !! (i * 2 + 1)
               = edges !! (u * 2 + 1)
    else stored = buffer.
Proof.
  intros Hlen _ _ _ Hbuf.
  destruct (EncapsulationFacts.permutation_tables sort sort_ok
              edges numPoints numEdges Hlen)
    as (_ & Hil & _ & _ & _ & Hcopy).
  unfold loadLocalBuffer. case_bool_decide as Hname.
  - eexists. split; [reflexivity|]. unfold sort_pairs.
    assert ((length buffer + 1) / 2 = numEdges) as ->.
    { rewrite Hbuf. replace (numEdges * 2 + 1) with (1 + numEdges * 2) by lia.
      rewrite Nat.div_add by done. done. }
    destruct (sort_pairs_loop
                (edgePermutationInverseTyped (encapsulateEdges sort edges numPoints))
                buffer numEdges numEdges Hbuf) as [Hslen Hs]; [lia|lia| |].
    { intros u [i Hi]%list_elem_of_lookup.
      destruct (Hcopy i) as (u' & Hu' & Hlt & _);
        [apply lookup_lt_Some in Hi; lia|]. congruence. }
    split; [by rewrite Hslen|].
    intros i Hi. destruct (Hcopy i Hi) as (u & Hu & _ & He & Hd).
    exists u. destruct (Hs i u Hi Hu) as [Hs0 Hs1]. done.
  - eexists. split; [reflexivity|]. done.
Qed.

End LocalBuffers.

(** The theorem on the four edges (2,3), (0,1), (1,2), (0,0) and a colour
    pair for each, in an integer array. *)
Lemma loadLocalBuffer_sorts_edge_pairs_witness :
  ∃ stored,
    loadLocalBuffer 0%Z 0%Z
      (Some (encapsulateEdges insertion_sort [2; 3; 0; 1; 1; 2; 0; 0] 4))
      ∅ "edgeColors" [10; 11; 20; 21; 30; 31; 40; 41]%Z
      = inr (<["edgeColors" := stored]> ∅) ∧
    length stored = 4 * 2 ∧
    if bool_decide ("edgeColors" = "edgeColors" ∨ "edgeColors" = "edgeHeights") then
      ∀ i, i < 4 →
        ∃ u, edgePermutationInverseTyped
               (encapsulateEdges insertion_sort [2; 3; 0; 1; 1; 2; 0; 0] 4) !! i
               = Some u ∧
             stored !! (i * 2) = [10; 11; 20; 21; 30; 31; 40; 41]%Z !! (u * 2) ∧
             stored !! (i * 2 + 1) = [10; 11; 20; 21; 30; 31; 40; 41]%Z !! (u * 2 + 1) ∧
             edgesTyped (encapsulateEdges insertion_sort [2; 3; 0; 1; 1; 2; 0; 0] 4)
               !! (i * 2) = [2; 3; 0; 1; 1; 2; 0; 0] !! (u * 2) ∧
             edgesTyped (encapsulateEdges insertion_sort [2; 3; 0; 1; 1; 2; 0; 0] 4)
               !! (i * 2 + 1) = [2; 3; 0; 1; 1; 2; 0; 0] !! (u * 2 + 1)
    else stored = [10; 11; 20; 21; 30; 31; 40; 41]%Z.
Proof.
  apply (loadLocalBuffer_sorts_edge_pairs 0%Z 0%Z insertion_sort insertion_sort_contract
           [2; 3; 0; 1; 1; 2; 0; 0] 4 4 ∅ "edgeColors"
           [10; 11; 20; 21; 30; 31; 40; 41]%Z).
  - reflexivity.
  - repeat constructor.
  - reflexivity.
  - reflexivity.
  - reflexivity.
Defined.

End LoadFacts.

Module ColumnsFacts.

Import Mask Edges Degree PlainObject Columns EdgesFacts.

Section Columns.

Context {V T : Type}.
Variable undefined : V.
Variable is_zero : V → bool.
Variable inherited : string → bool.

(** After a filter, the first read of a column whose name is not an
    inherited one gathers the raw values at the indices of [lastMasks], in
    the order of its traversal ([undefined] where the raw column has
    none), and stores them in the filtered view; the raw view and
    [lastMasks] stay as they are, and the next read returns the stored
    values without changing anything. *)
Theorem getColumnValues_gathers_then_caches
    (df : Dataframe (V:=V) (T:=T)) columnName type d raw :
  data df = Some d →
  inherited columnName = false →
  attributes d type !! columnName = None →
  attributes (rawdata df) type !! columnName = Some raw →
  ∃ df',
    getColumnValues undefined inherited df columnName type
      = inr (df', Some ((λ idx, default undefined (values raw !! idx))
                    <$> mapIndexes (numElements_point df) (numElements_edge df) type
                                   (lastMasks df))) ∧
    rawdata df' = rawdata df ∧ lastMasks df' = lastMasks df ∧
    (∀ other, other ≠ columnName →
       attributes (default (rawdata df') (data df')) type !! other
         = attributes d type !! other) ∧
    getColumnValues undefined inherited df' columnName type
      = inr (df', Some ((λ idx, default undefined (values raw !! idx))
                    <$> mapIndexes (numElements_point df) (numElements_edge df) type
                                   (lastMasks df))).
Proof.
  intros Hdata Hown Hmiss Hraw. unfold getColumnValues at 1.
  rewrite Hdata. cbn [default from_option id]. unfold get.
  rewrite Hmiss, Hown, Hraw.
  eexists. split; [reflexivity|]. cbn [rawdata lastMasks data fmap option_fmap option_map].
  split; [done|]. split; [done|]. split.
  - intros other Hne. cbn [default from_option id]. destruct type; cbn [set_column attributes attributes_point attributes_edge];
      by rewrite lookup_insert_ne.
  - unfold getColumnValues, get. cbn [data default from_option id fmap option_fmap option_map].
    assert (attributes (set_column d type columnName
              {| values := (λ idx, default undefined (values raw !! idx))
                             <$> mapIndexes (numElements_point df) (numElements_edge df)
                                            type (lastMasks df);
                 type := Columns.type raw; target := target raw |}) type !! columnName
            = Some {| values := (λ idx, default undefined (values raw !! idx))
                             <$> mapIndexes (numElements_point df) (numElements_edge df)
                                            type (lastMasks df);
                 type := Columns.type raw; target := target raw |}) as ->.
    { destruct type; cbn [set_column attributes attributes_point attributes_edge];
        by rewrite lookup_insert_eq. }
    done.
Qed.

Lemma orphans_loop_sublist (keep : nat → nat → bool) (points : list nat) : ∀ k acc,
  ∃ r, foldl (λ resultPointMask '(idx, pointIdx),
                if keep idx pointIdx then resultPointMask ++ [pointIdx]
                else resultPointMask)
             acc (zip (seq k (length points)) points) = acc ++ r ∧
       r `sublist_of` points ∧
       ∀ pointIdx, pointIdx ∈ r ↔
         ∃ idx, points !! idx = Some pointIdx ∧ keep (k + idx) pointIdx = true.
Proof.
  induction points as [|p points IH]; intros k acc.
  - exists []. simpl. split; [by rewrite app_nil_r|]. split; [done|].
    intros x. rewrite elem_of_nil. split; [done|]. by intros (idx & ? & _).
  - cbn [length seq zip zip_with foldl].
    destruct (IH (S k) (if keep k p then acc ++ [p] else acc)) as (r & -> & Hsub & Hr).
    assert (∀ x, x ∈ r ↔
              ∃ idx, (p :: points) !! S idx = Some x ∧ keep (k + S idx) x = true) as Hr'.
    { intros x. rewrite Hr. split; intros (idx & Hi & Hk); exists idx;
        (split; [done|]); by replace (k + S idx) with (S k + idx) in * by lia. }
    destruct (keep k p) eqn:Hkeep.
    + exists (p :: r). split; [by rewrite <- app_assoc|].
      split; [by apply sublist_skip|].
      intros x. rewrite elem_of_cons, Hr'. split.
      * intros [->|(idx & Hi & Hk)]; [|eauto].
        exists 0. split; [done|]. by rewrite Nat.add_0_r.
      * intros ([|idx] & Hi & Hk); [|right; eauto].
        left. simpl in Hi. congruence.
    + exists r. split; [done|]. split; [by apply sublist_cons|].
      intros x. rewrite Hr'. split; [intros (idx & ? & ?); eauto|].
      intros ([|idx] & Hi & Hk); [|eauto].
      simpl in Hi. injection Hi as <-. rewrite Nat.add_0_r in Hk. congruence.
Qed.

Lemma getColumnValues_frame (df df' : Dataframe (V:=V) (T:=T)) columnName type vs :
  getColumnValues undefined inherited df columnName type = inr (df', vs) →
  rawdata df' = rawdata df ∧ lastMasks df' = lastMasks df ∧
  numElements_point df' = numElements_point df.
Proof.
  unfold getColumnValues, get.
  destruct (data df) as [d|] eqn:Hdata; cbn [default from_option id].
  - destruct (attributes d type !! columnName); [by intros [= <- _]|].
    destruct (inherited columnName); [by intros [= <- _]|].
    destruct (attributes (rawdata df) type !! columnName); [|done].
    by intros [= <- _].
  - destruct (attributes (rawdata df) type !! columnName); [by intros [= <- _]|].
    destruct (inherited columnName); [by intros [= <- _]|done].
Qed.

(** [pruneOrphans] only drops points: when it returns a mask, the points
    of that mask are points of the base mask, in the same order, and its
    edges are the base mask's, untouched; the raw view and [lastMasks] are
    not changed. *)
Theorem pruneOrphans_only_drops_points
    (df df' : Dataframe (V:=V) (T:=T)) baseMask result :
  pruneOrphans undefined is_zero inherited df baseMask = inr (df', result) →
  edge result = edge baseMask ∧
  (∃ points, point result = Some points ∧
     points `sublist_of` mapPointIndexes (numElements_point df) baseMask) ∧
  rawdata df' = rawdata df ∧ lastMasks df' = lastMasks df.
Proof.
  unfold pruneOrphans.
  destruct (numPoints (numElements_point df) baseMask =? numElements_point df).
  - destruct (getColumnValues undefined inherited df "degree" Point)
      as [e|[df1 [degreeColumn|]]] eqn:Hcol; [done| |].
    + destruct (getColumnValues_frame _ _ _ _ _ Hcol) as (Hraw & Hmasks & Hnp).
      intros [= <- <-]. cbn [edge point]. split; [done|]. split; [|done].
      eexists. split; [reflexivity|].
      rewrite PruneFacts.push_if_filter, Hnp. simpl. apply sublist_filter.
    + destruct (getColumnValues_frame _ _ _ _ _ Hcol) as (Hraw & Hmasks & Hnp).
      destruct (mapPointIndexes (numElements_point df1) baseMask); [|done].
      intros [= <- <-]. cbn [edge point]. split; [done|]. split; [|done].
      eexists. split; [reflexivity|]. apply sublist_nil_l.
  - unfold getHostBuffer.
    destruct (forwardsEdges (default (rawdata df) (data df))) as [fe|]; [|done].
    destruct (backwardsEdges (default (rawdata df) (data df))) as [be|]; [|done].
    destruct (negb _); [done|]. intros [= <- <-]. cbn [edge point].
    split; [done|]. split; [|done].
    destruct (orphans_loop_sublist
                (λ idx _, negb (bool_decide (degreesTyped be !! idx = Some 0%Z))
                          || negb (bool_decide (degreesTyped fe !! idx = Some 0%Z)))
                (mapPointIndexes (numElements_point df) baseMask) 0 [])
      as (r & Hr & Hsub & _).
    eexists. split; [reflexivity|]. rewrite Hr. done.
Qed.

Section Encapsulated.

Variable sort : (nat → nat → Z) → list nat → list nat.
Hypothesis sort_ok : sort_contract sort.

(** On a filtered view whose two encapsulations are those of its edges and
    of its edges reversed, for a base mask of as many points as the view
    has: [pruneOrphans] keeps the point at position [idx] of the mask when
    an edge of the view leaves or enters the view's point [idx], and only
    then. *)
Theorem pruneOrphans_keeps_points_with_an_edge
    (df : Dataframe (V:=V) (T:=T)) d baseMask forwards backwards n numEdges :
  data df = Some d →
  forwardsEdges d = Some (encapsulateEdges sort forwards n) →
  backwardsEdges d = Some (encapsulateEdges sort backwards n) →
  numPoints (numElements_point df) baseMask = n →
  n ≠ numElements_point df →
  length forwards = numEdges * 2 → length backwards = numEdges * 2 →
  Forall (λ e, e < n) forwards → Forall (λ e, e < n) backwards →
  (Z.of_nat (n * 4) < 2 ^ 32)%Z →
  (Z.of_nat (numEdges * 2) < 2 ^ 32)%Z →
  ∃ points,
    pruneOrphans undefined is_zero inherited df baseMask
      = inr (df, {| point := Some points; edge := edge baseMask |}) ∧
    ∀ pointIdx, pointIdx ∈ points ↔
      ∃ idx, mapPointIndexes (numElements_point df) baseMask !! idx = Some pointIdx ∧
             (0 < out_degree forwards idx ∨ 0 < out_degree backwards idx).
Proof.
  intros Hdata Hfe Hbe Hn Hne Hfl Hbl Hfv Hbv Hnb Heb.
  destruct (EncapsulationFacts.degree_table sort sort_ok forwards n numEdges)
    as (Hfdl & _ & Hfd); [done|done|done|lia|].
  destruct (EncapsulationFacts.degree_table sort sort_ok backwards n numEdges)
    as (Hbdl & _ & Hbd); [done|done|done|lia|].
  unfold pruneOrphans. rewrite Hn.
  assert ((n =? numElements_point df) = false) as -> by (by apply Nat.eqb_neq).
  unfold getHostBuffer. rewrite Hdata. cbn [default from_option id].
  rewrite Hfe, Hbe, Hbdl, Nat.eqb_refl. cbn [negb].
  destruct (orphans_loop_sublist
              (λ idx _, negb (bool_decide
                                (degreesTyped (encapsulateEdges sort backwards n) !! idx
                                 = Some 0%Z))
                        || negb (bool_decide
                                   (degreesTyped (encapsulateEdges sort forwards n) !! idx
                                    = Some 0%Z)))
              (mapPointIndexes (numElements_point df) baseMask) 0 [])
    as (r & Hr & _ & Hmem).
  exists r. split; [by rewrite Hr|].
  intros x. rewrite Hmem. unfold numPoints in Hn.
  split; intros (idx & Hidx & Hkeep); exists idx; (split; [done|]).
  - assert (idx < n) as Hlt by (apply lookup_lt_Some in Hidx; lia).
    destruct (Hfd idx Hlt) as [Hf _]. destruct (Hbd idx Hlt) as [Hb _].
    cbn [Nat.add] in Hkeep. rewrite Hf, Hb in Hkeep.
    apply orb_true_iff in Hkeep as [Hk|Hk]; apply negb_true_iff in Hk;
      apply bool_decide_eq_false in Hk.
    + right. destruct (out_degree backwards idx); [done|lia].
    + left. destruct (out_degree forwards idx); [done|lia].
  - assert (idx < n) as Hlt by (apply lookup_lt_Some in Hidx; lia).
    destruct (Hfd idx Hlt) as [Hf _]. destruct (Hbd idx Hlt) as [Hb _].
    cbn [Nat.add]. rewrite Hf, Hb. apply orb_true_iff.
    destruct Hkeep as [Hk|Hk]; [right|left]; apply negb_true_iff;
      apply bool_decide_eq_false; intros [=]; lia.
Qed.

End Encapsulated.

End Columns.

(** The first theorem on a view filtered to the points 0 and 2 of three,
    for the degree column 1, 0, 2. *)
Lemma getColumnValues_gathers_then_caches_witness :
  ∃ df',
    getColumnValues 0%Z es5_inherited
      {| numElements_point := 3; numElements_edge := 0;
         rawdata := {| attributes_point :=
                         {[ "degree" := {| values := [1; 0; 2]%Z; type := "number";
                                           target := () |} ]};
                       attributes_edge := ∅;
                       forwardsEdges := None; backwardsEdges := None |};
         data := Some {| attributes_point := ∅; attributes_edge := ∅;
                         forwardsEdges := None; backwardsEdges := None |};
         lastMasks := {| point := Some [0; 2]; edge := Some [] |} |}
      "degree" Point
    = inr (df', Some [1; 2]%Z) ∧
    getColumnValues 0%Z es5_inherited df' "degree" Point = inr (df', Some [1; 2]%Z).
Proof.
  destruct (getColumnValues_gathers_then_caches 0%Z es5_inherited
              {| numElements_point := 3; numElements_edge := 0;
                 rawdata := {| attributes_point :=
                                 {[ "degree" := {| values := [1; 0; 2]%Z;
                                                   type := "number"; target := () |} ]};
                               attributes_edge := ∅;
                               forwardsEdges := None; backwardsEdges := None |};
                 data := Some {| attributes_point := ∅; attributes_edge := ∅;
                                 forwardsEdges := None; backwardsEdges := None |};
                 lastMasks := {| point := Some [0; 2]; edge := Some [] |} |}
              "degree" Point
              {| attributes_point := ∅; attributes_edge := ∅;
                 forwardsEdges := None; backwardsEdges := None |}
              {| values := [1; 0; 2]%Z; type := "number"; target := () |})
    as (df' & Hfirst & _ & _ & _ & Hsecond).
  - reflexivity.
  - reflexivity.
  - reflexivity.
  - reflexivity.
  - exists df'. exact (conj Hfirst Hsecond).
Defined.

(** The second theorem on an unfiltered dataframe of three points, the
    second of degree 0, for the full mask. *)
Lemma pruneOrphans_only_drops_points_witness :
  edge {| point := Some [0; 2]; edge := None |} = edge fullDataframeMask ∧
  ∃ points,
    point {| point := Some [0; 2]; edge := None |} = Some points ∧
    points `sublist_of` mapPointIndexes 3 fullDataframeMask.
Proof.
  destruct (pruneOrphans_only_drops_points 0%Z (λ v, (v =? 0)%Z) es5_inherited
              {| numElements_point := 3; numElements_edge := 0;
                 rawdata := {| attributes_point :=
                                 {[ "degree" := {| values := [1; 0; 2]%Z;
                                                   type := "number"; target := () |} ]};
                               attributes_edge := ∅;
                               forwardsEdges := None; backwardsEdges := None |};
                 data := None;
                 lastMasks := fullDataframeMask |}
              {| numElements_point := 3; numElements_edge := 0;
                 rawdata := {| attributes_point :=
                                 {[ "degree" := {| values := [1; 0; 2]%Z;
                                                   type := "number"; target := () |} ]};
                               attributes_edge := ∅;
                               forwardsEdges := None; backwardsEdges := None |};
                 data := None;
                 lastMasks := fullDataframeMask |}
              fullDataframeMask {| point := Some [0; 2]; edge := None |})
    as (Hedge & Hpoints & _).
  - reflexivity.
  - exact (conj Hedge Hpoints).
Defined.

(** The third theorem on a view of four points with the one edge (0,1),
    filtered from five points by the mask of the points 0, 1, 2, 4. *)
Lemma pruneOrphans_keeps_points_with_an_edge_witness :
  ∃ points,
    pruneOrphans 0%Z (λ v, (v =? 0)%Z) es5_inherited
      {| numElements_point := 5; numElements_edge := 1;
         rawdata := {| attributes_point := (∅ : gmap string (Column (V:=Z) (T:=())));
                       attributes_edge := ∅;
                       forwardsEdges := None; backwardsEdges := None |};
         data := Some {| attributes_point := ∅; attributes_edge := ∅;
                         forwardsEdges := Some (encapsulateEdges insertion_sort [0; 1] 4);
                         backwardsEdges := Some (encapsulateEdges insertion_sort [1; 0] 4) |};
         lastMasks := {| point := Some [0; 1; 2; 4]; edge := Some [0] |} |}
      {| point := Some [0; 1; 2; 4]; edge := Some [0] |}
    = inr ({| numElements_point := 5; numElements_edge := 1;
              rawdata := {| attributes_point := ∅; attributes_edge := ∅;
                            forwardsEdges := None; backwardsEdges := None |};
              data := Some {| attributes_point := ∅; attributes_edge := ∅;
                              forwardsEdges :=
                                Some (encapsulateEdges insertion_sort [0; 1] 4);
                              backwardsEdges :=
                                Some (encapsulateEdges insertion_sort [1; 0] 4) |};
              lastMasks := {| point := Some [0; 1; 2; 4]; edge := Some [0] |} |},
           {| point := Some points; edge := Some [0] |}) ∧
    ∀ pointIdx, pointIdx ∈ points ↔
      ∃ idx, [0; 1; 2; 4] !! idx = Some pointIdx ∧
             (0 < out_degree [0; 1] idx ∨ 0 < out_degree [1; 0] idx).
Proof.
  apply (pruneOrphans_keeps_points_with_an_edge 0%Z (λ v, (v =? 0)%Z) es5_inherited
           insertion_sort insertion_sort_contract
           {| numElements_point := 5; numElements_edge := 1;
              rawdata := {| attributes_point := (∅ : gmap string (Column (V:=Z) (T:=())));
                            attributes_edge := ∅;
                            forwardsEdges := None; backwardsEdges := None |};
              data := Some {| attributes_point := ∅; attributes_edge := ∅;
                              forwardsEdges :=
                                Some (encapsulateEdges insertion_sort [0; 1] 4);
                              backwardsEdges :=
                                Some (encapsulateEdges insertion_sort [1; 0] 4) |};
              lastMasks := {| point := Some [0; 1; 2; 4]; edge := Some [0] |} |}
           {| attributes_point := ∅; attributes_edge := ∅;
              forwardsEdges := Some (encapsulateEdges insertion_sort [0; 1] 4);
              backwardsEdges := Some (encapsulateEdges insertion_sort [1; 0] 4) |}
           {| point := Some [0; 1; 2; 4]; edge := Some [0] |}
           [0; 1] [1; 0] 4 1).
  - reflexivity.
  - reflexivity.
  - reflexivity.
  - reflexivity.
  - simpl. lia.
  - reflexivity.
  - reflexivity.
  - repeat constructor.
  - repeat constructor.
  - reflexivity.
  - reflexivity.
Defined.

End ColumnsFacts.

Module NamesFacts.

Import PlainObject Names.

Lemma lastIndexOf_app t c n :
  lastIndexOf c n = None →
  lastIndexOf c (t +:+ String c n) = Some (String.length t).
Proof.
  intros Hn. induction t as [|a t IH]; simpl.
  - by rewrite Hn, Ascii.eqb_refl.
  - by rewrite IH.
Qed.

Lemma substring_prefix t rest :
  String.substring 0 (String.length t) (t +:+ rest) = t.
Proof. induction t as [|a t IH]; simpl; [by destruct rest|by rewrite IH]. Qed.

Lemma substring_all s : String.substring 0 (String.length s) s = s.
Proof. induction s as [|a s IH]; simpl; [done|by rewrite IH]. Qed.

Lemma substring_suffix t rest :
  String.substring (String.length t) (String.length rest) (t +:+ rest) = rest.
Proof. induction t as [|a t IH]; simpl; [apply substring_all|done]. Qed.

Lemma length_app_string t rest :
  String.length (t +:+ rest) = String.length t + String.length rest.
Proof. induction t as [|a t IH]; simpl; [done|by rewrite IH]. Qed.

Section Names.

Variable inherited : string → bool.
Variable member_answers : string → string → bool.

(** A qualified column name [type:name] is split at its last colon; the
    type in front of the colon replaces the [type] argument, whatever that
    was, and a type that neither view has attributes for, and that is not
    an inherited name, makes the call throw instead of answering
    [undefined]. *)
Theorem normalizeAttributeName_splits_at_last_colon df t n type :
  lastIndexOf colon n = None →
  normalizeAttributeName inherited member_answers df (Some (t +:+ ":" +:+ n)) type
    = getKeyFromName inherited member_answers df (Some n) (Some t) ∧
  (rawdata_attributes df !! t = None → data_attributes df !! t = None →
   inherited t = false →
   normalizeAttributeName inherited member_answers df (Some (t +:+ ":" +:+ n)) type = inl "TypeError").
Proof.
  intros Hn.
  assert (normalizeAttributeName inherited member_answers df (Some (t +:+ ":" +:+ n)) type
          = getKeyFromName inherited member_answers df (Some n) (Some t)) as Heq.
  { unfold normalizeAttributeName.
    rewrite bool_decide_false by (by destruct t).
    change (":" +:+ n) with (String colon n).
    rewrite (lastIndexOf_app t colon n Hn).
    rewrite substring_prefix.
    assert (t +:+ String colon n = (t +:+ ":") +:+ n) as ->.
    { clear. induction t as [|a t IH]; [done|].
      change (String a (t +:+ String colon n) = String a ((t +:+ ":") +:+ n)).
      by rewrite IH. }
    assert (String.length t + 1 = String.length (t +:+ ":")) as ->.
    { rewrite length_app_string. simpl. lia. }
    rewrite (length_app_string (t +:+ ":") n).
    replace (String.length (t +:+ ":") + String.length n - String.length (t +:+ ":"))
      with (String.length n) by lia.
    by rewrite substring_suffix. }
  split; [exact Heq|].
  intros Hraw Hdata Hown. rewrite Heq. unfold getKeyFromName. cbv beta iota.
  unfold getKeyFromName_of_type, get. rewrite Hraw, Hdata, Hown. done.
Qed.



End Names.

(** The two theorems on a dataframe with the point column [degree] and
    the edge column [w], named [weight]; no inherited member answers to
    anything. *)
Lemma normalizeAttributeName_splits_at_last_colon_witness :
  normalizeAttributeName es5_inherited (λ _ _, false)
    {| rawdata_attributes := {[ "point" := [("degree", Some "degree")];
                                "edge" := [("w", Some "weight")] ]};
       data_attributes := {[ "point" := [("degree", Some "degree")];
                             "edge" := [("w", Some "weight")] ]} |}
    (Some ("edge" +:+ ":" +:+ "weight")) (Some "point")
  = getKeyFromName es5_inherited (λ _ _, false)
      {| rawdata_attributes := {[ "point" := [("degree", Some "degree")];
                                  "edge" := [("w", Some "weight")] ]};
         data_attributes := {[ "point" := [("degree", Some "degree")];
                               "edge" := [("w", Some "weight")] ]} |}
      (Some "weight") (Some "edge").
Proof.
  apply (normalizeAttributeName_splits_at_last_colon es5_inherited (λ _ _, false)
           {| rawdata_attributes := {[ "point" := [("degree", Some "degree")];
                                       "edge" := [("w", Some "weight")] ]};
              data_attributes := {[ "point" := [("degree", Some "degree")];
                                    "edge" := [("w", Some "weight")] ]} |}
           "edge" "weight" (Some "point")).
  reflexivity.
Defined.


End NamesFacts.

Module HistogramLaws.

Import Number Agg Histogram MinMaxFacts.

Section Binning.

Variable Math_log : float → float.
Variable NumberToString : float → string.

Lemma run_distinct_new values :
  agg_countDistinct (aggregations (run_distinct NumberToString (new values)))
    = Some (ds_numDistinct
              (foldl (distinct_step NumberToString 500)
                     {| ds_distinctCounts := ∅; ds_numDistinct := 0;
                        ds_minValue := infinity; ds_maxValue := neg_infinity |}
                     (Some <$> values))).
Proof.
  unfold run_distinct.
  by destruct (AggFacts.countDistinct_new NumberToString 500 values) as [_ ->].
Qed.

Lemma no_distinct_value_iff values :
  agg_countDistinct (aggregations (run_distinct NumberToString (new values))) = Some 0
  ↔ defined_values values = [].
Proof.
  rewrite run_distinct_new.
  destruct (DistinctFacts.distinct_scan_counts NumberToString 500 values)
    as (Hsize & _ & Hcounts).
  set (st := foldl _ _ _) in *. split.
  - intros [= Hn]. rewrite Hn in *. specialize (Hcounts ltac:(lia)).
    apply map_size_empty_iff in Hsize.
    destruct (defined_values values) as [|v l] eqn:Hd; [done|]. exfalso.
    specialize (Hcounts (NumberToString v)).
    rewrite Hsize, lookup_empty, filter_cons in Hcounts.
    rewrite (decide_True (P := NumberToString v = NumberToString v)) in Hcounts by done.
    simpl in Hcounts. done.
  - intros Hd. f_equal.
    destruct (decide (ds_numDistinct st ≤ 500)) as [Hle|Hgt].
    + specialize (Hcounts Hle). rewrite <- Hsize. apply map_size_empty_iff.
      apply map_eq. intros k. rewrite Hcounts, Hd, lookup_empty. done.
    + exfalso. apply Hgt. clear Hgt Hcounts Hsize. subst st.
      assert (∀ st0, ds_numDistinct
                (foldl (distinct_step NumberToString 500) st0 (Some <$> values))
              = ds_numDistinct st0) as Hkeep.
      { clear -Hd. induction values as [|v values IH]; intros st0; [done|].
        rewrite defined_values_cons in Hd.
        destruct (numberSignifiesUndefined v) eqn:Hv; [|done].
        rewrite fmap_cons. cbn [foldl]. rewrite (IH Hd).
        unfold distinct_step. simpl. by rewrite Hv. }
      rewrite Hkeep. simpl. lia.
Qed.

(** [histogram] answers ['nodata'] exactly when the column has no defined
    value; no binning, no goal and no list of indices, not even the empty
    one, makes it do so on a column that has one. *)
Theorem histogram_nodata_iff_no_defined_value values binning goalNumberOfBins indices :
  (histogram Math_log NumberToString (new values) binning goalNumberOfBins indices).2
    = NoData
  ↔ defined_values values = [].
Proof.
  rewrite <- no_distinct_value_iff.
  unfold histogram, getAggregationByType. cbn [new aggregations agg_countDistinct].
  set (ca := run_distinct NumberToString (new values)).
  set (n := agg_countDistinct (aggregations ca)).
  case_bool_decide as Hn; [done|].
  split; [|done]. intros Hno. exfalso.
  destruct binning as [b|].
  - revert Hno. cbv zeta.
    destruct (if (maxValue b =? minValue b)%float then _ else _) as [[[nb bw] tv] bv].
    destruct (array_length nb); [|done].
    destruct (nb =? 1)%float; [done|]. by destruct (foldl _ _ _).
  - revert Hno.
    destruct (calculateBinning Math_log NumberToString ca _ goalNumberOfBins)
      as [ca' [b|]]; [|done].
    cbv zeta.
    destruct (if (maxValue b =? minValue b)%float then _ else _) as [[[nb bw] tv] bv].
    destruct (array_length nb); [|done].
    destruct (nb =? 1)%float; [done|]. by destruct (foldl _ _ _).
Qed.

End Binning.

End HistogramLaws.

Module FilterLaws.

Import Mask Edges Filter.

Section Pass.

Variable sort : (nat → nat → Z) → list nat → list nat.


End Pass.

End FilterLaws.

Module UnfilteredFacts.

Import Mask Edges PlainObject Query Unfiltered EdgesFacts.

Section Unfiltered.

Context {V : Type}.
Variable undefined : V.
Variable inherited : string → bool.

(** After the first [k] turns of the loop: the entries from [k] on are
    the original ones, and each entry [i] below [k] was copied from
    position [map[i]] of the array as it stood at turn [i]. *)
Lemma sort_in_place_turns (map : list nat) (values : list V) k :
  k ≤ length values →
  let s := foldl (λ values i,
                    <[i := default undefined (map !! i ≫= λ j, values !! j)]> values)
                 values (seq 0 k) in
  length s = length values ∧
  (∀ i, k ≤ i → s !! i = values !! i) ∧
  (∀ i, i < k →
     s !! i = Some (default undefined
                      (map !! i ≫= λ j, if j <? i then s !! j else values !! j))).
Proof.
  induction k as [|k IH]; intros Hk; cbn zeta.
  - simpl. split; [done|]. split; [done|]. intros i Hi. lia.
  - rewrite seq_S, foldl_app. cbn [foldl Nat.add].
    destruct IH as (Hlen & Hrest & Hdone); [lia|].
    set (s := foldl _ values (seq 0 k)) in *.
    split; [by rewrite length_insert|]. split.
    + intros i Hi. rewrite list_lookup_insert_ne by lia. apply Hrest. lia.
    + intros i Hi. destruct (decide (i = k)) as [->|Hne].
      * rewrite list_lookup_insert_eq by lia. f_equal. f_equal.
        destruct (map !! k) as [j|]; [|done]. cbn [mbind option_bind].
        destruct (j <? k) eqn:Hj.
        -- apply Nat.ltb_lt in Hj. by rewrite list_lookup_insert_ne by lia.
        -- apply Nat.ltb_ge in Hj. by apply Hrest.
      * rewrite list_lookup_insert_ne by lia. rewrite Hdone by lia.
        f_equal. f_equal. destruct (map !! i) as [j|]; [|done].
        cbn [mbind option_bind]. destruct (j <? i) eqn:Hj; [|done].
        apply Nat.ltb_lt in Hj. by rewrite list_lookup_insert_ne by lia.
Qed.

Lemma sort_in_place_spec (map : list nat) (values : list V) :
  length (sort_in_place undefined map values) = length values ∧
  ∀ i, i < length values →
    sort_in_place undefined map values !! i
      = Some (default undefined
                (map !! i ≫= λ j, if j <? i
                                  then sort_in_place undefined map values !! j
                                  else values !! j)).
Proof.
  destruct (sort_in_place_turns map values (length values)) as (Hlen & _ & Hdone);
    [done|].
  split; [exact Hlen|]. intros i Hi. by apply Hdone.
Qed.

(** A table that is a bijection of the positions is the identity or sends
    some position to a lower one. *)
Lemma bijection_descends (map inv : list nat) n :
  length inv = n →
  (∀ u, u < n → ∃ i, map !! u = Some i ∧ inv !! i = Some u) →
  (∀ u, u < n → map !! u = Some u) ∨
  ∃ i j, i < n ∧ map !! i = Some j ∧ j < i.
Proof.
  intros Hlen Hbij.
  assert (∀ k, k ≤ n →
            (∀ u, k ≤ u → u < n → map !! u = Some u) ∨
            ∃ i j, i < n ∧ map !! i = Some j ∧ j < i) as Hdown.
  { intros k Hk. remember (n - k) as d eqn:Hd.
    revert k Hk Hd. induction d as [|d IH]; intros k Hk Hd.
    - left. intros u ? ?. lia.
    - destruct (IH (S k)) as [Hfix|Hfound]; [lia|lia| |by right].
      destruct (Hbij k) as (j & Hkj & Hjk); [lia|].
      destruct (decide (j = k)) as [->|Hne].
      + left. intros u Hu Hun. destruct (decide (u = k)) as [->|]; [done|].
        apply Hfix; lia.
      + right. exists k, j. split; [lia|]. split; [done|].
        destruct (decide (j < k)) as [|Hge]; [done|].
        assert (j < n) as Hjn by (apply lookup_lt_Some in Hjk; lia).
        destruct (Hbij j Hjn) as (j' & Hj' & Hinv).
        rewrite (Hfix j) in Hj' by lia. injection Hj' as <-.
        rewrite Hjk in Hinv. injection Hinv as ->. lia. }
  destruct (Hdown 0) as [Hfix|Hfound]; [lia| |by right].
  left. intros u Hu. apply Hfix; lia.
Qed.

(** [sortEdgeColumnValues] leaves point values alone and overwrites edge
    values in place, front to back: entry [i] becomes the entry at
    [edgePermutation[i]] of the array as it stands then, which is the
    original value when [edgePermutation[i]] is [i] or above, and the
    entry already overwritten when it is below [i]. *)
Theorem sortEdgeColumnValues_copies_front_to_back
    (df : Dataframe (V:=V)) forwardsEdges values :
  rawdata_forwardsEdges df = Some forwardsEdges →
  sortEdgeColumnValues undefined df Point values = inr values ∧
  ∃ results,
    sortEdgeColumnValues undefined df Edge values = inr results ∧
    length results = length values ∧
    ∀ i, i < length values →
      results !! i
        = Some (default undefined
                  (edgePermutation forwardsEdges !! i ≫= λ j,
                     if j <? i then results !! j else values !! j)).
Proof.
  intros Hfe. split; [done|]. unfold sortEdgeColumnValues. rewrite Hfe.
  destruct (sort_in_place_spec (edgePermutation forwardsEdges) values) as [Hlen Hat].
  eauto.
Qed.

Section Encapsulated.

Variable sort : (nat → nat → Z) → list nat → list nat.
Hypothesis sort_ok : sort_contract sort.

(** [getUnfilteredColumnValues] returns the array of the raw column
    itself, and for an edge column sorts it where it is: on a dataframe
    whose forward encapsulation is that of its edges and moves any of
    them, the raw column afterwards holds the returned array, in which
    some value stands twice; a column of pairwise different values has
    lost one of them.  With a function to map, the dataframe is left as
    it was. *)
Theorem getUnfilteredColumnValues_overwrites_the_raw_column
    (df : Dataframe (V:=V)) columnName values edges numPoints numEdges :
  length edges = numEdges * 2 →
  rawdata_forwardsEdges df = Some (encapsulateEdges sort edges numPoints) →
  rawdata_attributes_edge df !! columnName = Some values →
  length values = numEdges →
  edgePermutation (encapsulateEdges sort edges numPoints) ≠ seq 0 numEdges →
  ∃ df' results,
    getUnfilteredColumnValues undefined inherited df Edge columnName
      = inr (df', Some results) ∧
    rawdata_attributes_edge df' !! columnName = Some results ∧
    length results = numEdges ∧
    (∃ i j, j < i ∧ i < numEdges ∧ results !! i = results !! j) ∧
    (NoDup values → ¬ results ≡ₚ values) ∧
    ∀ func, ∃ mapped,
      mapUnfilteredColumnValues undefined inherited df Edge columnName (Some func)
        = inr (df, Some mapped).
Proof.
  intros Hlen Hfe Hcol Hvals Hmoves.
  destruct (EncapsulationFacts.permutation_tables sort sort_ok
              edges numPoints numEdges Hlen)
    as (Hpl & Hil & _ & Hperm & _ & _).
  set (map := edgePermutation (encapsulateEdges sort edges numPoints)) in *.
  destruct (sort_in_place_spec map values) as [Hrl Hat].
  assert (∃ i j, j < i ∧ i < numEdges ∧
            sort_in_place undefined map values !! i
              = sort_in_place undefined map values !! j) as Htwice.
  { destruct (bijection_descends map _ numEdges Hil Hperm) as [Hfix|(i & j & Hi & Hij & Hji)].
    - destruct Hmoves. apply list_eq_same_length with numEdges; [by rewrite length_seq|done|].
      intros u x y Hu Hx Hy. rewrite Hfix in Hx by done.
      rewrite lookup_seq in Hy. destruct Hy as [-> _]. by injection Hx.
    - exists i, j. split; [done|]. split; [done|].
      rewrite (Hat i) by lia. rewrite Hij. cbn [mbind option_bind].
      assert ((j <? i) = true) as -> by (by apply Nat.ltb_lt).
      destruct (sort_in_place undefined map values !! j) as [x|] eqn:Hx; [done|].
      apply lookup_ge_None in Hx. lia. }
  exists (set_values df Edge columnName (sort_in_place undefined map values)),
         (sort_in_place undefined map values).
  split; [|split; [|split; [|split; [|split]]]].
  - unfold getUnfilteredColumnValues, mapUnfilteredColumnValues, get.
    cbn [attributes]. rewrite Hcol. unfold sortEdgeColumnValues. by rewrite Hfe.
  - cbn [set_values rawdata_attributes_edge]. by rewrite lookup_insert_eq.
  - lia.
  - exact Htwice.
  - intros Hnd Hp. destruct Htwice as (i & j & Hji & Hi & Heq).
    assert (NoDup (sort_in_place undefined map values)) as Hnd'
      by (by rewrite Hp).
    destruct (sort_in_place undefined map values !! i) as [x|] eqn:Hx.
    + pose proof (NoDup_lookup _ i j x Hnd' Hx (eq_sym Heq)). lia.
    + apply lookup_ge_None in Hx. lia.
  - intros func. unfold mapUnfilteredColumnValues, get. cbn [attributes].
    rewrite Hcol. unfold sortEdgeColumnValues. rewrite Hfe. eauto.
Qed.

End Encapsulated.

End Unfiltered.

(** The two theorems on the four edges (2,3), (0,1), (1,2), (0,0), whose
    sorting moves the first to the end, with the weights 5, 0, 7, 1. *)
Lemma sortEdgeColumnValues_copies_front_to_back_witness :
  ∃ results,
    sortEdgeColumnValues (-1)%Z
      {| rawdata_attributes_point := ∅;
         rawdata_attributes_edge := {[ "weight" := [5; 0; 7; 1]%Z ]};
         rawdata_forwardsEdges :=
           Some (encapsulateEdges insertion_sort [2; 3; 0; 1; 1; 2; 0; 0] 4) |}
      Edge [5; 0; 7; 1]%Z = inr results ∧
    length results = 4.
Proof.
  destruct (sortEdgeColumnValues_copies_front_to_back (-1)%Z
              {| rawdata_attributes_point := ∅;
                 rawdata_attributes_edge := {[ "weight" := [5; 0; 7; 1]%Z ]};
                 rawdata_forwardsEdges :=
                   Some (encapsulateEdges insertion_sort [2; 3; 0; 1; 1; 2; 0; 0] 4) |}
              (encapsulateEdges insertion_sort [2; 3; 0; 1; 1; 2; 0; 0] 4)
              [5; 0; 7; 1]%Z)
    as (_ & results & Hcall & Hlen & _).
  - reflexivity.
  - exists results. exact (conj Hcall Hlen).
Defined.

Lemma getUnfilteredColumnValues_overwrites_the_raw_column_witness :
  ∃ df' results,
    getUnfilteredColumnValues (-1)%Z es5_inherited
      {| rawdata_attributes_point := ∅;
         rawdata_attributes_edge := {[ "weight" := [5; 0; 7; 1]%Z ]};
         rawdata_forwardsEdges :=
           Some (encapsulateEdges insertion_sort [2; 3; 0; 1; 1; 2; 0; 0] 4) |}
      Edge "weight" = inr (df', Some results) ∧
    rawdata_attributes_edge df' !! "weight" = Some results ∧
    ¬ results ≡ₚ [5; 0; 7; 1]%Z.
Proof.
  destruct (getUnfilteredColumnValues_overwrites_the_raw_column (-1)%Z es5_inherited
              insertion_sort insertion_sort_contract
              {| rawdata_attributes_point := ∅;
                 rawdata_attributes_edge := {[ "weight" := [5; 0; 7; 1]%Z ]};
                 rawdata_forwardsEdges :=
                   Some (encapsulateEdges insertion_sort [2; 3; 0; 1; 1; 2; 0; 0] 4) |}
              "weight" [5; 0; 7; 1]%Z [2; 3; 0; 1; 1; 2; 0; 0] 4 4)
    as (df' & results & Hcall & Hraw & _ & _ & Hlost & _).
  - reflexivity.
  - reflexivity.
  - reflexivity.
  - reflexivity.
  - vm_compute. discriminate.
  - exists df', results. split; [exact Hcall|]. split; [exact Hraw|].
    apply Hlost. apply (bool_decide_unpack _). vm_compute. exact I.
Defined.

End UnfilteredFacts.

Module DivergenceFacts.

Import Number Agg Divergence FloatOrder MinMaxFacts.

Lemma leb_ltb_strict x y z :
  (x <=? y)%float = true → (y <? z)%float = true → (x <? z)%float = true.
Proof.
  rewrite !FloatAxioms.ltb_spec, FloatAxioms.leb_spec. unfold SFltb, SFleb.
  intros H1 H2.
  destruct (SFcompare (Prim2SF y) (Prim2SF z)) as [[]|] eqn:E2; try done.
  destruct (SFcompare (Prim2SF x) (Prim2SF y)) as [c|] eqn:E1; [|done].
  assert (c ≠ Gt) as Hc by (by destruct c).
  assert (Prim2SF x ≠ S754_nan) as Hx by (by destruct (Prim2SF x)).
  assert (Prim2SF y ≠ S754_nan) as Hy
    by (destruct (Prim2SF x), (Prim2SF y); done).
  assert (Prim2SF z ≠ S754_nan) as Hz
    by (destruct (Prim2SF y), (Prim2SF z); done).
  destruct (SFcompare_total _ _ Hx Hz) as (d & Hd & Hd').
  rewrite Hd. destruct d; [|done|]; exfalso; simpl in Hd'.
  - (* y < z and z = x give y < x *)
    pose proof (SFcompare_lt_trans _ _ _ Eq E2 Hd' ltac:(done)) as Hyx.
    destruct (SFcompare_total _ _ Hx Hy) as (e & He & He').
    rewrite E1 in He. injection He as <-. rewrite Hyx in He'. by destruct c.
  - (* z < x and x <= y give z < y *)
    pose proof (SFcompare_lt_trans _ _ _ c Hd' E1 Hc) as Hzy.
    destruct (SFcompare_total _ _ Hy Hz) as (e & He & He').
    rewrite E2 in He. injection He as <-. simpl in He'. congruence.
Qed.

(** The largest value of the numeric scan is the one it started with or a
    defined value of the column. *)
Lemma numeric_scan_max_is_a_value values : ∀ st,
  ns_maxValue (foldl numeric_step st (Some <$> values)) = ns_maxValue st ∨
  ns_maxValue (foldl numeric_step st (Some <$> values)) ∈ defined_values values.
Proof.
  induction values as [|v values IH]; intros st; [by left|].
  rewrite fmap_cons, defined_values_cons. cbn [foldl].
  destruct (IH (numeric_step st (Some v))) as [Heq|Hin].
  - rewrite Heq. unfold numeric_step.
    destruct (numberSignifiesUndefined v); [by left|].
    destruct (v <? ns_minValue st)%float; [by left|].
    destruct (ns_maxValue st <? v)%float; [right; by left|by left].
  - right. unfold numeric_step in Hin |- *.
    destruct (numberSignifiesUndefined v); [done|by right].
Qed.

(** While every value is below the least one so far, the largest one is
    never set. *)
Lemma numeric_scan_max_descending values : ∀ st,
  StronglySorted (λ a b, (b <? a)%float = true) (defined_values values) →
  Forall (λ v, (v <? ns_minValue st)%float = true) (defined_values values) →
  ns_maxValue (foldl numeric_step st (Some <$> values)) = ns_maxValue st.
Proof.
  induction values as [|v values IH]; intros st Hsorted Hbelow; [done|].
  rewrite fmap_cons. cbn [foldl]. rewrite defined_values_cons in Hsorted, Hbelow.
  unfold numeric_step at 2.
  destruct (numberSignifiesUndefined v) eqn:Hv; [by apply IH|].
  apply StronglySorted_inv in Hsorted as [Hsorted Hfirst].
  apply Forall_cons in Hbelow as [Hlt Hbelow]. rewrite Hlt.
  rewrite IH; [done|done|]. by cbn [ns_minValue].
Qed.

Lemma inferDataType_new values :
  ∃ a, inferDataType (new values) = {| Agg.values := values; aggregations := a |} ∧
       agg_count a = Some (length values) ∧ agg_isNumeric a = Some true ∧
       agg_minValue a = None ∧ agg_maxValue a = None.
Proof.
  unfold inferDataType, getAggregationByType.
  cbn [new aggregations agg_count].
  change (agg_count (aggregations (run_count (new values))))
    with (Some (length values)).
  rewrite AggFacts.scanned_new.
  match goal with |- context [foldl _ ?s _] => destruct (type_scan values s eq_refl) as [Hn _] end.
  eexists. split; [reflexivity|]. cbn. by rewrite Hn.
Qed.

Lemma inferDivergence_new values :
  let st := foldl numeric_step
                  {| ns_minValue := infinity; ns_maxValue := neg_infinity;
                     ns_sum := 0%float |} (Some <$> values) in
  (inferDivergence (new values)).2
    = {| hasPositive := (0 <? ns_maxValue st)%float;
         hasNegative := (ns_minValue st <? 0)%float;
         isDiverging := (ns_minValue st <? 0)%float && (0 <? ns_maxValue st)%float |}.
Proof.
  destruct (inferDataType_new values) as (a & Hca & Hcount & Hnum & Hmin & Hmax).
  intros st.
  assert (run_numeric {| Agg.values := values; aggregations := a |}
          = set_numeric (Num (ns_minValue st)) (Num (ns_maxValue st)) (Num (ns_sum st))
              (Num (divide_by_count (ns_sum st) (Some (length values))))
              {| Agg.values := values; aggregations := a |}) as Hrun.
  { unfold run_numeric, getAggregationByType at 1. cbn [aggregations]. rewrite Hnum.
    cbn [default from_option id].
    unfold fixedAllocationNumericAggregations, getAggregationByType.
    cbn [aggregations]. rewrite Hcount.
    change (scanned {| Agg.values := values; aggregations := a |} (Some (length values)))
      with (scanned (run_count (new values)) (Some (length values))).
    by rewrite AggFacts.scanned_new. }
  unfold inferDivergence, getAggregationByType at 1.
  cbn [new aggregations agg_isNumeric]. rewrite Hca. cbn [aggregations].
  rewrite Hnum. cbn [default from_option id].
  unfold getAggregationByType at 1. cbn [aggregations]. rewrite Hmin, Hrun.
  unfold getAggregationByType.
  cbn [set_numeric updateAggregations aggregations agg_maxValue agg_minValue].
  done.
Qed.

(** [inferDivergence] on a fresh aggregation object of a column of
    numbers: [hasNegative] tells exactly whether a defined value is below
    zero; [hasPositive] holds only if a defined value is above zero, but
    not whenever one is: on a column whose defined values go strictly
    down, none of them [Infinity], it is [false] whatever their sign; and
    [isDiverging] is the conjunction of the two. *)
Theorem inferDivergence_signs values :
  (hasNegative (inferDivergence (new values)).2 = true
   ↔ ∃ v, v ∈ defined_values values ∧ (v <? 0)%float = true) ∧
  (hasPositive (inferDivergence (new values)).2 = true
   → ∃ v, v ∈ defined_values values ∧ (0 <? v)%float = true) ∧
  (StronglySorted (λ a b, (b <? a)%float = true) (defined_values values) →
   Forall (λ v, (v <? infinity)%float = true) (defined_values values) →
   hasPositive (inferDivergence (new values)).2 = false) ∧
  isDiverging (inferDivergence (new values)).2
    = hasNegative (inferDivergence (new values)).2
      && hasPositive (inferDivergence (new values)).2.
Proof.
  rewrite inferDivergence_new. cbn [hasNegative hasPositive isDiverging].
  rewrite numeric_scan_min. cbn [ns_minValue].
  destruct (running_min_spec (defined_values values) infinity eq_refl
              (defined_values_numbers values)) as (Hn & Hle & Hall & Hin).
  split; [|split; [|split; [|done]]].
  - split.
    + intros Hneg. destruct Hin as [Hinf|Hin]; [|eauto].
      rewrite Hinf in Hneg. done.
    + intros (v & Hv & Hneg). eapply leb_ltb_strict; [by apply Hall|done].
  - intros Hpos.
    destruct (numeric_scan_max_is_a_value values
                {| ns_minValue := infinity; ns_maxValue := neg_infinity;
                   ns_sum := 0%float |}) as [Heq|Hmem]; [|eauto].
    rewrite Heq in Hpos. done.
  - intros Hsorted Hfinite.
    rewrite numeric_scan_max_descending; [done|done|done].
Qed.

End DivergenceFacts.
